(** * snc: a one-way directory synchronizer

    Shallow embedding of the synchronization engine of snc
    (packages [stream], [synchronizer] and [validate/dir]) together with
    the part of the Go standard library it runs on ([path/filepath], [os],
    [crypto/sha256]), and the properties of the engine. *)

From Stdlib Require Import ZArith List String Ascii Bool Lia Arith.
Import ListNotations.

Local Open Scope string_scope.
Local Open Scope list_scope.

(* ================================================================= *)
(** ** path/filepath *)

(** A path is the list of its components, counted from the root of the
    file system; the root itself is [[]]. *)
Definition path := list string.

Module filepath.

(** A component that [Clean] keeps as it is. *)
Definition proper (c : string) : bool :=
  negb (String.eqb c "") && negb (String.eqb c ".") && negb (String.eqb c "..").

(** [clean_onto acc p]: [acc] holds the cleaned components so far, last
    one first. Empty and [.] components are dropped, [..] removes the
    component before it (and is dropped at the root). *)
Fixpoint clean_onto (acc : list string) (p : path) : list string :=
  match p with
  | [] => acc
  | c :: p' =>
      if String.eqb c "" || String.eqb c "." then clean_onto acc p'
      else if String.eqb c ".." then clean_onto (tl acc) p'
      else clean_onto (c :: acc) p'
  end.

Definition Clean (p : path) : path := rev (clean_onto [] p).

(** [filepath.Join] cleans the joined path. *)
Definition Join (a b : path) : path := Clean (a ++ b).

(** [filepath.Dir]: all but the last component. *)
Definition Dir (p : path) : path := removelast (Clean p).

(** Drops the longest common prefix of the two paths. *)
Fixpoint strip_common (b t : path) : path * path :=
  match b, t with
  | cb :: b', ct :: t' =>
      if String.eqb cb ct then strip_common b' t' else (b, t)
  | _, _ => (b, t)
  end.

(** [filepath.Rel basepath targpath]: both paths are cleaned, the
    common prefix is dropped, every component left of the base becomes a
    [..] and the rest of the target follows. It fails when a [..] is
    left in the base. The empty result is Go's ["."]. *)
Definition Rel (basepath targpath : path) : option path :=
  let '(b, t) := strip_common (Clean basepath) (Clean targpath) in
  if existsb (String.eqb "..") b then None
  else Some (repeat ".." (List.length b) ++ t).

Definition clean_path (p : path) : bool := forallb proper p.

(** [is_prefix a b]: [b] is [a] or lies below it. *)
Fixpoint is_prefix (a b : path) : bool :=
  match a, b with
  | [], _ => true
  | ca :: a', cb :: b' => String.eqb ca cb && is_prefix a' b'
  | _ :: _, [] => false
  end.

(** Neither path is the other or lies below it. *)
Definition disjoint (a b : path) : bool :=
  negb (is_prefix a b) && negb (is_prefix b a).

End filepath.

(* ================================================================= *)
(** ** crypto/sha256 *)

Module sha256.
Local Open Scope Z_scope.

Definition w32 (x : Z) : Z := x mod 4294967296.
Definition add32 (x y : Z) : Z := w32 (x + y).
Definition rotr (n x : Z) : Z :=
  Z.lor (Z.shiftr x n) (w32 (Z.shiftl x (32 - n))).
Definition not32 (x : Z) : Z := w32 (Z.lnot x).

Definition Ch (x y z : Z) : Z := Z.lxor (Z.land x y) (Z.land (not32 x) z).
Definition Maj (x y z : Z) : Z :=
  Z.lxor (Z.lxor (Z.land x y) (Z.land x z)) (Z.land y z).
Definition Sigma0 (x : Z) : Z := Z.lxor (Z.lxor (rotr 2 x) (rotr 13 x)) (rotr 22 x).
Definition Sigma1 (x : Z) : Z := Z.lxor (Z.lxor (rotr 6 x) (rotr 11 x)) (rotr 25 x).
Definition sigma0 (x : Z) : Z := Z.lxor (Z.lxor (rotr 7 x) (rotr 18 x)) (Z.shiftr x 3).
Definition sigma1 (x : Z) : Z := Z.lxor (Z.lxor (rotr 17 x) (rotr 19 x)) (Z.shiftr x 10).

(** The constants are read off the first primes, as the standard has
    them: the first 32 bits of the fractional parts of their cube roots
    ([K]) and of their square roots ([H0]). *)
Definition is_prime (n : Z) : bool :=
  (1 <? n) && forallb (fun d => negb (n mod d =? 0)) (map Z.of_nat (seq 2 (Z.to_nat n - 2))).

Definition primes_below (n : nat) : list Z :=
  filter is_prime (map Z.of_nat (seq 0 n)).

(** The largest [r] below [2 ^ bits] whose cube is at most [x], found
    bit by bit from [acc]. *)
Fixpoint cube_root_bits (bits : nat) (x acc : Z) : Z :=
  match bits with
  | O => acc
  | S b =>
      let r := acc + Z.shiftl 1 (Z.of_nat b) in
      cube_root_bits b x (if r * r * r <=? x then r else acc)
  end.

Definition K : list Z :=
  Eval vm_compute in
    map (fun q => w32 (cube_root_bits 40 (Z.shiftl q 96) 0)) (primes_below 312).

Definition H0 : list Z :=
  Eval vm_compute in
    map (fun q => w32 (Z.sqrt (Z.shiftl q 64))) (firstn 8 (primes_below 20)).

(** Big-endian bytes of [x], [n] of them. *)
Fixpoint be_bytes (n : nat) (x : Z) : list Z :=
  match n with
  | O => []
  | S n' => (Z.shiftr x (8 * Z.of_nat n')) mod 256 :: be_bytes n' x
  end.

(** The message followed by 0x80, zeros up to 56 modulo 64, and the
    length in bits as 8 bytes. *)
Definition pad (msg : list Z) : list Z :=
  let l := Z.of_nat (List.length msg) in
  let zeros := Z.to_nat ((55 - l) mod 64) in
  msg ++ [128] ++ repeat 0 zeros ++ be_bytes 8 (8 * l).

(** Reads big-endian 32-bit words, at most [n] of them. *)
Fixpoint be_words (n : nat) (bs : list Z) : list Z :=
  match n, bs with
  | S n', b0 :: b1 :: b2 :: b3 :: bs' =>
      (Z.shiftl b0 24 + Z.shiftl b1 16 + Z.shiftl b2 8 + b3) :: be_words n' bs'
  | _, _ => []
  end.

(** The message schedule, last word first; [n] more words are added. *)
Fixpoint schedule (n : nat) (ws : list Z) : list Z :=
  match n with
  | O => ws
  | S n' =>
      let wt := add32 (add32 (sigma1 (nth 1 ws 0)) (nth 6 ws 0))
                      (add32 (sigma0 (nth 14 ws 0)) (nth 15 ws 0)) in
      schedule n' (wt :: ws)
  end.

Definition round (s : list Z) (kw : Z * Z) : list Z :=
  match s with
  | [a; b; c; d; e; f; g; h] =>
      let t1 := add32 (add32 (add32 h (Sigma1 e)) (add32 (Ch e f g) (fst kw))) (snd kw) in
      let t2 := add32 (Sigma0 a) (Maj a b c) in
      [add32 t1 t2; a; b; c; add32 d t1; e; f; g]
  | _ => s
  end.

Fixpoint zip_add (xs ys : list Z) : list Z :=
  match xs, ys with
  | x :: xs', y :: ys' => add32 x y :: zip_add xs' ys'
  | _, _ => []
  end.

Definition block (h : list Z) (bs : list Z) : list Z :=
  let ws := rev (schedule 48 (rev (be_words 16 bs))) in
  zip_add h (fold_left round (combine K ws) h).

(** Hashes the blocks of 64 bytes one after the other; [n] bounds their
    number. *)
Fixpoint blocks (n : nat) (h : list Z) (bs : list Z) : list Z :=
  match n with
  | O => h
  | S n' =>
      match bs with
      | [] => h
      | _ => blocks n' (block h (firstn 64 bs)) (skipn 64 bs)
      end
  end.

Definition Sum256 (msg : list Z) : list Z :=
  let p := pad msg in
  List.concat (map (be_bytes 4) (blocks (S (Nat.div (List.length p) 64)) H0 p)).

Definition hex_digit (d : Z) : ascii :=
  ascii_of_nat (Z.to_nat (if d <? 10 then 48 + d else 87 + d)).

(** [fmt.Sprintf("%x", bytes)] *)
Fixpoint hex (bs : list Z) : string :=
  match bs with
  | [] => EmptyString
  | b :: bs' => String (hex_digit (b / 16)) (String (hex_digit (b mod 16)) (hex bs'))
  end.

Definition bytes_of_string (s : string) : list Z :=
  map (fun c => Z.of_nat (nat_of_ascii c)) (list_ascii_of_string s).

End sha256.

(* ================================================================= *)
(** ** syscall, error values, logger *)

Set Warnings "-register-all".

Module syscall.
Inductive Errno : Type :=
| ENOENT | ENOTDIR | EACCES | EISDIR | EPERM | EIO | EEXIST | ENOTEMPTY | EINVAL.
End syscall.

(** The text of a path. *)
Definition show (p : path) : string := String.concat "/" p.

(** A Go [error] that is not nil: the error of a system call, or
    [fmt.Errorf format ...] with the texts and the errors it is given. *)
Inductive error : Type :=
| PathError (op : string) (p : path) (e : syscall.Errno)
| Errorf (format : string) (texts : list string) (errs : list error).

(** package errors: the base errors and the helpers the engine uses. *)
Module errors.
Definition NewError (message : string) : error := Errorf message [] [].

Definition ErrNotADirectory := NewError "path is not a directory".
Definition ErrDirectoryNotAccessible := NewError "path is not accessible".
Definition ErrCannotCreateDirectory := NewError "cannot create directory".
Definition ErrSourceDirValidation := NewError "source directory validation failed".
Definition ErrTargetDirValidation := NewError "target directory validation failed".
Definition ErrCannotOpenFile := NewError "cannot open file".
Definition ErrCannotCreateFile := NewError "cannot create file".
Definition ErrFileCopyFailed := NewError "file copy failed".
Definition ErrSyncFailed := NewError "sync operation failed".
Definition ErrCannotComputeRelativePath := NewError "cannot compute relative path".
Definition ErrCannotCreateParentDir := NewError "cannot create parent directory".
Definition ErrCannotStatFile := NewError "cannot get file information".

(** The cause may be nil. *)
Definition with_cause (baseErr : error) (cause : option error) : list error :=
  match cause with Some c => [baseErr; c] | None => [baseErr] end.

Definition NewDirectoryError (baseErr : error) (p : path) (cause : option error) : error :=
  Errorf "%s: %w: %v" [show p] (with_cause baseErr cause).
Definition NewFileError (baseErr : error) (p : path) (cause : option error) : error :=
  Errorf "%s: %w: %v" [show p] (with_cause baseErr cause).
Definition NewSyncError (baseErr : error) (context : string) (cause : option error) : error :=
  Errorf "%s: %w: %v" [context] (with_cause baseErr cause).
Definition NewValidationError (baseErr : error) (context : string) (cause : option error)
  : error :=
  Errorf "%s: %w: %v" [context] (with_cause baseErr cause).
Definition NewRelativePathError (p : path) (cause : error) : error :=
  Errorf "cannot compute relative path for %s: %w" [show p]
    [NewSyncError ErrCannotComputeRelativePath (show p) (Some cause)].
Definition NewFileStatError (p : path) (cause : error) : error :=
  Errorf "cannot stat %s: %w" [show p] [NewFileError ErrCannotStatFile p (Some cause)].
End errors.

(** package logger. The lines are kept the way they are asked for: the
    label, the component, the format and its arguments. *)
Module logger.

Inductive LogLevel : Type := ERROR | WARN | INFO | DEBUG.

Definition rank (l : LogLevel) : nat :=
  match l with ERROR => 0 | WARN => 1 | INFO => 2 | DEBUG => 3 end.

Inductive arg : Type :=
| APath (p : path)
| AStr (s : string)
| AInt (n : Z)
| ABool (b : bool)
| AErr (e : error).

Record line : Type := mkLine {
  l_label : string;
  l_component : string;
  l_format : string;
  l_args : list arg
}.

(** [currentLevel] and what was printed, the last line first. *)
Record state : Type := mkState {
  currentLevel : LogLevel;
  lines : list line
}.

Definition emit (min : LogLevel) (l : line) (s : state) : state :=
  if Nat.leb (rank min) (rank (currentLevel s))
  then mkState (currentLevel s) (l :: lines s)
  else s.

Definition Error (component message : string) (args : list arg) : state -> state :=
  emit ERROR (mkLine "ERROR" component message args).
Definition Warn (component message : string) (args : list arg) : state -> state :=
  emit WARN (mkLine "WARN" component message args).
Definition Info (component message : string) (args : list arg) : state -> state :=
  emit INFO (mkLine "INFO" component message args).
Definition Debug (component message : string) (args : list arg) : state -> state :=
  emit DEBUG (mkLine "DEBUG" component message args).
Definition Progress (component operation item : string) (args : list arg)
  : state -> state :=
  emit INFO (mkLine "PROGRESS" component item (AStr operation :: args)).
Definition Success (component message : string) (args : list arg) : state -> state :=
  emit INFO (mkLine "SUCCESS" component message args).

End logger.

(* ================================================================= *)
(** ** os: the file system *)

(** The file system is a tree of directories and regular files (the
    program gives no meaning to anything else). One user runs the
    program: a permission is the pair of that user's read and write bits,
    and the read bit of a directory stands for listing and searching it.
    Directories keep their entries in the order of their names, the
    order in which [os.ReadDir] returns them. *)
Module os.

Import syscall.
Definition errno : Type := Errno.

(** [os.IsNotExist] holds for ENOENT alone. *)
Definition IsNotExist (e : errno) : bool :=
  match e with ENOENT => true | _ => false end.

Inductive result (A : Type) : Type :=
| Ok (a : A)
| Err (e : errno).
Arguments Ok {A} a.
Arguments Err {A} e.

(** An instant, to the nanosecond. *)
Record Time : Type := mkTime { sec : Z; nsec : Z }.

(** [Time.Equal]: the same instant. *)
Definition Time_Equal (a b : Time) : bool :=
  Z.eqb (sec a) (sec b) && Z.eqb (nsec a) (nsec b).

Record perm : Type := mkPerm { p_r : bool; p_w : bool }.

(** Mode 0755, for the user running the program. *)
Definition mode_0755 : perm := mkPerm true true.
(** Mode 0666, the mode [os.Create] asks for. *)
Definition mode_0666 : perm := mkPerm true true.

(** A regular file. [f_own]: the user owns the file (only then may the
    times be set). [f_rderr = Some k]: reading fails with EIO after [k]
    bytes. *)
Record file : Type := mkFile {
  f_data : string;
  f_mtime : Time;
  f_perm : perm;
  f_own : bool;
  f_rderr : option nat
}.

Record dirmeta : Type := mkDir {
  d_perm : perm;
  d_mtime : Time;
  d_size : Z
}.

Inductive node : Type :=
| File (f : file)
| Dir (m : dirmeta) (es : list (string * node)).

Record FileInfo : Type := mkInfo {
  fi_isdir : bool;
  fi_size : Z;
  fi_mtime : Time
}.

Record DirEntry : Type := mkEntry {
  de_name : string;
  de_isdir : bool
}.

Definition is_dir (n : node) : bool :=
  match n with Dir _ _ => true | File _ => false end.

Definition info_of (n : node) : FileInfo :=
  match n with
  | File f => mkInfo false (Z.of_nat (String.length (f_data f))) (f_mtime f)
  | Dir m _ => mkInfo true (d_size m) (d_mtime m)
  end.

(** *** Entries of a directory *)

Fixpoint lookup_entry (c : string) (es : list (string * node)) : option node :=
  match es with
  | [] => None
  | (k, v) :: es' => if String.eqb k c then Some v else lookup_entry c es'
  end.

Fixpoint remove_entry (c : string) (es : list (string * node)) : list (string * node) :=
  match es with
  | [] => []
  | (k, v) :: es' =>
      if String.eqb k c then remove_entry c es' else (k, v) :: remove_entry c es'
  end.

Fixpoint replace_entry (c : string) (n : node) (es : list (string * node))
  : list (string * node) :=
  match es with
  | [] => []
  | (k, v) :: es' =>
      if String.eqb k c then (k, n) :: es' else (k, v) :: replace_entry c n es'
  end.

(** Inserts before the first entry with a greater name. *)
Fixpoint insert_entry (c : string) (n : node) (es : list (string * node))
  : list (string * node) :=
  match es with
  | [] => [(c, n)]
  | (k, v) :: es' =>
      if String.ltb c k then (c, n) :: (k, v) :: es'
      else (k, v) :: insert_entry c n es'
  end.

Definition set_entry (c : string) (o : option node) (es : list (string * node))
  : list (string * node) :=
  match o with
  | None => remove_entry c es
  | Some n =>
      match lookup_entry c es with
      | Some _ => replace_entry c n es
      | None => insert_entry c n es
      end
  end.

(** Applies [f] to the entry named [c]. *)
Fixpoint map_entry (c : string) (f : node -> node) (es : list (string * node))
  : list (string * node) :=
  match es with
  | [] => []
  | (k, v) :: es' =>
      if String.eqb k c then (k, f v) :: es' else (k, v) :: map_entry c f es'
  end.

(** *** Looking a path up *)

(** Walks down from [n] along [p]; every directory on the way has to be
    searchable. *)
Fixpoint resolve (n : node) (p : path) : result node :=
  match p with
  | [] => Ok n
  | c :: p' =>
      match n with
      | File _ => Err ENOTDIR
      | Dir m es =>
          if p_r (d_perm m) then
            match lookup_entry c es with
            | Some ch => resolve ch p'
            | None => Err ENOENT
            end
          else Err EACCES
      end
  end.

(** Puts [o] at the place [p] names below [n]: a node is set there or
    the entry is removed. Nothing changes when the parent of [p] is not
    a directory that is there. *)
Fixpoint put (p : path) (o : option node) (n : node) : node :=
  match n with
  | File _ => n
  | Dir m es =>
      match p with
      | [] => n
      | [c] => Dir m (set_entry c o es)
      | c :: p' => Dir m (map_entry c (put p' o) es)
      end
  end.

Definition parent (p : path) : path := removelast p.
Definition base (p : path) : string := last p "".

(** *** The operations on a file system, without their trace *)

Definition stat (fs : node) (p : path) : result FileInfo :=
  match resolve fs p with
  | Ok n => Ok (info_of n)
  | Err e => Err e
  end.

Definition readdir (fs : node) (p : path) : result (list DirEntry) :=
  match resolve fs p with
  | Ok (Dir m es) =>
      if p_r (d_perm m)
      then Ok (map (fun kv => mkEntry (fst kv) (is_dir (snd kv))) es)
      else Err EACCES
  | Ok (File _) => Err ENOTDIR
  | Err e => Err e
  end.

(** A directory the parent of [p] has to be, searchable and writable, to
    take a new entry. *)
Definition writable_parent (fs : node) (p : path) : result unit :=
  match p with
  | [] => Err EINVAL
  | _ =>
      match resolve fs (parent p) with
      | Ok (Dir m _) =>
          if p_r (d_perm m) && p_w (d_perm m) then Ok tt else Err EACCES
      | Ok (File _) => Err ENOTDIR
      | Err e => Err e
      end
  end.

Definition mkdir (fs : node) (p : path) (pm : perm) (now : Time) : result node :=
  match resolve fs p with
  | Ok _ => Err EEXIST
  | Err ENOENT =>
      match writable_parent fs p with
      | Ok _ => Ok (put p (Some (Dir (mkDir pm now 4096) [])) fs)
      | Err e => Err e
      end
  | Err e => Err e
  end.

(** [os.MkdirAll]: the directories of [todo] are made below [done], one
    after the other, where they are missing. A regular file on the way
    is ENOTDIR. The directories made before a failure stay. *)
Fixpoint mkdirall_from (done todo : path) (pm : perm) (now : Time) (fs : node)
  : node * option errno :=
  match todo with
  | [] => (fs, None)
  | c :: todo' =>
      let p := done ++ [c] in
      match stat fs p with
      | Ok i =>
          if fi_isdir i then mkdirall_from p todo' pm now fs
          else (fs, Some ENOTDIR)
      | Err _ =>
          match mkdir fs p pm now with
          | Ok fs' => mkdirall_from p todo' pm now fs'
          | Err e => (fs, Some e)
          end
      end
  end.

Definition mkdirall (fs : node) (p : path) (pm : perm) (now : Time)
  : node * option errno :=
  mkdirall_from [] p pm now fs.

(** [os.Open]: for reading. A directory opens too; reading it fails. *)
Definition open (fs : node) (p : path) : result unit :=
  match resolve fs p with
  | Ok (File f) => if p_r (f_perm f) then Ok tt else Err EACCES
  | Ok (Dir m _) => if p_r (d_perm m) then Ok tt else Err EACCES
  | Err e => Err e
  end.

(** [os.Create]: the file is made, or cut to no bytes when it is there. *)
Definition create (fs : node) (p : path) (now : Time) : result node :=
  match resolve fs p with
  | Ok (Dir _ _) => Err EISDIR
  | Ok (File f) =>
      if p_w (f_perm f)
      then Ok (put p (Some (File (mkFile "" now (f_perm f) (f_own f) (f_rderr f)))) fs)
      else Err EACCES
  | Err ENOENT =>
      match writable_parent fs p with
      | Ok _ => Ok (put p (Some (File (mkFile "" now mode_0666 true None))) fs)
      | Err e => Err e
      end
  | Err e => Err e
  end.

(** All the bytes an open file gives, and the error that ends the
    reading. *)
Definition read_all (fs : node) (p : path) : string * option errno :=
  match resolve fs p with
  | Ok (File f) =>
      match f_rderr f with
      | None => (f_data f, None)
      | Some k => (String.substring 0 k (f_data f), Some EIO)
      end
  | Ok (Dir _ _) => ("", Some EISDIR)
  | Err e => ("", Some e)
  end.

(** The bytes written to a file that was opened by [create]. *)
Definition write_all (fs : node) (p : path) (data : string) (now : Time) : node :=
  match resolve fs p with
  | Ok (File f) =>
      put p (Some (File (mkFile data now (f_perm f) (f_own f) (f_rderr f)))) fs
  | _ => fs
  end.

(** [os.Chtimes], the modification time of it. *)
Definition chtimes (fs : node) (p : path) (mtime : Time) : result node :=
  match resolve fs p with
  | Ok (File f) =>
      if f_own f
      then Ok (put p (Some (File (mkFile (f_data f) mtime (f_perm f) (f_own f) (f_rderr f)))) fs)
      else Err EPERM
  | Ok (Dir m es) => Ok (put p (Some (Dir (mkDir (d_perm m) mtime (d_size m)) es)) fs)
  | Err e => Err e
  end.

(** [os.Remove]: a file, or a directory without entries. *)
Definition remove (fs : node) (p : path) : result node :=
  match resolve fs p with
  | Ok n =>
      match writable_parent fs p with
      | Ok _ =>
          match n with
          | Dir _ (_ :: _) => Err ENOTEMPTY
          | _ => Ok (put p None fs)
          end
      | Err e => Err e
      end
  | Err e => Err e
  end.

(** *** Well-formed trees *)

(** The names of a directory are proper names, each one once. *)
Fixpoint names_ok (seen : list string) (es : list string) : bool :=
  match es with
  | [] => true
  | c :: es' =>
      filepath.proper c && negb (existsb (String.eqb c) seen) && names_ok (c :: seen) es'
  end.

Fixpoint wf (n : node) : bool :=
  match n with
  | File _ => true
  | Dir _ es =>
      names_ok [] (map fst es)
      && (fix wf_all (l : list (string * node)) : bool :=
            match l with
            | [] => true
            | kv :: l' => wf (snd kv) && wf_all l'
            end) es
  end.

(** The number of directories one above the other. *)
Fixpoint height (n : node) : nat :=
  match n with
  | File _ => 0
  | Dir _ es =>
      S ((fix height_all (l : list (string * node)) : nat :=
            match l with
            | [] => 0
            | kv :: l' => Nat.max (height (snd kv)) (height_all l')
            end) es)
  end.

(** *** The state of the process and the calls it makes *)

(** A call of the program into [os] (an open file is named by its
    path). *)
Inductive call : Type :=
| CLstat (p : path)
| CStat (p : path)
| CReadDir (p : path)
| CMkdirAll (p : path)
| COpen (p : path)
| CCreate (p : path)
| CRead (p : path)
| CWrite (p : path) (data : string)
| CChtimes (p : path) (mtime : Time)
| CRemove (p : path).

(** The file system, the clock, the calls made so far (the last one
    first) and the logger. *)
Record World : Type := mkWorld {
  w_fs : node;
  w_now : Time;
  w_calls : list call;
  w_logger : logger.state
}.

Definition traced (c : call) (w : World) : World :=
  mkWorld (w_fs w) (w_now w) (c :: w_calls w) (w_logger w).

Definition with_fs (fs : node) (w : World) : World :=
  mkWorld fs (w_now w) (w_calls w) (w_logger w).

Definition log (f : logger.state -> logger.state) (w : World) : World :=
  mkWorld (w_fs w) (w_now w) (w_calls w) (f (w_logger w)).

Definition Lstat (p : path) (w : World) : World * result FileInfo :=
  (traced (CLstat p) w, stat (w_fs w) p).

Definition Stat (p : path) (w : World) : World * result FileInfo :=
  (traced (CStat p) w, stat (w_fs w) p).

Definition ReadDir (p : path) (w : World) : World * result (list DirEntry) :=
  (traced (CReadDir p) w, readdir (w_fs w) p).

Definition MkdirAll (p : path) (pm : perm) (w : World) : World * option errno :=
  let '(fs', e) := mkdirall (w_fs w) p pm (w_now w) in
  (with_fs fs' (traced (CMkdirAll p) w), e).

Definition Open (p : path) (w : World) : World * result unit :=
  (traced (COpen p) w, open (w_fs w) p).

Definition Create (p : path) (w : World) : World * result unit :=
  match create (w_fs w) p (w_now w) with
  | Ok fs' => (with_fs fs' (traced (CCreate p) w), Ok tt)
  | Err e => (traced (CCreate p) w, Err e)
  end.

(** [io.Copy dst src] on two open files: the bytes read from [src] are
    written to [dst]; the number of bytes and the error that stopped the
    reading. *)
Definition Copy (dst src : path) (w : World) : World * (Z * option errno) :=
  let '(data, e) := read_all (w_fs w) src in
  (with_fs (write_all (w_fs w) dst data (w_now w))
     (traced (CWrite dst data) (traced (CRead src) w)),
   (Z.of_nat (String.length data), e)).

(** The bytes of an open file, read to the end. *)
Definition ReadAll (p : path) (w : World) : World * (string * option errno) :=
  (traced (CRead p) w, read_all (w_fs w) p).

(** [File.Stat] of an open file. *)
Definition Fstat (p : path) (w : World) : World * result FileInfo :=
  (traced (CStat p) w, stat (w_fs w) p).

(** [File.Close] does not fail here. *)
Definition Close (p : path) (w : World) : World * option errno := (w, None).

(** The access time is not kept. *)
Definition Chtimes (p : path) (atime mtime : Time) (w : World) : World * option errno :=
  match chtimes (w_fs w) p mtime with
  | Ok fs' => (with_fs fs' (traced (CChtimes p mtime) w), None)
  | Err e => (traced (CChtimes p mtime) w, Some e)
  end.

Definition Remove (p : path) (w : World) : World * option errno :=
  match remove (w_fs w) p with
  | Ok fs' => (with_fs fs' (traced (CRemove p) w), None)
  | Err e => (traced (CRemove p) w, Some e)
  end.

(** [time.Now] *)
Definition Now (w : World) : Time := w_now w.

End os.

(* ================================================================= *)
(** ** filepath.WalkDir *)

(** The function [WalkDir] calls for every entry takes the path, the
    entry ([None] when the root could not be examined) and the error met
    there. It works on the variables [C] it has captured and on the
    world. An error it returns stops the walk (this program's functions
    return none, and never [SkipDir] or [SkipAll], which are left out). *)
Section WalkDir.
Context {C : Type}.

Definition WalkDirFunc : Type :=
  path -> option os.DirEntry -> option error -> C -> os.World
  -> C * os.World * option error.

Variable fn : WalkDirFunc.

Fixpoint walkEntries
    (rec : path -> os.DirEntry -> C -> os.World -> option (C * os.World * option error))
    (dir : path) (dirs : list os.DirEntry) (c : C) (w : os.World)
  : option (C * os.World * option error) :=
  match dirs with
  | [] => Some (c, w, None)
  | d1 :: dirs' =>
      match rec (filepath.Join dir [os.de_name d1]) d1 c w with
      | None => None
      | Some (c', w', Some e) => Some (c', w', Some e)
      | Some (c', w', None) => walkEntries rec dir dirs' c' w'
      end
  end.

(** [walkDir]: the function is called on the entry; a directory is then
    read, the error of reading it is given to the function in a second
    call, and the entries are walked in turn. The directory is read when
    the walk gets there. [fuel] bounds the depth; [None] when it runs
    out. *)
Fixpoint walkDir (fuel : nat) (p : path) (d : os.DirEntry) (c : C) (w : os.World)
  {struct fuel} : option (C * os.World * option error) :=
  match fuel with
  | O => None
  | S fuel' =>
      let '(c1, w1, e1) := fn p (Some d) None c w in
      match e1 with
      | Some e => Some (c1, w1, Some e)
      | None =>
          if negb (os.de_isdir d) then Some (c1, w1, None)
          else
            let '(w2, r) := os.ReadDir p w1 in
            let '(c3, w3, e3) :=
              match r with
              | os.Err e => fn p (Some d) (Some (PathError "open" p e)) c1 w2
              | os.Ok _ => (c1, w2, None)
              end in
            match e3 with
            | Some e => Some (c3, w3, Some e)
            | None =>
                walkEntries (walkDir fuel') p
                  (match r with os.Ok l => l | os.Err _ => [] end) c3 w3
            end
      end
  end.

Definition WalkDir (fuel : nat) (root : path) (c : C) (w : os.World)
  : option (C * os.World * option error) :=
  let '(w1, r) := os.Lstat root w in
  match r with
  | os.Err e => Some (fn root None (Some (PathError "lstat" root e)) c w1)
  | os.Ok info => walkDir fuel root (os.mkEntry (os.base root) (os.fi_isdir info)) c w1
  end.

End WalkDir.

(* ================================================================= *)
(** ** config *)

Module config.
Record Config : Type := mkConfig {
  Source : path;
  Target : path;
  DeleteMissing : bool;
  LogLevel : string;
  UpdateMethod : string
}.
End config.

(* ================================================================= *)
(** ** stream: update strategies, the copy pass, the deletion pass *)

Module stream.
Import os logger.

(** *** update strategies *)

Inductive UpdateStrategy : Type :=
| ModTimeStrategy
| SHA256Strategy.

Definition Name (s : UpdateStrategy) : string :=
  match s with
  | ModTimeStrategy => "modtime"
  | SHA256Strategy => "sha256"
  end.

Definition ModTime_NeedsUpdate (srcPath dstPath : path) (w : World)
  : World * (bool * option error) :=
  let '(w, r) := os.Stat srcPath w in
  match r with
  | Err e =>
      (w, (false, Some (Errorf "cannot stat source file %s: %w" [show srcPath]
                          [PathError "stat" srcPath e])))
  | Ok srcInfo =>
      let '(w, r) := os.Stat dstPath w in
      match r with
      | Err e =>
          (w, (false, Some (Errorf "cannot stat destination file %s: %w" [show dstPath]
                              [PathError "stat" dstPath e])))
      | Ok dstInfo =>
          if negb (Z.eqb (fi_size srcInfo) (fi_size dstInfo)) then (w, (true, None))
          else if negb (Time_Equal (fi_mtime srcInfo) (fi_mtime dstInfo))
               then (w, (true, None))
               else (w, (false, None))
      end
  end.

Definition calculateSHA256 (filePath : path) (w : World)
  : World * (string * option error) :=
  let '(w, r) := os.Open filePath w in
  match r with
  | Err e => (w, ("", Some (PathError "open" filePath e)))
  | Ok _ =>
      let '(w, (data, rerr)) := os.ReadAll filePath w in
      let ret :=
        match rerr with
        | Some e => ("", Some (PathError "read" filePath e))
        | None => (sha256.hex (sha256.Sum256 (sha256.bytes_of_string data)), None)
        end in
      let '(w, _) := os.Close filePath w in
      (w, ret)
  end.

Definition SHA256_NeedsUpdate (srcPath dstPath : path) (w : World)
  : World * (bool * option error) :=
  let '(w, (srcHash, err)) := calculateSHA256 srcPath w in
  match err with
  | Some e =>
      (w, (false, Some (Errorf "cannot calculate SHA256 for source file %s: %w"
                          [show srcPath] [e])))
  | None =>
      let '(w, (dstHash, err)) := calculateSHA256 dstPath w in
      match err with
      | Some e =>
          (w, (false, Some (Errorf "cannot calculate SHA256 for destination file %s: %w"
                              [show dstPath] [e])))
      | None => (w, (negb (String.eqb srcHash dstHash), None))
      end
  end.

Definition NeedsUpdate (s : UpdateStrategy) : path -> path -> World
                                              -> World * (bool * option error) :=
  match s with
  | ModTimeStrategy => ModTime_NeedsUpdate
  | SHA256Strategy => SHA256_NeedsUpdate
  end.

(** The strategy, or the error. *)
Definition NewUpdateStrategy (method : string) : UpdateStrategy + error :=
  if String.eqb method "modtime" then inl ModTimeStrategy
  else if String.eqb method "sha256" then inl SHA256Strategy
  else inr (Errorf "unsupported update method: %s (supported: modtime, sha256)"
              [method] []).

(** *** copyFile *)

(** The part of [copyFile] that runs while the destination is open. *)
Definition copyFile_contents (src dst : path) (w : World) : World * option error :=
  let '(w, (bytesCopied, err)) := os.Copy dst src w in
  match err with
  | Some e =>
      let w := log (Error "STREAM" "File copy failed from %s to %s: %v"
                      [APath src; APath dst; AErr (PathError "read" src e)]) w in
      (w, Some (errors.NewSyncError errors.ErrFileCopyFailed "copy operation"
                  (Some (PathError "read" src e))))
  | None =>
      let '(w, r) := os.Fstat src w in
      let w :=
        match r with
        | Ok srcInfo =>
            let '(w, chtimesErr) := os.Chtimes dst (os.Now w) (fi_mtime srcInfo) w in
            match chtimesErr with
            | Some e =>
                log (Warn "STREAM" "Failed to preserve modtime for %s: %v"
                       [APath dst; AErr (PathError "chtimes" dst e)]) w
            | None => w
            end
        | Err e =>
            log (Warn "STREAM" "Failed to stat source file %s for modtime: %v"
                   [APath src; AErr (PathError "stat" src e)]) w
        end in
      let w := log (Success "STREAM" "Copied %s -> %s (%d bytes)"
                      [APath src; APath dst; AInt bytesCopied]) w in
      (w, None)
  end.

(** A deferred [Close]: a failure is a warning. *)
Definition deferred_close (what : string) (p : path) (w : World) : World :=
  let '(w, closeErr) := os.Close p w in
  match closeErr with
  | Some e => log (Warn "STREAM" what [APath p; AErr (PathError "close" p e)]) w
  | None => w
  end.

Definition copyFile (src dst : path) (w : World) : World * option error :=
  let w := log (Debug "STREAM" "Starting copy: %s -> %s" [APath src; APath dst]) w in
  let '(w, err) := os.MkdirAll (filepath.Dir dst) mode_0755 w in
  match err with
  | Some e =>
      let w := log (Error "STREAM" "Cannot create parent directory for %s: %v"
                      [APath dst; AErr (PathError "mkdir" dst e)]) w in
      (w, Some (errors.NewSyncError errors.ErrCannotCreateParentDir (show dst)
                  (Some (PathError "mkdir" dst e))))
  | None =>
      let '(w, r) := os.Open src w in
      match r with
      | Err e =>
          let w := log (Error "STREAM" "Cannot open source file %s: %v"
                          [APath src; AErr (PathError "open" src e)]) w in
          (w, Some (errors.NewFileError errors.ErrCannotOpenFile src
                      (Some (PathError "open" src e))))
      | Ok _ =>
          let '(w, ret) :=
            let '(w, r) := os.Create dst w in
            match r with
            | Err e =>
                let w := log (Error "STREAM" "Cannot create destination file %s: %v"
                                [APath dst; AErr (PathError "open" dst e)]) w in
                (w, Some (errors.NewFileError errors.ErrCannotCreateFile dst
                            (Some (PathError "open" dst e))))
            | Ok _ =>
                let '(w, ret) := copyFile_contents src dst w in
                (deferred_close "Failed to close destination file %s: %v" dst w, ret)
            end in
          (deferred_close "Failed to close source file %s: %v" src w, ret)
      end
  end.

(** *** processFileWithStrategy *)

Definition processFileWithStrategy (srcRoot dstRoot srcPath : path) (d : option DirEntry)
    (strategy : UpdateStrategy) (w : World) : World * option error :=
  match filepath.Rel srcRoot srcPath with
  | None =>
      let relErr := Errorf "Rel: can't make %s relative to %s" [show srcPath; show srcRoot] [] in
      let w := log (Error "STREAM" "Cannot compute relative path for %s: %v"
                      [APath srcPath; AErr relErr]) w in
      (w, Some (errors.NewRelativePathError srcPath relErr))
  | Some rel =>
      let dstPath := filepath.Join dstRoot rel in
      let w := log (Debug "STREAM" "Processing: %s -> %s" [APath srcPath; APath dstPath]) w in
      let '(w, r) := os.Stat dstPath w in
      match r with
      | Err e =>
          if IsNotExist e then
            let w := log (Progress "STREAM" "COPY" "New file: %s" [APath rel]) w in
            copyFile srcPath dstPath w
          else
            let w := log (Error "STREAM" "Cannot access destination file %s: %v"
                            [APath dstPath; AErr (PathError "stat" dstPath e)]) w in
            (w, Some (errors.NewFileStatError dstPath (PathError "stat" dstPath e)))
      | Ok _ =>
          let '(w, (needsUpdate, err)) := NeedsUpdate strategy srcPath dstPath w in
          match err with
          | Some e =>
              let w := log (Error "STREAM" "Failed to check if file needs update %s: %v"
                              [APath srcPath; AErr e]) w in
              (w, Some e)
          | None =>
              if needsUpdate then
                let w := log (Progress "STREAM" "UPDATE" "Modified file: %s" [APath rel]) w in
                copyFile srcPath dstPath w
              else
                let w := log (Debug "STREAM" "Skipping unchanged file: %s" [APath rel]) w in
                (w, None)
          end
      end
  end.

(** *** Sync *)

(** The variables the walk function of [Sync] captures. They are Go
    [int]s that count calls of the function; a walk is far from the
    2^63 calls that would wrap them, and they are kept in [Z]. *)
Record counters : Type := mkCounters {
  fileCount : Z;
  copiedCount : Z;
  skippedCount : Z;
  errorCount : Z
}.

Definition zero : counters := mkCounters 0 0 0 0.

Definition syncFn (cfg : config.Config) (updateStrategy : UpdateStrategy)
  : WalkDirFunc (C := counters) :=
  fun p d err c w =>
    match err with
    | Some e =>
        let w := log (Error "STREAM" "Error accessing %s: %v" [APath p; AErr e]) w in
        (mkCounters (fileCount c) (copiedCount c) (skippedCount c) (errorCount c + 1), w, None)
    | None =>
        if match d with Some d => de_isdir d | None => false end then
          let w := log (Debug "STREAM" "Skipping directory: %s" [APath p]) w in
          (c, w, None)
        else
          let c := mkCounters (fileCount c + 1) (copiedCount c) (skippedCount c) (errorCount c) in
          let w := log (Debug "STREAM" "Processing file: %s" [APath p]) w in
          let '(w, perr) :=
            processFileWithStrategy (config.Source cfg) (config.Target cfg) p d
              updateStrategy w in
          match perr with
          | Some e =>
              let w := log (Error "STREAM" "Failed to process file %s: %v" [APath p; AErr e]) w in
              (mkCounters (fileCount c) (copiedCount c) (skippedCount c) (errorCount c + 1),
               w, None)
          | None =>
              (mkCounters (fileCount c) (copiedCount c + 1) (skippedCount c) (errorCount c),
               w, None)
          end
    end.

(** [Sync] up to the end of the walk: the counters, the world and what
    [WalkDir] returned; or the error of the strategy. *)
Definition Sync_walk (fuel : nat) (cfg : config.Config) (w : World)
  : option (counters * World * option error) :=
  let w := log (Info "STREAM" "Starting file synchronization from %s to %s"
                  [APath (config.Source cfg); APath (config.Target cfg)]) w in
  let w := log (Info "STREAM" "Using update method: %s" [AStr (config.UpdateMethod cfg)]) w in
  match NewUpdateStrategy (config.UpdateMethod cfg) with
  | inr e =>
      let w := log (Error "STREAM" "Failed to create update strategy: %v" [AErr e]) w in
      Some (zero, w,
            Some (errors.NewSyncError errors.ErrSyncFailed "update strategy creation" (Some e)))
  | inl updateStrategy =>
      match WalkDir (syncFn cfg updateStrategy) fuel (config.Source cfg) zero w with
      | None => None
      | Some (c, w, Some e) =>
          let w := log (Error "STREAM" "Directory walk failed: %v" [AErr e]) w in
          Some (c, w, Some (errors.NewSyncError errors.ErrSyncFailed "sync operation" (Some e)))
      | Some (c, w, None) =>
          let w := log (Info "STREAM"
                          "Synchronization completed: %d files processed, %d copied, %d skipped, %d errors"
                          [AInt (fileCount c); AInt (copiedCount c);
                           AInt (skippedCount c); AInt (errorCount c)]) w in
          Some (c, w, None)
      end
  end.

(** [Sync] returns an error or nil, nothing else. *)
Definition Sync (fuel : nat) (cfg : config.Config) (w : World)
  : option (World * option error) :=
  match Sync_walk fuel cfg w with
  | Some (_, w, err) => Some (w, err)
  | None => None
  end.

(** *** DeleteMissing *)

Record delCounters : Type := mkDel {
  d_fileCount : Z;
  d_deletedCount : Z;
  d_errorCount : Z
}.

Definition delZero : delCounters := mkDel 0 0 0.

Definition deleteFn (srcRoot dstRoot : path) : WalkDirFunc (C := delCounters) :=
  fun dstPath d err c w =>
    match err with
    | Some e =>
        let w := log (Error "DELETE" "Error accessing %s: %v" [APath dstPath; AErr e]) w in
        (mkDel (d_fileCount c) (d_deletedCount c) (d_errorCount c + 1), w, None)
    | None =>
        if match d with Some d => de_isdir d | None => false end then
          let w := log (Debug "DELETE" "Skipping directory: %s" [APath dstPath]) w in
          (c, w, None)
        else
          let c := mkDel (d_fileCount c + 1) (d_deletedCount c) (d_errorCount c) in
          let w := log (Debug "DELETE" "Checking file: %s" [APath dstPath]) w in
          match filepath.Rel dstRoot dstPath with
          | None =>
              let relErr := Errorf "Rel: can't make %s relative to %s"
                              [show dstPath; show dstRoot] [] in
              let w := log (Error "DELETE" "Cannot compute relative path for %s: %v"
                              [APath dstPath; AErr relErr]) w in
              (mkDel (d_fileCount c) (d_deletedCount c) (d_errorCount c + 1), w, None)
          | Some rel =>
              let srcPath := filepath.Join srcRoot rel in
              let '(w, r) := os.Stat srcPath w in
              match r with
              | Err e =>
                  if IsNotExist e then
                    let '(w, rmErr) := os.Remove dstPath w in
                    match rmErr with
                    | Some e' =>
                        let w := log (Error "DELETE" "Failed to delete missing file %s: %v"
                                        [APath dstPath; AErr (PathError "remove" dstPath e')]) w in
                        (mkDel (d_fileCount c) (d_deletedCount c) (d_errorCount c + 1), w, None)
                    | None =>
                        let w := log (Progress "DELETE" "REMOVE" "Deleted missing file: %s"
                                        [APath rel]) w in
                        (mkDel (d_fileCount c) (d_deletedCount c + 1) (d_errorCount c), w, None)
                    end
                  else
                    let w := log (Error "DELETE" "Error accessing source file %s: %v"
                                    [APath srcPath; AErr (PathError "stat" srcPath e)]) w in
                    (mkDel (d_fileCount c) (d_deletedCount c) (d_errorCount c + 1), w, None)
              | Ok _ =>
                  let w := log (Debug "DELETE" "File exists in source, keeping: %s"
                                  [APath rel]) w in
                  (c, w, None)
              end
          end
    end.

Definition DeleteMissing_walk (fuel : nat) (srcRoot dstRoot : path) (w : World)
  : option (delCounters * World * option error) :=
  let w := log (Info "DELETE" "Starting cleanup of missing files from %s" [APath dstRoot]) w in
  match WalkDir (deleteFn srcRoot dstRoot) fuel dstRoot delZero w with
  | None => None
  | Some (c, w, Some e) =>
      let w := log (Error "DELETE" "Directory walk failed: %v" [AErr e]) w in
      Some (c, w, Some e)
  | Some (c, w, None) =>
      let w := log (Info "DELETE" "Cleanup completed: %d files checked, %d deleted, %d errors"
                      [AInt (d_fileCount c); AInt (d_deletedCount c); AInt (d_errorCount c)]) w in
      Some (c, w, None)
  end.

Definition DeleteMissing (fuel : nat) (srcRoot dstRoot : path) (w : World)
  : option (World * option error) :=
  match DeleteMissing_walk fuel srcRoot dstRoot w with
  | Some (_, w, err) => Some (w, err)
  | None => None
  end.

End stream.

(* ================================================================= *)
(** ** validate/dir *)

Module dir.
Import os.

Record config : Type := mkCfg { allowCreate : bool; perm : os.perm }.

Definition configOption : Type := config -> config.

Definition newConfig (opts : list configOption) : config :=
  fold_left (fun cfg opt => opt cfg) opts (mkCfg false mode_0755).

Definition withAllowCreate : configOption :=
  fun cfg => mkCfg true (perm cfg).

Definition validateDir (p : path) (opts : list configOption) (w : World)
  : World * option error :=
  let cfg := newConfig opts in
  let '(w, r) := os.Stat p w in
  match r with
  | Err e =>
      if IsNotExist e && allowCreate cfg then
        let '(w, mkErr) := os.MkdirAll p (perm cfg) w in
        match mkErr with
        | Some e' =>
            (w, Some (errors.NewDirectoryError errors.ErrCannotCreateDirectory p
                        (Some (PathError "mkdir" p e'))))
        | None => (w, None)
        end
      else
        (w, Some (errors.NewDirectoryError errors.ErrDirectoryNotAccessible p
                    (Some (PathError "stat" p e))))
  | Ok info =>
      if negb (fi_isdir info)
      then (w, Some (errors.NewDirectoryError errors.ErrNotADirectory p None))
      else (w, None)
  end.

Definition ValidateSyncDirs (src dst : path) (w : World) : World * option error :=
  let '(w, err) := validateDir src [] w in
  match err with
  | Some e =>
      (w, Some (errors.NewValidationError errors.ErrSourceDirValidation
                  "source directory" (Some e)))
  | None =>
      let '(w, err) := validateDir dst [withAllowCreate] w in
      match err with
      | Some e =>
          (w, Some (errors.NewValidationError errors.ErrTargetDirValidation
                      "target directory" (Some e)))
      | None => (w, None)
      end
  end.

End dir.

(* ================================================================= *)
(** ** synchronizer *)

Module synchronizer.
Import os logger.

Record Synchronizer : Type := mkSynchronizer { cfg : config.Config }.

Definition NewSynchronizer (provider : config.Config) : Synchronizer :=
  mkSynchronizer provider.

(** Phase 1 of [Sync]. *)
Definition phase1 (s : Synchronizer) (hasErrors : bool) (w : World) : World * bool :=
  let w := log (Info "SYNC" "Phase 1: Validating directories" []) w in
  let '(w, err) :=
    dir.ValidateSyncDirs (config.Source (cfg s)) (config.Target (cfg s)) w in
  match err with
  | Some e => (log (Error "SYNC" "Directory validation failed: %v" [AErr e]) w, true)
  | None => (log (Success "SYNC" "Directory validation completed" []) w, hasErrors)
  end.

(** Phase 2 of [Sync]. *)
Definition phase2 (fuel : nat) (s : Synchronizer) (hasErrors : bool) (w : World)
  : option (World * bool) :=
  let w := log (Info "SYNC" "Phase 2: Synchronizing files" []) w in
  match stream.Sync fuel (cfg s) w with
  | None => None
  | Some (w, Some e) =>
      Some (log (Error "SYNC" "File synchronization failed: %v" [AErr e]) w, true)
  | Some (w, None) =>
      Some (log (Success "SYNC" "File synchronization completed" []) w, hasErrors)
  end.

(** Phase 3 of [Sync]. *)
Definition phase3 (fuel : nat) (s : Synchronizer) (hasErrors : bool) (w : World)
  : option (World * bool) :=
  if config.DeleteMissing (cfg s) then
    let w := log (Info "SYNC" "Phase 3: Removing missing files" []) w in
    match stream.DeleteMissing fuel (config.Source (cfg s)) (config.Target (cfg s)) w with
    | None => None
    | Some (w, Some e) =>
        Some (log (Error "SYNC" "Delete missing operation failed: %v" [AErr e]) w, true)
    | Some (w, None) =>
        Some (log (Success "SYNC" "Delete missing operation completed" []) w, hasErrors)
    end
  else
    Some (log (Debug "SYNC" "Phase 3: Skipped (delete missing disabled)" []) w, hasErrors).

Definition Sync (fuel : nat) (s : Synchronizer) (w : World) : option (World * option error) :=
  let hasErrors := false in
  let w := log (Info "SYNC" "Starting synchronization process" []) w in
  let w := log (Debug "SYNC" "Configuration: Source=%s, Target=%s, DeleteMissing=%v"
                  [APath (config.Source (cfg s)); APath (config.Target (cfg s));
                   ABool (config.DeleteMissing (cfg s))]) w in
  let '(w, hasErrors) := phase1 s hasErrors w in
  match phase2 fuel s hasErrors w with
  | None => None
  | Some (w, hasErrors) =>
      match phase3 fuel s hasErrors w with
      | None => None
      | Some (w, hasErrors) =>
          if hasErrors then
            let w := log (Warn "SYNC"
                            "Synchronization completed with errors - check logs for details" []) w in
            Some (w, Some (Errorf "sync completed with errors - check logs for details" [] []))
          else
            let w := log (Success "SYNC" "Synchronization completed successfully" []) w in
            Some (w, None)
      end
  end.

End synchronizer.

(* ================================================================= *)
(** ** Notions the properties are stated with *)

(** The method names [NewUpdateStrategy] knows. *)
Definition supported (method : string) : bool :=
  String.eqb method "modtime" || String.eqb method "sha256".

(** [ValidateSyncDirs] returns nil on the roots of the configuration. *)
Definition validates (c : config.Config) (w : os.World) : bool :=
  match snd (dir.ValidateSyncDirs (config.Source c) (config.Target c) w) with
  | None => true
  | Some _ => false
  end.

(** Two worlds that differ in what was logged at most. *)
Definition same_sys (w w' : os.World) : Prop :=
  os.w_fs w = os.w_fs w' /\ os.w_now w = os.w_now w' /\ os.w_calls w = os.w_calls w'.

(** The lines that report an entry the walk could not get at. *)
Definition is_access_line (l : logger.line) : bool :=
  String.eqb (logger.l_format l) "Error accessing %s: %v".

Definition access_errors (w : os.World) : Z :=
  Z.of_nat (List.length (filter is_access_line (logger.lines (os.w_logger w)))).

(** *** Worlds of the examples *)

Definition rw : os.perm := os.mkPerm true true.
Definition plain_file (data : string) (mtime : os.Time) : os.node :=
  os.File (os.mkFile data mtime rw true None).
Definition plain_dir (es : list (string * os.node)) : os.node :=
  os.Dir (os.mkDir rw (os.mkTime 100 0) 4096) es.
Definition world_of (fs : os.node) : os.World :=
  os.mkWorld fs (os.mkTime 1000 0) [] (logger.mkState logger.INFO []).

(** The source [s] holds [a.txt] and [sub/b.txt]; there is no
    destination yet. *)
Definition two_files : os.node :=
  plain_dir [("s", plain_dir [("a.txt", plain_file "hello" (os.mkTime 10 1));
                              ("sub", plain_dir [("b.txt", plain_file "world" (os.mkTime 20 2))])])].

(** The same, and the destination [d] holds what a copy pass has put
    there. *)
Definition two_files_synced : os.node :=
  plain_dir [("d", plain_dir [("a.txt", plain_file "hello" (os.mkTime 10 1));
                              ("sub", plain_dir [("b.txt", plain_file "world" (os.mkTime 20 2))])]);
             ("s", plain_dir [("a.txt", plain_file "hello" (os.mkTime 10 1));
                              ("sub", plain_dir [("b.txt", plain_file "world" (os.mkTime 20 2))])])].

(** The source path names a regular file. *)
Definition source_is_file : os.node :=
  plain_dir [("s", plain_file "hello" (os.mkTime 10 1))].

(** The destination holds [extra.txt], which the source does not. *)
Definition with_extra : os.node :=
  plain_dir [("d", plain_dir [("extra.txt", plain_file "x" (os.mkTime 30 3))]);
             ("s", plain_dir [("a.txt", plain_file "hello" (os.mkTime 10 1))])].

(** [a.txt] may not be read. *)
Definition one_unreadable : os.node :=
  plain_dir [("s", plain_dir [("a.txt", os.File (os.mkFile "hello" (os.mkTime 10 1)
                                                   (os.mkPerm false true) true None));
                              ("b.txt", plain_file "world" (os.mkTime 20 2))])].

Definition cfg_of (deleteMissing : bool) (method : string) : config.Config :=
  config.mkConfig ["s"] ["d"] deleteMissing "info" method.

(** The world a pass has left ([w] when the fuel did not suffice), and
    the counters and the error it has ended with. *)
Definition world_after {C : Type} (r : option (C * os.World * option error)) (w : os.World)
  : os.World :=
  match r with
  | Some (_, w', _) => w'
  | None => w
  end.

Definition tally_of {C : Type} (r : option (C * os.World * option error))
  : option (C * option error) :=
  match r with
  | Some (c, _, e) => Some (c, e)
  | None => None
  end.

(** The calls into [os] that change a destination. *)
Definition is_transfer (k : os.call) : bool :=
  match k with
  | os.CCreate _ | os.CWrite _ _ | os.CMkdirAll _ | os.CChtimes _ _ => true
  | _ => false
  end.

(** The calls [w'] has made since [w]. *)
Definition calls_since (w w' : os.World) : list os.call :=
  firstn (List.length (os.w_calls w') - List.length (os.w_calls w)) (os.w_calls w').

(** What the walk function of [Sync] keeps: no file is counted as
    skipped, and every call counts either a file and a copy or an error,
    but for the calls that report an entry out of reach, which count an
    error alone. *)
Definition tally_inv (a0 : Z) (c : stream.counters) (w : os.World) : Prop :=
  stream.skippedCount c = 0%Z
  /\ (stream.fileCount c + (access_errors w - a0)
      = stream.copiedCount c + stream.errorCount c)%Z
  /\ (a0 <= access_errors w)%Z.



(** *** The calls of a walk, read off the tree *)

(** A call of the walk function: on an entry, or on a directory that
    could not be read. *)
Inductive visit : Type :=
| VEntry (d : os.DirEntry)
| VReadErr (d : os.DirEntry) (e : syscall.Errno).

(** The calls a walk makes on the tree [n] found at [p] under the name
    [name], in their order: the entry itself, then for a directory what
    is below each of its entries in turn, or the error when it may not be
    read. *)
Fixpoint visits (p : path) (name : string) (n : os.node) : list (path * visit) :=
  match n with
  | os.File _ => [(p, VEntry (os.mkEntry name false))]
  | os.Dir m es =>
      (p, VEntry (os.mkEntry name true))
      :: (if os.p_r (os.d_perm m) then
            (fix below (l : list (string * os.node)) : list (path * visit) :=
               match l with
               | [] => []
               | kv :: l' => visits (p ++ [fst kv]) (fst kv) (snd kv) ++ below l'
               end) es
          else [(p, VReadErr (os.mkEntry name true) syscall.EACCES)])
  end.

(** The visits below the entries [l] of the directory at [p]. *)
Definition visits_below (p : path) (l : list (string * os.node)) : list (path * visit) :=
  flat_map (fun kv => visits (p ++ [fst kv]) (fst kv) (snd kv)) l.

(** One call of the walk function, with the reading of the directory
    that follows it. *)
Definition visit_step {C : Type} (fn : WalkDirFunc (C := C)) (s : C * os.World)
    (x : path * visit) : C * os.World :=
  match x with
  | (p, VEntry d) =>
      let '(c', w', _) := fn p (Some d) None (fst s) (snd s) in
      (c', if os.de_isdir d then os.traced (os.CReadDir p) w' else w')
  | (p, VReadErr d e) =>
      let '(c', w', _) := fn p (Some d) (Some (PathError "open" p e)) (fst s) (snd s) in
      (c', w')
  end.

Definition run_visits {C : Type} (fn : WalkDirFunc (C := C)) (l : list (path * visit))
    (s : C * os.World) : C * os.World :=
  fold_left (visit_step fn) l s.

(** *** A destination that is up to date *)

(** What [calculateSHA256] returns for the bytes of a file. *)
Definition digest (f : os.file) : string :=
  sha256.hex (sha256.Sum256 (sha256.bytes_of_string (os.f_data f))).

(** The file may be opened and is read to its end. *)
Definition readable (f : os.file) : Prop :=
  os.p_r (os.f_perm f) = true /\ os.f_rderr f = None.

(** The node [n] at the destination is what the strategy takes for an
    up-to-date copy of the source file [f]: with modtime, an entry of the
    same size and modification time; with sha256, a regular file with the
    same digest, both files being read. *)
Definition up_to_date (st : stream.UpdateStrategy) (f : os.file) (n : os.node) : Prop :=
  match st with
  | stream.ModTimeStrategy =>
      os.fi_size (os.info_of n) = os.fi_size (os.info_of (os.File f))
      /\ os.Time_Equal (os.f_mtime f) (os.fi_mtime (os.info_of n)) = true
  | stream.SHA256Strategy =>
      readable f /\ exists g, n = os.File g /\ readable g /\ digest g = digest f
  end.

(** The calls [new] change no destination. *)
Definition no_transfer (new : list os.call) : Prop := filter is_transfer new = [].

(** [w'] is [w] after calls that change nothing. *)
Definition quiet (w w' : os.World) : Prop :=
  os.w_fs w' = os.w_fs w /\ os.w_now w' = os.w_now w
  /\ exists new, os.w_calls w' = new ++ os.w_calls w /\ no_transfer new.

(** The node [n] at the destination holds the bytes of the source file
    [f], which was read to its end (and with sha256 the destination can
    be read as well). *)
Definition copied (st : stream.UpdateStrategy) (f : os.file) (n : os.node) : Prop :=
  readable f
  /\ exists g, n = os.File g /\ os.f_data g = os.f_data f
               /\ (st = stream.SHA256Strategy -> readable g).

(** *** Walks that return *)

(** Every node of [fs] stands where [fs0] has a node that is as tall: the
    tree has not grown since [fs0]. *)
Definition shrunk (fs0 fs : os.node) : Prop :=
  forall q n, os.resolve fs q = os.Ok n ->
              exists n0, os.resolve fs0 q = os.Ok n0 /\ (os.height n <= os.height n0)%nat.

(** The configuration and the world of a run the walks are followed on:
    a well-formed tree, and two clean roots of which none lies in the
    other. *)
Definition regular (c : config.Config) (w : os.World) : bool :=
  os.wf (os.w_fs w)
  && filepath.clean_path (config.Source c)
  && filepath.clean_path (config.Target c)
  && filepath.disjoint (config.Source c) (config.Target c).

(** *** The calls of a walk, by kind *)

(** A call on an entry, and a call on an entry that is no directory. *)
Definition is_entry (x : path * visit) : bool :=
  match snd x with VEntry _ => true | VReadErr _ _ => false end.

Definition is_file_visit (x : path * visit) : bool :=
  match snd x with VEntry d => negb (os.de_isdir d) | VReadErr _ _ => false end.

(** *** What a copy pass leaves *)

(** Below [src] the tree of [w] is the tree [fs0]. *)
Definition src_static (src : path) (fs0 : os.node) (w : os.World) : Prop :=
  forall q, filepath.is_prefix src q = true -> os.resolve (os.w_fs w) q = os.resolve fs0 q.

(** The node [n] stands at the destination for the source file [f]: it
    holds the bytes of [f], or it is what the strategy takes for an
    up-to-date copy of it. *)
Definition delivered (st : stream.UpdateStrategy) (f : os.file) (n : os.node) : Prop :=
  copied st f n \/ up_to_date st f n.

(** A file of the same size and modification time as the one of the
    source, with other bytes. *)
Definition same_stamp_other_bytes : os.node :=
  plain_dir [("d", plain_dir [("a.txt", plain_file "hallo" (os.mkTime 10 1))]);
             ("s", plain_dir [("a.txt", plain_file "hello" (os.mkTime 10 1))])].



(** The world the walk of [Sync] starts in, and the one [Sync] leaves
    when the walk has ended in the state [s]. *)
Definition Sync_start (cfg : config.Config) (w : os.World) : os.World :=
  os.log (logger.Info "STREAM" "Using update method: %s"
            [logger.AStr (config.UpdateMethod cfg)])
    (os.log (logger.Info "STREAM" "Starting file synchronization from %s to %s"
               [logger.APath (config.Source cfg); logger.APath (config.Target cfg)]) w).

Definition Sync_end (s : stream.counters * os.World) : stream.counters * os.World :=
  (fst s,
   os.log (logger.Info "STREAM"
             "Synchronization completed: %d files processed, %d copied, %d skipped, %d errors"
             [logger.AInt (stream.fileCount (fst s)); logger.AInt (stream.copiedCount (fst s));
              logger.AInt (stream.skippedCount (fst s));
              logger.AInt (stream.errorCount (fst s))]) (snd s)).


(** *** A destination the copy pass can fill *)

(** Two nodes of the same kind with the same attributes: the same file,
    or two directories with the same permissions and times. *)
Definition same_meta (n0 n' : os.node) : Prop :=
  match n0, n' with
  | os.File f, os.File g => f = g
  | os.Dir m _, os.Dir m' _ => m = m'
  | _, _ => False
  end.

(** The destination root is a directory; every directory at or below it
    may be read and written; and a regular file below it stands where the
    source tree [n] has a regular file. *)
Definition dst_inv (dst : path) (n : os.node) (fs : os.node) : Prop :=
  (exists m es, os.resolve fs dst = os.Ok (os.Dir m es))
  /\ (forall q m es, os.resolve fs (dst ++ q) = os.Ok (os.Dir m es) ->
                     os.p_r (os.d_perm m) = true /\ os.p_w (os.d_perm m) = true)
  /\ (forall q g, os.resolve fs (dst ++ q) = os.Ok (os.File g) ->
                  exists f, os.resolve n q = os.Ok (os.File f)).

(** The file may be opened and is read to its end. *)
Definition readable_b (f : os.file) : bool :=
  os.p_r (os.f_perm f) && match os.f_rderr f with None => true | Some _ => false end.

(** Every directory of the tree may be read. *)
Fixpoint dirs_readable (n : os.node) : bool :=
  match n with
  | os.File _ => true
  | os.Dir m es =>
      os.p_r (os.d_perm m)
      && (fix all (l : list (string * os.node)) : bool :=
            match l with
            | [] => true
            | kv :: l' => dirs_readable (snd kv) && all l'
            end) es
  end.

(** The calls on regular files of [fs0] that can, and that cannot, be
    read. *)
Definition file_at (fs0 : os.node) (x : path * visit) : option os.file :=
  if is_file_visit x then
    match os.resolve fs0 (fst x) with
    | os.Ok (os.File f) => Some f
    | _ => None
    end
  else None.

Definition good_visit (fs0 : os.node) (x : path * visit) : bool :=
  match file_at fs0 x with Some f => readable_b f | None => false end.

Definition bad_visit (fs0 : os.node) (x : path * visit) : bool :=
  match file_at fs0 x with Some f => negb (readable_b f) | None => false end.

(** The number of regular files of a tree. *)
Fixpoint count_files (n : os.node) : nat :=
  match n with
  | os.File _ => 1
  | os.Dir _ es =>
      (fix sum (l : list (string * os.node)) : nat :=
         match l with
         | [] => 0
         | kv :: l' => count_files (snd kv) + sum l'
         end) es
  end.

(** The source [s] holds [a.txt], which may not be read, [b.txt] and
    [sub/c.txt]; the destination [d] is an empty directory. *)
Definition three_files_one_unreadable : os.node :=
  plain_dir [("d", plain_dir []);
             ("s", plain_dir [("a.txt", os.File (os.mkFile "hello" (os.mkTime 10 1)
                                                   (os.mkPerm false true) true None));
                              ("b.txt", plain_file "world" (os.mkTime 20 2));
                              ("sub", plain_dir [("c.txt", plain_file "!" (os.mkTime 30 3))])])].

(* ================================================================= *)
(** * Properties *)

(** ** The library: test vectors and paths *)

Example sha256_abc :
  sha256.hex (sha256.Sum256 (sha256.bytes_of_string "abc"))
  = "ba7816bf8f01cfea414140de5dae2223b00361a396177a9cb410ff61f20015ad".
Proof. vm_compute. reflexivity. Qed.

Example sha256_empty :
  sha256.hex (sha256.Sum256 [])
  = "e3b0c44298fc1c149afbf4c8996fb92427ae41e4649b934ca495991b7852b855".
Proof. vm_compute. reflexivity. Qed.

Example Rel_ex1 : filepath.Rel ["s"] ["s"; "sub"; "b.txt"] = Some ["sub"; "b.txt"].
Proof. reflexivity. Qed.
Example Rel_ex2 : filepath.Rel ["a"; "b"] ["a"; "c"] = Some [".."; "c"].
Proof. reflexivity. Qed.
Example Join_ex : filepath.Join ["d"] [".."; "c"] = ["c"].
Proof. reflexivity. Qed.

(* ================================================================= *)
(** ** What holds at every call of the walk function holds at the end *)

Section WalkInvariant.
Context {C : Type}.
Variable fn : WalkDirFunc (C := C).
Variable Inv : C -> os.World -> Prop.
Variable Qp : path -> Prop.

Hypothesis fn_inv : forall p d e c w c' w' r,
  Qp p -> Inv c w -> fn p d e c w = (c', w', r) -> Inv c' w' /\ r = None.
Hypothesis traced_inv : forall c w p,
  Inv c w -> Inv c (os.traced (os.CReadDir p) w) /\ Inv c (os.traced (os.CLstat p) w).
Hypothesis child_Q : forall p c w l d1,
  Qp p -> Inv c w -> os.readdir (os.w_fs w) p = os.Ok l -> In d1 l ->
  Qp (filepath.Join p [os.de_name d1]).

Lemma walkEntries_inv rec dir :
  (forall p d c w c' w' r, Qp p -> Inv c w -> rec p d c w = Some (c', w', r) ->
                           Inv c' w' /\ r = None) ->
  forall dirs c w c' w' r,
    (forall d1, In d1 dirs -> Qp (filepath.Join dir [os.de_name d1])) ->
    Inv c w ->
    walkEntries rec dir dirs c w = Some (c', w', r) ->
    Inv c' w' /\ r = None.
Proof.
  intros Hrec dirs. induction dirs as [|d1 dirs IH]; simpl; intros c w c' w' r HQ HI H.
  - inversion H; subst. split; auto.
  - destruct (rec (filepath.Join dir [os.de_name d1]) d1 c w) as [[[c1 w1] [e|]]|] eqn:E;
      try discriminate.
    + apply Hrec in E; auto. destruct E as [_ E]. discriminate.
    + apply Hrec in E; auto. destruct E as [HI1 _].
      eapply IH; eauto.
Qed.

Lemma walkDir_inv : forall fuel p d c w c' w' r,
  Qp p -> Inv c w -> walkDir fn fuel p d c w = Some (c', w', r) ->
  Inv c' w' /\ r = None.
Proof.
  induction fuel as [|fuel IH]; simpl; intros p d c w c' w' r HQ HI H; try discriminate.
  destruct (fn p (Some d) None c w) as [[c1 w1] e1] eqn:E1.
  destruct (fn_inv _ _ _ _ _ _ _ _ HQ HI E1) as [HI1 ->].
  revert H. destruct (negb (os.de_isdir d)); intro H.
  - inversion H; subst. split; auto.
  - unfold os.ReadDir in H. revert H.
    destruct (os.readdir (os.w_fs w1) p) as [l|e] eqn:ER; intro H.
    + eapply walkEntries_inv; [ | | | exact H ]; eauto.
      apply traced_inv; exact HI1.
    + destruct (fn p (Some d) (Some (PathError "open" p e)) c1 (os.traced (os.CReadDir p) w1))
        as [[c3 w3] e3] eqn:E3.
      destruct (fn_inv _ _ _ _ _ _ _ _ HQ (proj1 (traced_inv _ _ p HI1)) E3) as [HI3 ->].
      simpl in H. inversion H; subst. split; auto.
Qed.

Lemma WalkDir_inv : forall fuel root c w c' w' r,
  Qp root -> Inv c w -> WalkDir fn fuel root c w = Some (c', w', r) ->
  Inv c' w' /\ r = None.
Proof.
  unfold WalkDir, os.Lstat. intros fuel root c w c' w' r HQ HI H.
  revert H. destruct (os.stat (os.w_fs w) root) as [i|e]; intro H.
  - eapply walkDir_inv; [ | | exact H ]; auto. apply traced_inv; exact HI.
  - inversion H as [E]. eapply fn_inv; [ | | exact E ]; auto. apply traced_inv; exact HI.
Qed.

End WalkInvariant.

(** ** The walk functions of the two passes return no error *)

Ltac break_hyp H :=
  match type of H with
  | context [match ?x with _ => _ end] => destruct x eqn:?
  | context [if ?x then _ else _] => destruct x eqn:?
  end.

Lemma syncFn_nil cfg st p d e c w c' w' r :
  stream.syncFn cfg st p d e c w = (c', w', r) -> r = None.
Proof.
  unfold stream.syncFn. intro H.
  destruct e; [inversion H; reflexivity|].
  destruct (match d with Some d0 => os.de_isdir d0 | None => false end);
    [inversion H; reflexivity|].
  destruct (stream.processFileWithStrategy _ _ _ _ _ _) as [w1 [e1|]];
    inversion H; reflexivity.
Qed.

Lemma deleteFn_nil src dst p d e c w c' w' r :
  stream.deleteFn src dst p d e c w = (c', w', r) -> r = None.
Proof.
  unfold stream.deleteFn. intro H.
  repeat break_hyp H; inversion H; reflexivity.
Qed.

Lemma Sync_walk_result fuel cfg w c w' r :
  stream.Sync_walk fuel cfg w = Some (c, w', r) ->
  (r = None <-> supported (config.UpdateMethod cfg) = true).
Proof.
  unfold stream.Sync_walk, stream.NewUpdateStrategy, supported. intro H.
  destruct (String.eqb (config.UpdateMethod cfg) "modtime") eqn:E1;
    [|destruct (String.eqb (config.UpdateMethod cfg) "sha256") eqn:E2].
  3: { inversion H; subst. simpl. split; discriminate. }
  all: simpl; split; [reflexivity|intros _].
  all: match type of H with
       | context [WalkDir ?f ?fu ?root ?c0 ?w0] =>
           destruct (WalkDir f fu root c0 w0) as [[[c1 w1] r1]|] eqn:EW; [|discriminate];
           apply (WalkDir_inv f (fun _ _ => True) (fun _ => True)) in EW; auto;
           [destruct EW as [_ ->]; inversion H; reflexivity|]
       end.
  all: intros; split; [exact I|eapply syncFn_nil; eauto].
Qed.

Lemma Sync_result fuel cfg w w' r :
  stream.Sync fuel cfg w = Some (w', r) ->
  (r = None <-> supported (config.UpdateMethod cfg) = true).
Proof.
  unfold stream.Sync. intro H.
  destruct (stream.Sync_walk fuel cfg w) as [[[c w1] r1]|] eqn:E; [|discriminate].
  inversion H; subst. eapply Sync_walk_result; eauto.
Qed.

Lemma DeleteMissing_result fuel src dst w w' r :
  stream.DeleteMissing fuel src dst w = Some (w', r) -> r = None.
Proof.
  unfold stream.DeleteMissing, stream.DeleteMissing_walk. intro H.
  match type of H with
  | context [WalkDir ?f ?fu ?root ?c0 ?w0] =>
      destruct (WalkDir f fu root c0 w0) as [[[c1 w1] r1]|] eqn:EW; [|discriminate];
      apply (WalkDir_inv f (fun _ _ => True) (fun _ => True)) in EW; auto;
      [destruct EW as [_ ->]; inversion H; reflexivity|]
  end.
  intros; split; [exact I|eapply deleteFn_nil; eauto].
Qed.

(** ** The run: Synchronizer.Sync *)

Ltac break_goal :=
  match goal with
  | |- context [match ?x with _ => _ end] => destruct x eqn:?
  | |- context [if ?x then _ else _] => destruct x eqn:?
  end.

Lemma same_sys_refl w : same_sys w w.
Proof. repeat split. Qed.

Lemma same_sys_log f w : same_sys (os.log f w) w.
Proof. repeat split. Qed.

Lemma same_sys_trans w1 w2 w3 : same_sys w1 w2 -> same_sys w2 w3 -> same_sys w1 w3.
Proof. unfold same_sys. intuition congruence. Qed.

Lemma same_sys_sym w1 w2 : same_sys w1 w2 -> same_sys w2 w1.
Proof. unfold same_sys. intuition congruence. Qed.

Ltac break_inner :=
  match goal with
  | |- context [match ?x with _ => _ end] =>
      lazymatch x with
      | context [match _ with _ => _ end] => fail
      | context [if _ then _ else _] => fail
      | _ => destruct x eqn:?
      end
  | |- context [if ?x then _ else _] =>
      lazymatch x with
      | context [match _ with _ => _ end] => fail
      | context [if _ then _ else _] => fail
      | _ => destruct x eqn:?
      end
  end.

(** Validation does not read the logger. *)
Lemma validateDir_same_sys p opts w1 w2 :
  same_sys w1 w2 ->
  snd (dir.validateDir p opts w1) = snd (dir.validateDir p opts w2)
  /\ same_sys (fst (dir.validateDir p opts w1)) (fst (dir.validateDir p opts w2)).
Proof.
  destruct w1 as [fs1 n1 c1 l1], w2 as [fs2 n2 c2 l2].
  unfold same_sys; simpl. intros (-> & -> & ->).
  unfold dir.validateDir, os.Stat, os.MkdirAll, same_sys; simpl.
  repeat (break_inner; simpl); repeat split; congruence.
Qed.

Lemma ValidateSyncDirs_same_sys src dst w1 w2 :
  same_sys w1 w2 ->
  snd (dir.ValidateSyncDirs src dst w1) = snd (dir.ValidateSyncDirs src dst w2)
  /\ same_sys (fst (dir.ValidateSyncDirs src dst w1)) (fst (dir.ValidateSyncDirs src dst w2)).
Proof.
  intro H. unfold dir.ValidateSyncDirs.
  destruct (validateDir_same_sys src [] _ _ H) as [He Hw].
  destruct (dir.validateDir src [] w1) as [wa [ea|]], (dir.validateDir src [] w2) as [wb [eb|]];
    simpl in *; try discriminate; try (split; [congruence|assumption]).
  destruct (validateDir_same_sys dst [dir.withAllowCreate] _ _ Hw) as [He' Hw'].
  destruct (dir.validateDir dst [dir.withAllowCreate] wa) as [wa' [ea'|]],
           (dir.validateDir dst [dir.withAllowCreate] wb) as [wb' [eb'|]];
    simpl in *; try discriminate; try (split; [congruence|assumption]).
Qed.

Lemma validates_same_sys c w1 w2 : same_sys w1 w2 -> validates c w1 = validates c w2.
Proof.
  intro H. unfold validates.
  destruct (ValidateSyncDirs_same_sys (config.Source c) (config.Target c) _ _ H) as [-> _].
  reflexivity.
Qed.

(** The three phases of a run, one after the other: each phase starts
    from the file system the phase before it has left, whatever that
    phase returned, and the run fails exactly when one of them did. *)
Lemma Sync_phases fuel s w w' r :
  synchronizer.Sync fuel s w = Some (w', r) ->
  exists w1 e1 w1' w2 e2 w2' w3 e3,
    dir.ValidateSyncDirs (config.Source (synchronizer.cfg s))
      (config.Target (synchronizer.cfg s)) w = (w1, e1)
    /\ same_sys w1' w1
    /\ stream.Sync fuel (synchronizer.cfg s) w1' = Some (w2, e2)
    /\ same_sys w2' w2
    /\ (if config.DeleteMissing (synchronizer.cfg s)
        then stream.DeleteMissing fuel (config.Source (synchronizer.cfg s))
               (config.Target (synchronizer.cfg s)) w2' = Some (w3, e3)
        else w3 = w2' /\ e3 = None)
    /\ same_sys w' w3
    /\ (r = None <-> e1 = None /\ e2 = None /\ e3 = None).
Proof.
  unfold synchronizer.Sync, synchronizer.phase1, synchronizer.phase2, synchronizer.phase3.
  set (c := synchronizer.cfg s). intros H.
  match type of H with
  | context [dir.ValidateSyncDirs ?a ?b ?w0] =>
      pose proof (ValidateSyncDirs_same_sys a b w0 w) as Hv;
      destruct (dir.ValidateSyncDirs a b w0) as [wa ea] eqn:EV
  end.
  destruct (dir.ValidateSyncDirs (config.Source c) (config.Target c) w) as [w1 e1] eqn:EV1.
  simpl in Hv. destruct Hv as [Hea Hwa]; [repeat split|]. subst ea.
  exists w1, e1.
  destruct e1 as [e1|];
  match type of H with
  | context [stream.Sync fuel c ?w0] =>
      exists w0; destruct (stream.Sync fuel c w0) as [[w2 e2]|] eqn:ES; [|discriminate]
  end;
  exists w2, e2;
  (destruct (config.DeleteMissing c);
   [ destruct e2 as [e2|];
     match type of H with
     | context [stream.DeleteMissing fuel ?a ?b ?w0] =>
         exists w0; destruct (stream.DeleteMissing fuel a b w0) as [[w3 e3]|] eqn:ED;
         [|discriminate]
     end;
     exists w3, e3; destruct e3
   | destruct e2 as [e2|];
     match type of H with
     | context [Some (?w0, _)] => exists w0, w0, None
     end ]);
  simpl in H; inversion H; subst;
  repeat split; try discriminate; try tauto; try reflexivity;
  try (intros (? & ? & ?); discriminate);
  try (eapply same_sys_trans; [apply same_sys_log|]; try apply same_sys_log; try assumption;
       try apply same_sys_refl).
Qed.

(** ** The counters of the copy pass *)

Lemma access_errors_emit lvl l w :
  access_errors (os.log (logger.emit lvl l) w)
  = (access_errors w
     + (if Nat.leb (logger.rank lvl) (logger.rank (logger.currentLevel (os.w_logger w)))
           && is_access_line l then 1 else 0))%Z.
Proof.
  unfold access_errors, os.log, logger.emit.
  cbn [os.w_logger].
  destruct (Nat.leb _ _); cbn [logger.lines andb filter]; [|lia].
  destruct (is_access_line l); cbn [List.length]; lia.
Qed.

Lemma access_errors_emit_other lvl lab comp fmt args w :
  String.eqb fmt "Error accessing %s: %v" = false ->
  access_errors (os.log (logger.emit lvl (logger.mkLine lab comp fmt args)) w) = access_errors w.
Proof.
  intro H. rewrite access_errors_emit. unfold is_access_line; cbn [logger.l_format].
  rewrite H, andb_false_r. lia.
Qed.

Lemma access_errors_Error_accessing comp args w :
  access_errors (os.log (logger.Error comp "Error accessing %s: %v" args) w)
  = (access_errors w + 1)%Z.
Proof.
  unfold logger.Error. rewrite access_errors_emit. reflexivity.
Qed.

Lemma access_errors_traced k w : access_errors (os.traced k w) = access_errors w.
Proof. reflexivity. Qed.

Lemma access_errors_with_fs fs w : access_errors (os.with_fs fs w) = access_errors w.
Proof. reflexivity. Qed.

Lemma access_errors_NeedsUpdate st src dst w :
  access_errors (fst (stream.NeedsUpdate st src dst w)) = access_errors w.
Proof.
  destruct st; simpl;
    unfold stream.ModTime_NeedsUpdate, stream.SHA256_NeedsUpdate, stream.calculateSHA256,
      os.Stat, os.Open, os.ReadAll, os.Close;
    repeat (break_inner; simpl); reflexivity.
Qed.

Lemma access_errors_copyFile src dst w :
  access_errors (fst (stream.copyFile src dst w)) = access_errors w.
Proof.
  unfold stream.copyFile, stream.copyFile_contents, stream.deferred_close,
    os.MkdirAll, os.Open, os.Create, os.Copy, os.Fstat, os.Chtimes, os.Close, os.Now.
  repeat (break_inner; simpl);
    repeat (first [ rewrite access_errors_traced | rewrite access_errors_with_fs
                  | unfold logger.Error, logger.Warn, logger.Debug, logger.Success;
                    rewrite access_errors_emit_other by reflexivity ]);
    reflexivity.
Qed.

Lemma access_errors_processFile srcRoot dstRoot p d st w :
  access_errors (fst (stream.processFileWithStrategy srcRoot dstRoot p d st w))
  = access_errors w.
Proof.
  unfold stream.processFileWithStrategy.
  destruct (filepath.Rel srcRoot p) as [rel|].
  2: { cbn [fst]. unfold logger.Error. apply access_errors_emit_other. reflexivity. }
  unfold os.Stat.
  destruct (os.stat _ _) as [i|e].
  - pose proof (access_errors_NeedsUpdate st p (filepath.Join dstRoot rel)
                  (os.traced (os.CStat (filepath.Join dstRoot rel))
                     (os.log (logger.Debug "STREAM" "Processing: %s -> %s"
                                [logger.APath p; logger.APath (filepath.Join dstRoot rel)]) w))) as HN.
    destruct (stream.NeedsUpdate _ _ _ _) as [w1 [b [e|]]]; cbn [fst] in *.
    + unfold logger.Error. rewrite access_errors_emit_other by reflexivity.
      rewrite HN. rewrite access_errors_traced.
      unfold logger.Debug. apply access_errors_emit_other. reflexivity.
    + destruct b.
      * rewrite access_errors_copyFile. unfold logger.Progress.
        rewrite access_errors_emit_other by reflexivity.
        rewrite HN. rewrite access_errors_traced.
        unfold logger.Debug. apply access_errors_emit_other. reflexivity.
      * cbn [fst]. unfold logger.Debug at 1.
        rewrite access_errors_emit_other by reflexivity.
        rewrite HN. rewrite access_errors_traced.
        unfold logger.Debug. apply access_errors_emit_other. reflexivity.
  - destruct (os.IsNotExist e).
    + rewrite access_errors_copyFile. unfold logger.Progress.
      rewrite access_errors_emit_other by reflexivity.
      rewrite access_errors_traced.
      unfold logger.Debug. apply access_errors_emit_other. reflexivity.
    + cbn [fst]. unfold logger.Error.
      rewrite access_errors_emit_other by reflexivity.
      rewrite access_errors_traced.
      unfold logger.Debug. apply access_errors_emit_other. reflexivity.
Qed.

Lemma syncFn_tally cfg st a0 p d e c w c' w' r :
  tally_inv a0 c w ->
  stream.syncFn cfg st p d e c w = (c', w', r) ->
  tally_inv a0 c' w'.
Proof.
  unfold stream.syncFn, tally_inv. intros (Hs & Hc & Ha) H.
  destruct e.
  - inversion H; subst; cbn [stream.skippedCount stream.fileCount stream.copiedCount
                               stream.errorCount].
    rewrite access_errors_Error_accessing. repeat split; lia.
  - destruct (match d with Some d0 => os.de_isdir d0 | None => false end).
    + inversion H; subst. unfold logger.Debug.
      rewrite access_errors_emit_other by reflexivity. auto.
    + match type of H with
      | context [stream.processFileWithStrategy ?a ?b ?p0 ?d0 ?s0 ?w0] =>
          pose proof (access_errors_processFile a b p0 d0 s0 w0) as HP;
          destruct (stream.processFileWithStrategy a b p0 d0 s0 w0) as [w1 [e1|]]
      end; cbn [fst] in HP; unfold logger.Debug in HP;
        rewrite access_errors_emit_other in HP by reflexivity;
        inversion H; subst;
        cbn [stream.skippedCount stream.fileCount stream.copiedCount stream.errorCount].
      * unfold logger.Error. rewrite access_errors_emit_other by reflexivity.
        rewrite HP. repeat split; lia.
      * rewrite HP. repeat split; lia.
Qed.

Lemma Sync_walk_tally fuel cfg w c w' e :
  stream.Sync_walk fuel cfg w = Some (c, w', e) ->
  tally_inv (access_errors w) c w'.
Proof.
  unfold stream.Sync_walk. intro H.
  destruct (stream.NewUpdateStrategy (config.UpdateMethod cfg)) as [st|err].
  - match type of H with
    | context [WalkDir ?f ?fu ?root ?c0 ?w0] =>
        destruct (WalkDir f fu root c0 w0) as [[[c1 w1] r1]|] eqn:EW; [|discriminate];
        apply (WalkDir_inv f (tally_inv (access_errors w)) (fun _ => True)) in EW; auto
    end.
    + destruct EW as [(Hs & Hc & Ha) ->]. inversion H; subst.
      unfold tally_inv, logger.Info. rewrite access_errors_emit_other by reflexivity. auto.
    + intros. split; [eapply syncFn_tally; eauto | eapply syncFn_nil; eauto].
    + unfold tally_inv, stream.zero, logger.Info; simpl.
      rewrite !access_errors_emit_other by reflexivity. repeat split; lia.
  - inversion H; subst.
    unfold tally_inv, stream.zero, logger.Info, logger.Error; simpl.
    rewrite !access_errors_emit_other by reflexivity. repeat split; lia.
Qed.

(** C3: what the code does on the tree of two files. The first pass
    copies both; the second pass, on what the first has left, finds both
    up to date, makes no call that changes the destination, and logs 2
    copied and 0 skipped again, with either method. *)
Theorem unchanged_tree_tally :
  forall method, method = "modtime" \/ method = "sha256" ->
    let pass1 := stream.Sync_walk 3 (cfg_of false method) (world_of two_files) in
    let w1 := world_after pass1 (world_of two_files) in
    let pass2 := stream.Sync_walk 3 (cfg_of false method) w1 in
    let w2 := world_after pass2 w1 in
    tally_of pass1 = Some (stream.mkCounters 2 2 0 0, None)
    /\ tally_of pass2 = Some (stream.mkCounters 2 2 0 0, None)
    /\ os.w_fs w2 = os.w_fs w1
    /\ filter is_transfer (calls_since w1 w2) = []
    /\ hd_error (logger.lines (os.w_logger w2))
       = Some (logger.mkLine "INFO" "STREAM"
                 "Synchronization completed: %d files processed, %d copied, %d skipped, %d errors"
                 [logger.AInt 2; logger.AInt 2; logger.AInt 0; logger.AInt 0]).
Proof.
  intros method [-> | ->]; vm_compute; repeat split.
Qed.

Lemma unchanged_tree_tally_witness :
  tally_of (stream.Sync_walk 3 (cfg_of false "sha256")
              (world_after (stream.Sync_walk 3 (cfg_of false "sha256") (world_of two_files))
                 (world_of two_files)))
  = Some (stream.mkCounters 2 2 0 0, None).
Proof.
  exact (proj1 (proj2 (unchanged_tree_tally "sha256" (or_intror eq_refl)))).
Defined.

(* ================================================================= *)
(** ** The update strategies *)

(** C6. For two entries that [os.Stat] can examine, the modtime strategy
    answers without error, and it answers that an update is needed
    exactly when the sizes differ or the modification times are not the
    same instant, to the nanosecond; it answers that none is needed
    exactly when the size, the second and the nanosecond all agree. *)
Theorem ModTime_NeedsUpdate_iff src dst w si di :
  os.stat (os.w_fs w) src = os.Ok si ->
  os.stat (os.w_fs w) dst = os.Ok di ->
  exists b,
    snd (stream.NeedsUpdate stream.ModTimeStrategy src dst w) = (b, None)
    /\ (b = true <->
        os.fi_size si <> os.fi_size di
        \/ os.sec (os.fi_mtime si) <> os.sec (os.fi_mtime di)
        \/ os.nsec (os.fi_mtime si) <> os.nsec (os.fi_mtime di))
    /\ (b = false <->
        os.fi_size si = os.fi_size di
        /\ os.sec (os.fi_mtime si) = os.sec (os.fi_mtime di)
        /\ os.nsec (os.fi_mtime si) = os.nsec (os.fi_mtime di))
    /\ os.w_fs (fst (stream.NeedsUpdate stream.ModTimeStrategy src dst w)) = os.w_fs w.
Proof.
  intros Hs Hd. cbn [stream.NeedsUpdate].
  unfold stream.ModTime_NeedsUpdate, os.Stat. cbn [os.traced os.w_fs].
  rewrite Hs, Hd. unfold os.Time_Equal.
  destruct (Z.eqb_spec (os.fi_size si) (os.fi_size di)) as [Es|Es]; cbn [negb].
  - destruct (Z.eqb_spec (os.sec (os.fi_mtime si)) (os.sec (os.fi_mtime di))) as [E1|E1];
      [destruct (Z.eqb_spec (os.nsec (os.fi_mtime si)) (os.nsec (os.fi_mtime di))) as [E2|E2]|];
      cbn [andb negb snd fst os.w_fs];
      [exists false | exists true | exists true];
      (split; [reflexivity|]); (split; [|split; [|reflexivity]]);
      split; intro H; try discriminate; try reflexivity; try tauto;
      try (destruct H as [H|[H|H]]; contradiction).
  - exists true. cbn [snd fst os.w_fs].
    split; [reflexivity|]. split; [|split; [|reflexivity]];
      split; intro H; try discriminate; try reflexivity; tauto.
Qed.

(** A nanosecond is enough: the times are not cut to seconds. *)
Lemma ModTime_NeedsUpdate_iff_witness :
  let fs := plain_dir [("a", plain_file "hello" (os.mkTime 10 1));
                       ("b", plain_file "hello" (os.mkTime 10 2))] in
  os.stat fs ["a"] = os.Ok (os.mkInfo false 5 (os.mkTime 10 1))
  /\ os.stat fs ["b"] = os.Ok (os.mkInfo false 5 (os.mkTime 10 2))
  /\ snd (stream.NeedsUpdate stream.ModTimeStrategy ["a"] ["b"] (world_of fs)) = (true, None).
Proof.
  intro fs.
  assert (Ha : os.stat (os.w_fs (world_of fs)) ["a"] = os.Ok (os.mkInfo false 5 (os.mkTime 10 1)))
    by reflexivity.
  assert (Hb : os.stat (os.w_fs (world_of fs)) ["b"] = os.Ok (os.mkInfo false 5 (os.mkTime 10 2)))
    by reflexivity.
  destruct (ModTime_NeedsUpdate_iff ["a"] ["b"] (world_of fs) _ _ Ha Hb)
    as (b & Hb1 & Hb2 & _).
  split; [exact Ha|]. split; [exact Hb|].
  rewrite Hb1. f_equal. apply Hb2. right. right. discriminate.
Defined.

(* ================================================================= *)
(** ** Paths *)

Lemma is_prefix_refl a : filepath.is_prefix a a = true.
Proof. induction a; simpl; [reflexivity|]. rewrite String.eqb_refl. assumption. Qed.

Lemma is_prefix_app a b : filepath.is_prefix a (a ++ b) = true.
Proof. induction a; simpl; [reflexivity|]. rewrite String.eqb_refl. assumption. Qed.

Lemma is_prefix_spec a b : filepath.is_prefix a b = true <-> exists c, b = a ++ c.
Proof.
  revert b. induction a as [|x a IH]; intros b; simpl.
  - split; [intros _; exists b; reflexivity|reflexivity].
  - destruct b as [|y b].
    + split; [discriminate|intros [c H]; discriminate].
    + rewrite andb_true_iff, String.eqb_eq, IH. split.
      * intros [-> [c ->]]. exists c. reflexivity.
      * intros [c H]. inversion H; subst. split; [reflexivity|exists c; reflexivity].
Qed.

Lemma is_prefix_trans a b c :
  filepath.is_prefix a b = true -> filepath.is_prefix b c = true ->
  filepath.is_prefix a c = true.
Proof.
  rewrite !is_prefix_spec. intros [x ->] [y ->]. exists (x ++ y). symmetry. apply app_assoc.
Qed.

(** Two prefixes of one path: one is a prefix of the other. *)
Lemma is_prefix_comparable a b c :
  filepath.is_prefix a c = true -> filepath.is_prefix b c = true ->
  filepath.is_prefix a b = true \/ filepath.is_prefix b a = true.
Proof.
  revert b c. induction a as [|x a IH]; intros b c; simpl; [auto|].
  destruct c as [|z c]; [discriminate|].
  destruct b as [|y b]; simpl; [auto|].
  intros Ha Hb. apply andb_true_iff in Ha, Hb.
  destruct Ha as [Exz Ha], Hb as [Eyz Hb]. apply String.eqb_eq in Exz, Eyz. subst x y.
  destruct (IH b c Ha Hb) as [H|H]; [left|right]; rewrite String.eqb_refl; exact H.
Qed.

Lemma is_prefix_removelast a : filepath.is_prefix (removelast a) a = true.
Proof.
  induction a as [|x a IH]; [reflexivity|].
  destruct a as [|y a]; [reflexivity|].
  change (removelast (x :: y :: a)) with (x :: removelast (y :: a)).
  simpl filepath.is_prefix. rewrite String.eqb_refl. exact IH.
Qed.

Lemma disjoint_sym a b : filepath.disjoint a b = filepath.disjoint b a.
Proof. unfold filepath.disjoint. apply andb_comm. Qed.

Lemma disjoint_spec a b :
  filepath.disjoint a b = true <->
  filepath.is_prefix a b = false /\ filepath.is_prefix b a = false.
Proof.
  unfold filepath.disjoint. rewrite andb_true_iff, !negb_true_iff. reflexivity.
Qed.

(** What lies below one of two disjoint paths is disjoint from what lies
    below the other. *)
Lemma disjoint_below a b x y :
  filepath.disjoint a b = true -> filepath.disjoint (a ++ x) (b ++ y) = true.
Proof.
  rewrite !disjoint_spec. intros [H1 H2]. split.
  - destruct (filepath.is_prefix (a ++ x) (b ++ y)) eqn:E; [|reflexivity].
    destruct (is_prefix_comparable a b (b ++ y)) as [H|H];
      [eapply is_prefix_trans; [apply is_prefix_app|exact E]|apply is_prefix_app| |];
      congruence.
  - destruct (filepath.is_prefix (b ++ y) (a ++ x)) eqn:E; [|reflexivity].
    destruct (is_prefix_comparable a b (a ++ x)) as [H|H];
      [apply is_prefix_app|eapply is_prefix_trans; [apply is_prefix_app|exact E]| |];
      congruence.
Qed.

Lemma is_prefix_app_same a x y :
  filepath.is_prefix (a ++ x) (a ++ y) = filepath.is_prefix x y.
Proof. induction a; simpl; [reflexivity|]. rewrite String.eqb_refl. assumption. Qed.

Lemma disjoint_app_same a x y :
  filepath.disjoint (a ++ x) (a ++ y) = filepath.disjoint x y.
Proof. unfold filepath.disjoint. rewrite !is_prefix_app_same. reflexivity. Qed.

(** *** Clean, Join, Rel on clean paths *)

Lemma clean_onto_clean acc p :
  filepath.clean_path p = true -> filepath.clean_onto acc p = rev p ++ acc.
Proof.
  revert acc. induction p as [|c p IH]; intros acc; simpl; [reflexivity|].
  unfold filepath.proper. rewrite !andb_true_iff, !negb_true_iff.
  intros [[[H1 H2] H3] Hp]. rewrite H1, H2, H3. simpl.
  rewrite IH by exact Hp. rewrite <- app_assoc. reflexivity.
Qed.

Lemma Clean_clean p : filepath.clean_path p = true -> filepath.Clean p = p.
Proof.
  intro H. unfold filepath.Clean. rewrite clean_onto_clean by exact H.
  rewrite app_nil_r. apply rev_involutive.
Qed.

Lemma clean_path_app a b :
  filepath.clean_path (a ++ b) = filepath.clean_path a && filepath.clean_path b.
Proof. apply forallb_app. Qed.

Lemma Join_clean a b :
  filepath.clean_path a = true -> filepath.clean_path b = true ->
  filepath.Join a b = a ++ b.
Proof.
  intros Ha Hb. unfold filepath.Join. apply Clean_clean.
  rewrite clean_path_app, Ha, Hb. reflexivity.
Qed.

Lemma strip_common_app a b : filepath.strip_common a (a ++ b) = ([], b).
Proof.
  induction a as [|x a IH]; simpl; [destruct b; reflexivity|].
  rewrite String.eqb_refl. exact IH.
Qed.

(** The relative path of what lies below a root, and back. *)
Lemma Rel_below root rel :
  filepath.clean_path root = true -> filepath.clean_path rel = true ->
  filepath.Rel root (root ++ rel) = Some rel.
Proof.
  intros Hr Hl. unfold filepath.Rel.
  rewrite (Clean_clean root Hr).
  rewrite (Clean_clean (root ++ rel)) by (rewrite clean_path_app, Hr, Hl; reflexivity).
  rewrite strip_common_app. reflexivity.
Qed.

Lemma Dir_clean p : filepath.clean_path p = true -> filepath.Dir p = removelast p.
Proof. intro H. unfold filepath.Dir. rewrite Clean_clean by exact H. reflexivity. Qed.

(* ================================================================= *)
(** ** The file system: entries, resolve, put *)

Lemma lookup_remove_same c es : os.lookup_entry c (os.remove_entry c es) = None.
Proof.
  induction es as [|[k v] es IH]; simpl; [reflexivity|].
  destruct (String.eqb k c) eqn:E; [exact IH|]. simpl. rewrite E. exact IH.
Qed.

Lemma lookup_remove_other c c' es :
  c' <> c -> os.lookup_entry c' (os.remove_entry c es) = os.lookup_entry c' es.
Proof.
  intro H. induction es as [|[k v] es IH]; simpl; [reflexivity|].
  destruct (String.eqb k c) eqn:E.
  - apply String.eqb_eq in E. subst k.
    destruct (String.eqb c c') eqn:E'; [apply String.eqb_eq in E'; congruence|exact IH].
  - simpl. destruct (String.eqb k c'); [reflexivity|exact IH].
Qed.

Lemma lookup_replace_same c n es v :
  os.lookup_entry c es = Some v -> os.lookup_entry c (os.replace_entry c n es) = Some n.
Proof.
  induction es as [|[k v0] es IH]; simpl; [discriminate|].
  destruct (String.eqb k c) eqn:E; simpl; rewrite E; [reflexivity|exact IH].
Qed.

Lemma lookup_replace_other c c' n es :
  c' <> c -> os.lookup_entry c' (os.replace_entry c n es) = os.lookup_entry c' es.
Proof.
  intro H. induction es as [|[k v] es IH]; simpl; [reflexivity|].
  destruct (String.eqb k c) eqn:E; simpl.
  - apply String.eqb_eq in E. subst k.
    destruct (String.eqb c c') eqn:E'; [apply String.eqb_eq in E'; congruence|reflexivity].
  - destruct (String.eqb k c'); [reflexivity|exact IH].
Qed.

Lemma lookup_insert_same c n es :
  os.lookup_entry c es = None -> os.lookup_entry c (os.insert_entry c n es) = Some n.
Proof.
  induction es as [|[k v] es IH]; simpl.
  - rewrite String.eqb_refl. reflexivity.
  - destruct (String.eqb k c) eqn:E; [discriminate|]. intro H.
    destruct (String.ltb c k); simpl.
    + rewrite String.eqb_refl. reflexivity.
    + rewrite E. exact (IH H).
Qed.

Lemma lookup_insert_other c c' n es :
  c' <> c -> os.lookup_entry c' (os.insert_entry c n es) = os.lookup_entry c' es.
Proof.
  intro H. induction es as [|[k v] es IH]; simpl.
  - destruct (String.eqb c c') eqn:E; [apply String.eqb_eq in E; congruence|reflexivity].
  - destruct (String.ltb c k); simpl.
    + destruct (String.eqb c c') eqn:E; [apply String.eqb_eq in E; congruence|reflexivity].
    + destruct (String.eqb k c'); [reflexivity|exact IH].
Qed.

(** Setting an entry and looking it up. *)
Lemma lookup_set_same c o es : os.lookup_entry c (os.set_entry c o es) = o.
Proof.
  unfold os.set_entry. destruct o as [n|]; [|apply lookup_remove_same].
  destruct (os.lookup_entry c es) eqn:E;
    [eapply lookup_replace_same; eauto|apply lookup_insert_same; exact E].
Qed.

Lemma lookup_set_other c c' o es :
  c' <> c -> os.lookup_entry c' (os.set_entry c o es) = os.lookup_entry c' es.
Proof.
  intro H. unfold os.set_entry. destruct o as [n|]; [|apply lookup_remove_other; exact H].
  destruct (os.lookup_entry c es);
    [apply lookup_replace_other|apply lookup_insert_other]; exact H.
Qed.

Lemma lookup_map_same c f es :
  os.lookup_entry c (os.map_entry c f es) = option_map f (os.lookup_entry c es).
Proof.
  induction es as [|[k v] es IH]; simpl; [reflexivity|].
  destruct (String.eqb k c) eqn:E; simpl; rewrite E; [reflexivity|exact IH].
Qed.

Lemma lookup_map_other c c' f es :
  c' <> c -> os.lookup_entry c' (os.map_entry c f es) = os.lookup_entry c' es.
Proof.
  intro H. induction es as [|[k v] es IH]; simpl; [reflexivity|].
  destruct (String.eqb k c) eqn:E; simpl.
  - apply String.eqb_eq in E. subst k.
    destruct (String.eqb c c') eqn:E'; [apply String.eqb_eq in E'; congruence|reflexivity].
  - destruct (String.eqb k c'); [reflexivity|exact IH].
Qed.

Lemma put_cons c p' o m es :
  p' <> [] -> os.put (c :: p') o (os.Dir m es) = os.Dir m (os.map_entry c (os.put p' o) es).
Proof. destruct p'; [congruence|reflexivity]. Qed.

Lemma put_single c o m es : os.put [c] o (os.Dir m es) = os.Dir m (os.set_entry c o es).
Proof. reflexivity. Qed.

Lemma put_File p o f : os.put p o (os.File f) = os.File f.
Proof. destruct p; reflexivity. Qed.

Lemma resolve_app n a b :
  os.resolve n (a ++ b)
  = match os.resolve n a with os.Ok m => os.resolve m b | os.Err e => os.Err e end.
Proof.
  revert n. induction a as [|c a IH]; intros n; simpl; [reflexivity|].
  destruct n as [f|m es]; [reflexivity|].
  destruct (os.p_r (os.d_perm m)); [|reflexivity].
  destruct (os.lookup_entry c es); [apply IH|reflexivity].
Qed.

(** A path that resolves has a parent that is a searchable directory
    holding its last component. *)
Lemma resolve_last n d c x :
  os.resolve n (d ++ [c]) = os.Ok x ->
  exists m es, os.resolve n d = os.Ok (os.Dir m es)
               /\ os.p_r (os.d_perm m) = true /\ os.lookup_entry c es = Some x.
Proof.
  rewrite resolve_app. destruct (os.resolve n d) as [[f|m es]|e]; simpl; try discriminate.
  destruct (os.p_r (os.d_perm m)) eqn:Ep; [|discriminate].
  destruct (os.lookup_entry c es) eqn:E; [|discriminate].
  intro H. inversion H; subst. exists m, es. repeat split; assumption.
Qed.

(** [put] leaves alone what is neither above nor below its place. *)
Lemma put_frame p o : forall n r,
  filepath.disjoint r p = true -> os.resolve (os.put p o n) r = os.resolve n r.
Proof.
  induction p as [|c p IH]; intros n r H.
  - destruct n; reflexivity.
  - destruct n as [f|m es]; [reflexivity|].
    apply disjoint_spec in H. destruct H as [H1 H2].
    destruct r as [|c' r]; [discriminate|].
    cbn [filepath.is_prefix] in H1, H2.
    destruct (String.eqb_spec c' c) as [->|Hne].
    + rewrite ?String.eqb_refl in H1. rewrite ?String.eqb_refl in H2. cbn [andb] in H1, H2.
      destruct p as [|c2 p]; [destruct r; discriminate|].
      rewrite put_cons by discriminate. cbn [os.resolve].
      destruct (os.p_r (os.d_perm m)); [|reflexivity].
      rewrite lookup_map_same.
      destruct (os.lookup_entry c es); cbn [option_map]; [|reflexivity].
      apply IH. apply disjoint_spec. split; assumption.
    + destruct p as [|c2 p].
      * rewrite put_single. cbn [os.resolve].
        rewrite lookup_set_other by exact Hne. reflexivity.
      * rewrite put_cons by discriminate. cbn [os.resolve].
        rewrite lookup_map_other by exact Hne. reflexivity.
Qed.

(** What [put] has set is found there, when the parent is a searchable
    directory. *)
Lemma put_same d c o : forall n m es,
  os.resolve n d = os.Ok (os.Dir m es) -> os.p_r (os.d_perm m) = true ->
  os.resolve (os.put (d ++ [c]) o n) (d ++ [c])
  = match o with Some x => os.Ok x | None => os.Err syscall.ENOENT end.
Proof.
  induction d as [|c0 d IH]; intros n m es Hr Hp; simpl in Hr.
  - inversion Hr; subst. simpl. rewrite Hp, lookup_set_same. destruct o; reflexivity.
  - destruct n as [f|m0 es0]; [discriminate|].
    destruct (os.p_r (os.d_perm m0)) eqn:Hp0; [|discriminate].
    destruct (os.lookup_entry c0 es0) as [ch|] eqn:El; [|discriminate].
    change ((c0 :: d) ++ [c]) with (c0 :: (d ++ [c])).
    rewrite put_cons by (destruct d; discriminate).
    simpl. rewrite Hp0, lookup_map_same, El. simpl.
    eapply IH; eauto.
Qed.

(* ================================================================= *)
(** ** The file system: the operations *)

Lemma removelast_snoc (d : path) c : removelast (d ++ [c]) = d.
Proof. apply removelast_last. Qed.

Lemma path_snoc (p : path) : p <> [] -> exists d c, p = d ++ [c].
Proof. intro H. exists (removelast p), (last p ""). apply app_removelast_last. exact H. Qed.

(** Setting a node where one is found. *)
Lemma put_found n p x y :
  p <> [] -> os.resolve n p = os.Ok x -> os.resolve (os.put p (Some y) n) p = os.Ok y.
Proof.
  intros Hp Hr. destruct (path_snoc p Hp) as (d & c & ->).
  destruct (resolve_last _ _ _ _ Hr) as (m & es & Hd & Hpr & _).
  exact (put_same d c (Some y) n m es Hd Hpr).
Qed.

Lemma writable_parent_snoc fs d c :
  os.writable_parent fs (d ++ [c]) = os.Ok tt ->
  exists m es, os.resolve fs d = os.Ok (os.Dir m es)
               /\ os.p_r (os.d_perm m) = true /\ os.p_w (os.d_perm m) = true.
Proof.
  unfold os.writable_parent, os.parent. rewrite removelast_snoc.
  destruct (d ++ [c]) eqn:E; [destruct d; discriminate|]. clear E.
  destruct (os.resolve fs d) as [[f|m es]|e]; try discriminate.
  destruct (os.p_r (os.d_perm m)) eqn:E1, (os.p_w (os.d_perm m)) eqn:E2; try discriminate.
  intros _. exists m, es. repeat split; assumption.
Qed.

Lemma writable_parent_nil fs : os.writable_parent fs [] = os.Err syscall.EINVAL.
Proof. reflexivity. Qed.

(** [mkdir] makes an empty directory where nothing was. *)
Lemma mkdir_Ok fs p pm now fs' :
  os.mkdir fs p pm now = os.Ok fs' ->
  os.resolve fs p = os.Err syscall.ENOENT
  /\ fs' = os.put p (Some (os.Dir (os.mkDir pm now 4096) [])) fs
  /\ os.resolve fs' p = os.Ok (os.Dir (os.mkDir pm now 4096) []).
Proof.
  unfold os.mkdir. destruct (os.resolve fs p) as [x|e] eqn:Er; [discriminate|].
  destruct e; try discriminate.
  destruct (os.writable_parent fs p) as [[]|e] eqn:Ew; [|discriminate].
  intro H. inversion H; subst. split; [reflexivity|]. split; [reflexivity|].
  destruct p as [|c0 p0] eqn:Ep; [discriminate|]. rewrite <- Ep in *.
  destruct (path_snoc p) as (d & c & ->); [subst; discriminate|].
  destruct (writable_parent_snoc _ _ _ Ew) as (m & es & Hd & Hpr & _).
  exact (put_same d c _ fs m es Hd Hpr).
Qed.

(** [mkdir] changes nothing at a path that is not above the new
    directory. *)
Lemma mkdir_frame fs p pm now fs' r :
  os.mkdir fs p pm now = os.Ok fs' -> os.p_r pm = true ->
  filepath.is_prefix r p = false ->
  os.resolve fs' r = os.resolve fs r.
Proof.
  intros H Hpm Hr. destruct (mkdir_Ok _ _ _ _ _ H) as (Hn & -> & Hnew).
  destruct (filepath.is_prefix p r) eqn:Epr.
  - apply is_prefix_spec in Epr. destruct Epr as [x ->].
    rewrite !resolve_app, Hnew, Hn.
    destruct x as [|c x]; [rewrite app_nil_r, is_prefix_refl in Hr; discriminate|].
    simpl. rewrite Hpm. reflexivity.
  - apply put_frame. apply disjoint_spec. split; assumption.
Qed.

Lemma mkdirall_from_frame pm now : forall todo done fs fs' e r,
  os.mkdirall_from done todo pm now fs = (fs', e) -> os.p_r pm = true ->
  filepath.is_prefix r (done ++ todo) = false ->
  os.resolve fs' r = os.resolve fs r.
Proof.
  induction todo as [|c todo IH]; intros done fs fs' e r H Hpm Hr; simpl in H.
  - inversion H; reflexivity.
  - assert (Hr' : filepath.is_prefix r (done ++ [c]) = false).
    { destruct (filepath.is_prefix r (done ++ [c])) eqn:E; [|reflexivity].
      rewrite <- Hr. symmetry. eapply is_prefix_trans; [exact E|].
      replace (done ++ c :: todo) with ((done ++ [c]) ++ todo)
        by (rewrite <- app_assoc; reflexivity).
      apply is_prefix_app. }
    assert (Hr2 : filepath.is_prefix r ((done ++ [c]) ++ todo) = false)
      by (rewrite <- app_assoc; exact Hr).
    destruct (os.stat fs (done ++ [c])) as [i|e0].
    + destruct (os.fi_isdir i); [eapply IH; eauto|inversion H; reflexivity].
    + destruct (os.mkdir fs (done ++ [c]) pm now) as [fs1|e1] eqn:Em.
      * rewrite (IH _ _ _ _ _ H Hpm Hr2). eapply mkdir_frame; eauto.
      * inversion H; reflexivity.
Qed.

(** [MkdirAll] changes nothing at a path that is not above the directory
    asked for. *)
Lemma mkdirall_frame fs p pm now fs' e r :
  os.mkdirall fs p pm now = (fs', e) -> os.p_r pm = true ->
  filepath.is_prefix r p = false ->
  os.resolve fs' r = os.resolve fs r.
Proof. intros. eapply mkdirall_from_frame with (done := []); eauto. Qed.

(** [MkdirAll] without error: the directory is there. *)
Lemma mkdirall_from_Ok pm now : forall todo done fs fs',
  os.mkdirall_from done todo pm now fs = (fs', None) -> os.p_r pm = true ->
  (exists m es, os.resolve fs done = os.Ok (os.Dir m es)) ->
  exists m es, os.resolve fs' (done ++ todo) = os.Ok (os.Dir m es).
Proof.
  induction todo as [|c todo IH]; intros done fs fs' H Hpm Hd; simpl in H.
  - inversion H; subst. rewrite app_nil_r. exact Hd.
  - replace (done ++ c :: todo) with ((done ++ [c]) ++ todo)
      by (rewrite <- app_assoc; reflexivity).
    unfold os.stat in H.
    destruct (os.resolve fs (done ++ [c])) as [x|e0] eqn:Er.
    + destruct x as [f|m es]; simpl in H; [discriminate|].
      eapply IH; eauto.
    + destruct (os.mkdir fs (done ++ [c]) pm now) as [fs1|e1] eqn:Em; [|discriminate].
      destruct (mkdir_Ok _ _ _ _ _ Em) as (_ & _ & Hnew).
      eapply IH; eauto.
Qed.

Lemma mkdirall_Ok fs p pm now fs' :
  os.mkdirall fs p pm now = (fs', None) -> os.p_r pm = true ->
  (exists m es, fs = os.Dir m es) ->
  exists m es, os.resolve fs' p = os.Ok (os.Dir m es).
Proof.
  intros H Hpm (m & es & ->).
  eapply (mkdirall_from_Ok pm now p [] _ _ H Hpm). simpl. eauto.
Qed.

(** [create]: afterwards the path names a file without bytes, and
    nothing else has changed. *)
Lemma create_Ok fs p now fs' :
  os.create fs p now = os.Ok fs' -> p <> [] ->
  exists g, fs' = os.put p (Some (os.File g)) fs
            /\ os.resolve fs' p = os.Ok (os.File g)
            /\ os.f_data g = "" /\ os.f_mtime g = now
            /\ (os.resolve fs p = os.Err syscall.ENOENT ->
                g = os.mkFile "" now os.mode_0666 true None)
            /\ (forall f, os.resolve fs p = os.Ok (os.File f) ->
                g = os.mkFile "" now (os.f_perm f) (os.f_own f) (os.f_rderr f)).
Proof.
  unfold os.create. intros H Hp.
  destruct (os.resolve fs p) as [[f|m es]|e] eqn:Er; try discriminate.
  - destruct (os.p_w (os.f_perm f)); [|discriminate]. inversion H; subst.
    eexists. split; [reflexivity|]. split; [eapply put_found; eauto|].
    repeat split; try discriminate. intros f0 Hf. inversion Hf; reflexivity.
  - destruct e; try discriminate.
    destruct (os.writable_parent fs p) as [[]|e] eqn:Ew; [|discriminate].
    inversion H; subst.
    destruct (path_snoc p Hp) as (d & c & ->).
    destruct (writable_parent_snoc _ _ _ Ew) as (m & es & Hd & Hpr & _).
    eexists. split; [reflexivity|].
    split; [exact (put_same d c _ fs m es Hd Hpr)|].
    repeat split; try discriminate.
Qed.

Lemma create_frame fs p now fs' r :
  os.create fs p now = os.Ok fs' -> filepath.disjoint r p = true ->
  os.resolve fs' r = os.resolve fs r.
Proof.
  unfold os.create. intros H Hd.
  destruct (os.resolve fs p) as [[f|m es]|e]; try discriminate.
  - destruct (os.p_w (os.f_perm f)); [|discriminate]. inversion H; subst.
    apply put_frame; exact Hd.
  - destruct e; try discriminate.
    destruct (os.writable_parent fs p) as [[]|e]; [|discriminate].
    inversion H; subst. apply put_frame; exact Hd.
Qed.

Lemma write_all_frame fs p data now r :
  filepath.disjoint r p = true ->
  os.resolve (os.write_all fs p data now) r = os.resolve fs r.
Proof.
  intro Hd. unfold os.write_all.
  destruct (os.resolve fs p) as [[f|m es]|e]; try reflexivity.
  apply put_frame; exact Hd.
Qed.

Lemma write_all_file fs p data now f :
  p <> [] -> os.resolve fs p = os.Ok (os.File f) ->
  os.resolve (os.write_all fs p data now) p
  = os.Ok (os.File (os.mkFile data now (os.f_perm f) (os.f_own f) (os.f_rderr f))).
Proof.
  intros Hp Hr. unfold os.write_all. rewrite Hr. eapply put_found; eauto.
Qed.

Lemma chtimes_frame fs p t fs' r :
  os.chtimes fs p t = os.Ok fs' -> filepath.disjoint r p = true ->
  os.resolve fs' r = os.resolve fs r.
Proof.
  unfold os.chtimes. intros H Hd.
  destruct (os.resolve fs p) as [[f|m es]|e]; try discriminate.
  - destruct (os.f_own f); [|discriminate]. inversion H; subst. apply put_frame; exact Hd.
  - inversion H; subst. apply put_frame; exact Hd.
Qed.

Lemma chtimes_file fs p t fs' f :
  p <> [] -> os.resolve fs p = os.Ok (os.File f) -> os.chtimes fs p t = os.Ok fs' ->
  os.resolve fs' p
  = os.Ok (os.File (os.mkFile (os.f_data f) t (os.f_perm f) (os.f_own f) (os.f_rderr f))).
Proof.
  intros Hp Hr. unfold os.chtimes. rewrite Hr.
  destruct (os.f_own f); [|discriminate]. intro H. inversion H; subst.
  eapply put_found; eauto.
Qed.

(** [remove]: afterwards the path names nothing, and nothing else has
    changed. *)
Lemma remove_Ok fs p fs' :
  os.remove fs p = os.Ok fs' ->
  fs' = os.put p None fs
  /\ os.resolve fs' p = os.Err syscall.ENOENT
  /\ (exists n, os.resolve fs p = os.Ok n
                /\ match n with os.Dir _ (_ :: _) => False | _ => True end).
Proof.
  unfold os.remove. intro H.
  destruct (os.resolve fs p) as [n|e] eqn:Er; [|discriminate].
  destruct (os.writable_parent fs p) as [[]|e] eqn:Ew; [|discriminate].
  destruct p as [|c0 p0] eqn:Ep; [discriminate|]. rewrite <- Ep in *.
  destruct (path_snoc p) as (d & c & ->); [subst; discriminate|].
  destruct (writable_parent_snoc _ _ _ Ew) as (m & es & Hd & Hpr & _).
  assert (Hfs : fs' = os.put (d ++ [c]) None fs)
    by (destruct n as [f|m0 [|kv l]]; inversion H; reflexivity).
  split; [exact Hfs|]. split.
  - subst fs'. exact (put_same d c None fs m es Hd Hpr).
  - exists n. split; [reflexivity|]. destruct n as [f|m0 [|kv l]]; try exact I. discriminate.
Qed.


(* ================================================================= *)
(** ** Well-formed trees *)

Lemma wf_Dir m es :
  os.wf (os.Dir m es)
  = os.names_ok [] (map fst es) && forallb (fun kv => os.wf (snd kv)) es.
Proof.
  reflexivity.
Qed.

Lemma names_ok_weaken l : forall seen seen',
  (forall x, In x seen' -> In x seen) ->
  os.names_ok seen l = true -> os.names_ok seen' l = true.
Proof.
  induction l as [|c l IH]; intros seen seen' Hs; simpl; [reflexivity|].
  rewrite !andb_true_iff, !negb_true_iff. intros [[Hp Hn] Hl].
  split; [split; [exact Hp|]|].
  - destruct (existsb (String.eqb c) seen') eqn:E; [|reflexivity].
    apply existsb_exists in E. destruct E as (x & Hx & Ex).
    rewrite <- Hn. symmetry. apply existsb_exists. exists x. split; auto.
  - eapply IH; [|exact Hl]. intros x [->|Hx]; [left; reflexivity|right; auto].
Qed.

Lemma names_ok_spec l : forall seen,
  os.names_ok seen l = true ->
  (forall c, In c l -> filepath.proper c = true /\ ~ In c seen) /\ NoDup l.
Proof.
  induction l as [|c l IH]; intros seen; simpl.
  - intros _. split; [intros c []|constructor].
  - rewrite !andb_true_iff, !negb_true_iff. intros [[Hp Hn] Hl].
    destruct (IH _ Hl) as [Hall Hnd]. split.
    + intros x [<-|Hx].
      * split; [exact Hp|]. intro Hin.
        assert (existsb (String.eqb c) seen = true); [|congruence].
        apply existsb_exists. exists c. split; [exact Hin|apply String.eqb_refl].
      * destruct (Hall x Hx) as [Hpx Hnx]. split; [exact Hpx|].
        intro Hin. apply Hnx. right. exact Hin.
    + constructor; [|exact Hnd]. intro Hin. destruct (Hall c Hin) as [_ Hc].
      apply Hc. left. reflexivity.
Qed.

Lemma wf_child m es k v :
  os.wf (os.Dir m es) = true -> In (k, v) es ->
  os.wf v = true /\ filepath.proper k = true.
Proof.
  rewrite wf_Dir, andb_true_iff. intros [Hn Hf] Hin. split.
  - rewrite forallb_forall in Hf. exact (Hf _ Hin).
  - destruct (names_ok_spec _ _ Hn) as [Hall _].
    apply (Hall k). change k with (fst (k, v)). apply in_map. exact Hin.
Qed.

Lemma lookup_entry_In c es v : os.lookup_entry c es = Some v -> In (c, v) es.
Proof.
  induction es as [|[k x] es IH]; simpl; [discriminate|].
  destruct (String.eqb_spec k c) as [->|Hne].
  - intro H. inversion H; subst. left; reflexivity.
  - intro H. right. exact (IH H).
Qed.

(** In a well-formed directory every entry is found under its name. *)
Lemma lookup_entry_wf m es k v :
  os.wf (os.Dir m es) = true -> In (k, v) es -> os.lookup_entry k es = Some v.
Proof.
  rewrite wf_Dir, andb_true_iff. intros [Hn _].
  apply names_ok_spec in Hn. destruct Hn as [_ Hnd]. clear m.
  induction es as [|[k0 v0] es IH]; simpl; [intros []|].
  inversion Hnd as [|? ? Hnotin Hnd']; subst.
  intros [Heq|Hin].
  - inversion Heq; subst. rewrite String.eqb_refl. reflexivity.
  - destruct (String.eqb_spec k0 k) as [->|Hne]; [|exact (IH Hnd' Hin)].
    exfalso. apply Hnotin. change k with (fst (k, v)). apply in_map. exact Hin.
Qed.

Lemma wf_resolve p : forall n n',
  os.wf n = true -> os.resolve n p = os.Ok n' -> os.wf n' = true.
Proof.
  induction p as [|c p IH]; intros n n' Hw Hr; simpl in Hr.
  - inversion Hr; subst; exact Hw.
  - destruct n as [f|m es]; [discriminate|].
    destruct (os.p_r (os.d_perm m)); [|discriminate].
    destruct (os.lookup_entry c es) as [ch|] eqn:El; [|discriminate].
    apply lookup_entry_In in El. destruct (wf_child _ _ _ _ Hw El) as [Hch _].
    exact (IH _ _ Hch Hr).
Qed.

(** The paths that resolve in a well-formed tree are clean. *)
Lemma resolve_clean p : forall n n',
  os.wf n = true -> os.resolve n p = os.Ok n' -> filepath.clean_path p = true.
Proof.
  induction p as [|c p IH]; intros n n' Hw Hr; simpl in Hr; [reflexivity|].
  destruct n as [f|m es]; [discriminate|].
  destruct (os.p_r (os.d_perm m)); [|discriminate].
  destruct (os.lookup_entry c es) as [ch|] eqn:El; [|discriminate].
  apply lookup_entry_In in El. destruct (wf_child _ _ _ _ Hw El) as [Hch Hc].
  simpl. rewrite Hc. exact (IH _ _ Hch Hr).
Qed.

Lemma map_fst_remove_entry c es :
  map fst (os.remove_entry c es) = filter (fun k => negb (String.eqb k c)) (map fst es).
Proof.
  induction es as [|[k v] es IH]; simpl; [reflexivity|].
  destruct (String.eqb k c); simpl; rewrite IH; reflexivity.
Qed.

Lemma names_ok_filter g l : forall seen,
  os.names_ok seen l = true -> os.names_ok seen (filter g l) = true.
Proof.
  induction l as [|c l IH]; intros seen; simpl; [reflexivity|].
  rewrite !andb_true_iff. intros [[Hp Hn] Hl].
  destruct (g c); simpl.
  - rewrite Hp, Hn. simpl. apply IH. exact Hl.
  - apply IH. eapply names_ok_weaken; [|exact Hl]. intros x Hx. right. exact Hx.
Qed.

Lemma map_fst_map_entry c f es : map fst (os.map_entry c f es) = map fst es.
Proof.
  induction es as [|[k v] es IH]; simpl; [reflexivity|].
  destruct (String.eqb k c); simpl; [reflexivity|]. rewrite IH. reflexivity.
Qed.

Lemma forallb_wf_remove c es :
  forallb (fun kv => os.wf (snd kv)) es = true ->
  forallb (fun kv => os.wf (snd kv)) (os.remove_entry c es) = true.
Proof.
  induction es as [|[k v] es IH]; simpl; [reflexivity|].
  rewrite andb_true_iff. intros [Hv Hl].
  destruct (String.eqb k c); simpl; [exact (IH Hl)|]. rewrite Hv. exact (IH Hl).
Qed.

Lemma forallb_wf_map c f es :
  (forall v, os.wf v = true -> os.wf (f v) = true) ->
  forallb (fun kv => os.wf (snd kv)) es = true ->
  forallb (fun kv => os.wf (snd kv)) (os.map_entry c f es) = true.
Proof.
  intro Hf. induction es as [|[k v] es IH]; simpl; [reflexivity|].
  rewrite andb_true_iff. intros [Hv Hl].
  destruct (String.eqb k c); simpl.
  - rewrite (Hf _ Hv). exact Hl.
  - rewrite Hv. exact (IH Hl).
Qed.

(** Removing an entry keeps a tree well-formed. *)
Lemma wf_put_None p : forall n, os.wf n = true -> os.wf (os.put p None n) = true.
Proof.
  induction p as [|c p IH]; intros n Hw.
  - destruct n; exact Hw.
  - destruct n as [f|m es]; [exact Hw|].
    rewrite wf_Dir, andb_true_iff in Hw. destruct Hw as [Hn Hf].
    destruct p as [|c2 p].
    + rewrite put_single, wf_Dir. cbn [os.set_entry].
      rewrite map_fst_remove_entry, names_ok_filter by exact Hn.
      rewrite forallb_wf_remove by exact Hf. reflexivity.
    + rewrite put_cons by discriminate. rewrite wf_Dir, map_fst_map_entry, Hn.
      rewrite forallb_wf_map; [reflexivity|exact (IH)|exact Hf].
Qed.

(* ================================================================= *)
(** ** The deletion pass *)


Lemma clean_path_app_inv a b :
  filepath.clean_path (a ++ b) = true ->
  filepath.clean_path a = true /\ filepath.clean_path b = true.
Proof. rewrite clean_path_app, andb_true_iff. tauto. Qed.



Section Sweep.
Variables src dst : path.
Hypothesis Hsrc : filepath.clean_path src = true.
Hypothesis Hdst : filepath.clean_path dst = true.
Hypothesis Hdis : filepath.disjoint src dst = true.
Variable w0 : os.World.




Lemma resolve_below_file fs p x f :
  os.resolve fs p = os.Ok (os.File f) -> x <> [] ->
  os.resolve fs (p ++ x) = os.Err syscall.ENOTDIR.
Proof.
  intros H Hx. rewrite resolve_app, H. destruct x; [congruence|reflexivity].
Qed.




End Sweep.

(* ================================================================= *)
(** ** A walk over a tree the walk function leaves alone *)

Lemma visits_Dir p name m es :
  visits p name (os.Dir m es)
  = (p, VEntry (os.mkEntry name true))
    :: (if os.p_r (os.d_perm m) then visits_below p es
        else [(p, VReadErr (os.mkEntry name true) syscall.EACCES)]).
Proof.
  reflexivity.
Qed.

Lemma height_child m es k v : In (k, v) es -> (os.height v < os.height (os.Dir m es))%nat.
Proof.
  simpl. intro H. apply Nat.lt_succ_r.
  induction es as [|kv es IH]; [destruct H|].
  destruct H as [->|H]; simpl; [apply Nat.le_max_l|].
  etransitivity; [exact (IH H)|apply Nat.le_max_r].
Qed.

(** Induction on a tree: a directory has the property when the nodes of
    its entries have it. *)
Lemma node_induction (P : os.node -> Prop) :
  (forall f, P (os.File f)) ->
  (forall m es, (forall k v, In (k, v) es -> P v) -> P (os.Dir m es)) ->
  forall n, P n.
Proof.
  intros HF HD n.
  assert (H : forall h n, (os.height n < h)%nat -> P n).
  { induction h as [|h IH]; intros x Hx; [lia|].
    destruct x as [f|m es]; [apply HF|]. apply HD. intros k v Hin.
    apply IH. pose proof (height_child m es k v Hin). lia. }
  exact (H (S (os.height n)) n (Nat.lt_succ_diag_r _)).
Qed.

Lemma run_visits_app {C : Type} (fn : WalkDirFunc (C := C)) l1 l2 s :
  run_visits fn (l1 ++ l2) s = run_visits fn l2 (run_visits fn l1 s).
Proof. apply fold_left_app. Qed.

Section StaticWalk.
Context {C : Type}.
Variable fn : WalkDirFunc (C := C).
Variable root : path.

Hypothesis fn_nil : forall p d e c w c' w' r,
  filepath.is_prefix root p = true -> filepath.clean_path p = true ->
  fn p d e c w = (c', w', r) -> r = None.
Hypothesis fn_file : forall p d c w c' w' r,
  filepath.is_prefix root p = true -> filepath.clean_path p = true ->
  os.de_isdir d = false ->
  fn p (Some d) None c w = (c', w', r) ->
  forall q, filepath.is_prefix root q = true -> filepath.disjoint q p = true ->
            os.resolve (os.w_fs w') q = os.resolve (os.w_fs w) q.
Hypothesis fn_dir : forall p d e c w c' w' r,
  os.de_isdir d = true \/ e <> None ->
  fn p (Some d) e c w = (c', w', r) -> os.w_fs w' = os.w_fs w.

Lemma visit_step_fs_dir p d s :
  os.de_isdir d = true ->
  os.w_fs (snd (visit_step fn s (p, VEntry d))) = os.w_fs (snd s).
Proof.
  intro Hd. cbn [visit_step].
  destruct (fn p (Some d) None (fst s) (snd s)) as [[c' w'] r] eqn:E.
  rewrite Hd. cbn [snd os.traced os.w_fs].
  eapply fn_dir; [|exact E]. left; exact Hd.
Qed.

Lemma visit_step_fs_err p d e s :
  os.w_fs (snd (visit_step fn s (p, VReadErr d e))) = os.w_fs (snd s).
Proof.
  cbn [visit_step].
  destruct (fn p (Some d) (Some (PathError "open" p e)) (fst s) (snd s)) as [[c' w'] r] eqn:E.
  cbn [snd]. eapply fn_dir; [|exact E]. right; discriminate.
Qed.

(** The walk of a subtree changes nothing below the root that is
    disjoint from the subtree. *)
Lemma run_visits_frame : forall n p name s q,
  os.wf n = true ->
  filepath.is_prefix root p = true -> filepath.clean_path p = true ->
  filepath.is_prefix root q = true -> filepath.disjoint q p = true ->
  os.resolve (os.w_fs (snd (run_visits fn (visits p name n) s))) q
  = os.resolve (os.w_fs (snd s)) q.
Proof.
  induction n as [f|m es IH] using node_induction; intros p name s q Hw Hp Hc Hq Hd.
  - cbn [visits run_visits fold_left visit_step].
    destruct (fn p (Some (os.mkEntry name false)) None (fst s) (snd s)) as [[c' w'] r] eqn:E.
    cbn [os.de_isdir snd]. eapply fn_file; [exact Hp|exact Hc| |exact E|exact Hq|exact Hd].
    reflexivity.
  - rewrite visits_Dir. unfold run_visits. cbn [fold_left]. fold (run_visits fn).
    set (s1 := visit_step fn s (p, VEntry (os.mkEntry name true))).
    assert (Hs1 : os.w_fs (snd s1) = os.w_fs (snd s)) by (apply visit_step_fs_dir; reflexivity).
    rewrite <- Hs1. clearbody s1. clear Hs1.
    destruct (os.p_r (os.d_perm m)).
    + assert (Hall : forall l s0, (forall kv, In kv l -> In kv es) ->
                 os.resolve (os.w_fs (snd (run_visits fn (visits_below p l) s0))) q
                 = os.resolve (os.w_fs (snd s0)) q).
      { induction l as [|[k v] l IHl]; intros s0 Hl; [reflexivity|].
        unfold visits_below. cbn [flat_map]. rewrite run_visits_app.
        fold (visits_below p l). rewrite IHl by (intros kv Hkv; apply Hl; right; exact Hkv).
        cbn [fst snd].
        destruct (wf_child _ _ _ _ Hw (Hl _ (or_introl eq_refl))) as [Hwv Hk].
        apply (IH k v (Hl _ (or_introl eq_refl))); auto.
        - eapply is_prefix_trans; [exact Hp|apply is_prefix_app].
        - rewrite clean_path_app, Hc. simpl. rewrite Hk. reflexivity.
        - rewrite <- (app_nil_r q). apply disjoint_below. exact Hd. }
      apply Hall. auto.
    + cbn [run_visits fold_left]. rewrite visit_step_fs_err. reflexivity.
Qed.

Lemma resolve_child fs p m es k v :
  os.resolve fs p = os.Ok (os.Dir m es) -> os.p_r (os.d_perm m) = true ->
  os.wf (os.Dir m es) = true -> In (k, v) es ->
  os.resolve fs (p ++ [k]) = os.Ok v.
Proof.
  intros Hr Hp Hw Hin. rewrite resolve_app, Hr. simpl. rewrite Hp.
  rewrite (lookup_entry_wf m es k v Hw Hin). reflexivity.
Qed.

Lemma NoDup_names m es : os.wf (os.Dir m es) = true -> NoDup (map fst es).
Proof.
  rewrite wf_Dir, andb_true_iff. intros [Hn _]. exact (proj2 (names_ok_spec _ _ Hn)).
Qed.

Lemma disjoint_siblings (p : path) k k' :
  k <> k' -> filepath.disjoint (p ++ [k]) (p ++ [k']) = true.
Proof.
  intro H. rewrite disjoint_app_same. unfold filepath.disjoint. simpl.
  destruct (String.eqb_spec k k') as [E|_]; [contradiction|].
  destruct (String.eqb_spec k' k) as [E|_]; [subst; contradiction|]. reflexivity.
Qed.

(** With fuel for its height, the walk of a tree is the calls read off
    the tree, one after the other. *)
Lemma walkDir_static : forall fuel n p name c w,
  (os.height n < fuel)%nat -> os.wf n = true ->
  filepath.is_prefix root p = true -> filepath.clean_path p = true ->
  os.resolve (os.w_fs w) p = os.Ok n ->
  walkDir fn fuel p (os.mkEntry name (os.is_dir n)) c w
  = Some (fst (run_visits fn (visits p name n) (c, w)),
          snd (run_visits fn (visits p name n) (c, w)), None).
Proof.
  induction fuel as [|fuel IHf]; intros n p name c w Hh Hw Hp Hc Hr; [lia|].
  cbn [walkDir].
  destruct (fn p (Some (os.mkEntry name (os.is_dir n))) None c w) as [[c1 w1] e1] eqn:E1.
  pose proof (fn_nil _ _ _ _ _ _ _ _ Hp Hc E1) as ->.
  destruct n as [f|m es].
  - cbn [os.is_dir os.de_isdir negb].
    cbn [visits run_visits fold_left visit_step fst snd].
    cbn [os.is_dir] in E1. rewrite E1. reflexivity.
  - cbn [os.is_dir os.de_isdir negb] in *.
    assert (Hfs1 : os.w_fs w1 = os.w_fs w)
      by (eapply fn_dir; [|exact E1]; left; reflexivity).
    rewrite visits_Dir. unfold run_visits at 1 2. cbn [fold_left]. fold (run_visits fn).
    cbn [visit_step fst snd]. rewrite E1. cbn [os.de_isdir].
    unfold os.ReadDir, os.readdir. rewrite Hfs1, Hr.
    destruct (os.p_r (os.d_perm m)) eqn:Epr.
    + assert (Hall : forall l c0 w0,
                 (forall kv, In kv l -> In kv es) -> NoDup (map fst l) ->
                 (forall k v, In (k, v) l -> os.resolve (os.w_fs w0) (p ++ [k]) = os.Ok v) ->
                 walkEntries (walkDir fn fuel) p
                   (map (fun kv => os.mkEntry (fst kv) (os.is_dir (snd kv))) l) c0 w0
                 = Some (fst (run_visits fn (visits_below p l) (c0, w0)),
                         snd (run_visits fn (visits_below p l) (c0, w0)), None)).
      { induction l as [|[k v] l IHl]; intros c0 w0 Hl Hnd Hres; [reflexivity|].
        cbn [map walkEntries os.de_name fst snd].
        destruct (wf_child _ _ _ _ Hw (Hl _ (or_introl eq_refl))) as [Hwv Hk].
        assert (Hck : filepath.clean_path (p ++ [k]) = true)
          by (rewrite clean_path_app, Hc; simpl; rewrite Hk; reflexivity).
        assert (Hpk : filepath.is_prefix root (p ++ [k]) = true)
          by (eapply is_prefix_trans; [exact Hp|apply is_prefix_app]).
        rewrite (Join_clean p [k] Hc) by (simpl; rewrite Hk; reflexivity).
        rewrite (IHf v (p ++ [k]) k c0 w0); auto.
        2: { pose proof (height_child m es k v (Hl _ (or_introl eq_refl))). lia. }
        2: { apply Hres. left; reflexivity. }
        unfold visits_below. cbn [flat_map fst snd]. rewrite run_visits_app.
        fold (visits_below p l).
        set (s1 := run_visits fn (visits (p ++ [k]) k v) (c0, w0)).
        rewrite (IHl (fst s1) (snd s1)).
        - destruct s1; reflexivity.
        - intros kv Hkv. apply Hl. right. exact Hkv.
        - inversion Hnd; assumption.
        - intros k' v' Hin'. unfold s1. rewrite run_visits_frame; auto.
          + apply Hres. right. exact Hin'.
          + eapply is_prefix_trans; [exact Hp|apply is_prefix_app].
          + apply disjoint_siblings. intro; subst k'. inversion Hnd as [|? ? Hnotin _]; subst.
            apply Hnotin. change k with (fst (k, v')). apply in_map. exact Hin'. }
      apply Hall; auto.
      * apply NoDup_names with (m := m). exact Hw.
      * intros k v Hin. cbn [os.traced os.w_fs]. rewrite Hfs1.
        eapply resolve_child; eauto.
    + destruct (fn p (Some (os.mkEntry name true))
                  (Some (PathError "open" p syscall.EACCES)) c1
                  (os.traced (os.CReadDir p) w1)) as [[c3 w3] e3] eqn:E3.
      pose proof (fn_nil _ _ _ _ _ _ _ _ Hp Hc E3) as ->.
      cbn [walkEntries run_visits fold_left visit_step fst snd].
      rewrite E3. reflexivity.
Qed.

End StaticWalk.

(* ================================================================= *)
(** ** copyFile *)

Lemma is_prefix_removelast_false (p : path) :
  p <> [] -> filepath.is_prefix p (removelast p) = false.
Proof.
  intro H. destruct (filepath.is_prefix p (removelast p)) eqn:E; [|reflexivity].
  apply is_prefix_spec in E. destruct E as [c E].
  apply (f_equal (@List.length string)) in E. rewrite length_app in E.
  destruct (path_snoc p H) as (d & x & ->). rewrite removelast_snoc in E.
  rewrite length_app in E. simpl in E. lia.
Qed.

Lemma disjoint_not_prefix_parent q (p : path) :
  filepath.disjoint q p = true -> filepath.is_prefix q (removelast p) = false.
Proof.
  intro H. apply disjoint_spec in H. destruct H as [H _].
  destruct (filepath.is_prefix q (removelast p)) eqn:E; [|reflexivity].
  rewrite <- H. symmetry. eapply is_prefix_trans; [exact E|apply is_prefix_removelast].
Qed.

Lemma copyFile_contents_frame src dst w w' r q :
  stream.copyFile_contents src dst w = (w', r) ->
  filepath.disjoint q dst = true ->
  os.resolve (os.w_fs w') q = os.resolve (os.w_fs w) q.
Proof.
  unfold stream.copyFile_contents, os.Copy, os.Fstat, os.Chtimes, os.Now. intros H Hq.
  destruct (os.read_all (os.w_fs w) src) as [data [e|]].
  - inversion H; subst. cbn [os.log os.with_fs os.traced os.w_fs].
    apply write_all_frame; exact Hq.
  - cbn [os.log os.with_fs os.traced os.w_fs os.w_now] in H.
    destruct (os.stat (os.write_all (os.w_fs w) dst data (os.w_now w)) src) as [i|e].
    + destruct (os.chtimes (os.write_all (os.w_fs w) dst data (os.w_now w)) dst (os.fi_mtime i))
        as [fs'|e] eqn:Ec; inversion H; subst; cbn [os.log os.with_fs os.traced os.w_fs].
      * rewrite (chtimes_frame _ _ _ _ _ Ec Hq). apply write_all_frame; exact Hq.
      * apply write_all_frame; exact Hq.
    + inversion H; subst. cbn [os.log os.with_fs os.traced os.w_fs].
      apply write_all_frame; exact Hq.
Qed.

(** [copyFile] changes nothing at a path that is neither above nor below
    the destination file. *)
Lemma copyFile_frame src dst w w' r q :
  filepath.clean_path dst = true ->
  stream.copyFile src dst w = (w', r) ->
  filepath.disjoint q dst = true ->
  os.resolve (os.w_fs w') q = os.resolve (os.w_fs w) q.
Proof.
  intros Hc H Hq. unfold stream.copyFile, os.MkdirAll, os.Open, os.Create in H.
  rewrite (Dir_clean dst Hc) in H.
  cbn [os.log os.w_fs os.w_now] in H.
  destruct (os.mkdirall (os.w_fs w) (removelast dst) os.mode_0755 (os.w_now w))
    as [fs1 e1] eqn:Em.
  assert (H1 : os.resolve fs1 q = os.resolve (os.w_fs w) q).
  { eapply mkdirall_frame; [exact Em|reflexivity|].
    apply disjoint_not_prefix_parent. exact Hq. }
  destruct e1 as [e1|].
  { inversion H; subst. exact H1. }
  cbn [os.log os.with_fs os.traced os.w_fs os.w_now] in H.
  destruct (os.open fs1 src) as [[]|e2].
  2: { inversion H; subst. exact H1. }
  destruct (os.create fs1 dst (os.w_now w)) as [fs3|e3] eqn:Ecr.
  2: { inversion H; subst. exact H1. }
  match type of H with
  | context [stream.copyFile_contents src dst ?w3] =>
      destruct (stream.copyFile_contents src dst w3) as [w4 r4] eqn:Ecc
  end.
  unfold stream.deferred_close, os.Close in H. inversion H; subst.
  rewrite (copyFile_contents_frame _ _ _ _ _ _ Ecc Hq).
  cbn [os.with_fs os.traced os.w_fs].
  rewrite (create_frame _ _ _ _ _ Ecr Hq). exact H1.
Qed.

(** [copyFile] without error: the source is a regular file that was read
    to the end, and the destination is a regular file with its bytes; it
    has the mode of the file that was there, or 0666. *)
Lemma copyFile_Ok src dst w w' f :
  filepath.clean_path dst = true -> dst <> [] ->
  filepath.disjoint src dst = true ->
  stream.copyFile src dst w = (w', None) ->
  os.resolve (os.w_fs w) src = os.Ok (os.File f) ->
  os.p_r (os.f_perm f) = true /\ os.f_rderr f = None
  /\ exists g, os.resolve (os.w_fs w') dst = os.Ok (os.File g)
               /\ os.f_data g = os.f_data f
               /\ (os.f_mtime g = os.f_mtime f \/ os.f_mtime g = os.w_now w)
               /\ match os.resolve (os.w_fs w) dst with
                  | os.Ok (os.File f0) =>
                      os.f_perm g = os.f_perm f0 /\ os.f_rderr g = os.f_rderr f0
                  | _ => os.f_perm g = os.mode_0666 /\ os.f_rderr g = None
                  end.
Proof.
  intros Hc Hne Hdis H Hsrc. unfold stream.copyFile, os.MkdirAll, os.Open, os.Create in H.
  rewrite (Dir_clean dst Hc) in H.
  cbn [os.log os.w_fs os.w_now] in H.
  destruct (os.mkdirall (os.w_fs w) (removelast dst) os.mode_0755 (os.w_now w))
    as [fs1 e1] eqn:Em.
  assert (H1 : forall q, filepath.is_prefix q (removelast dst) = false ->
                         os.resolve fs1 q = os.resolve (os.w_fs w) q).
  { intros q Hq. eapply mkdirall_frame; [exact Em|reflexivity|exact Hq]. }
  destruct e1 as [e1|]; [discriminate|].
  cbn [os.log os.with_fs os.traced os.w_fs os.w_now] in H.
  assert (Hs1 : os.resolve fs1 src = os.Ok (os.File f)).
  { rewrite H1; [exact Hsrc|]. apply disjoint_not_prefix_parent. exact Hdis. }
  assert (Hd1 : os.resolve fs1 dst = os.resolve (os.w_fs w) dst).
  { apply H1. apply is_prefix_removelast_false. exact Hne. }
  unfold os.open in H. rewrite Hs1 in H.
  destruct (os.p_r (os.f_perm f)) eqn:Hpr.
  2: { inversion H. }
  destruct (os.create fs1 dst (os.w_now w)) as [fs3|e3] eqn:Ecr.
  2: { inversion H. }
  destruct (create_Ok _ _ _ _ Ecr Hne) as (g0 & Hfs3 & Hg0 & Hdata0 & Hmt0 & Hnew & Hold).
  assert (Hs3 : os.resolve fs3 src = os.Ok (os.File f)).
  { rewrite (create_frame _ _ _ _ _ Ecr Hdis). exact Hs1. }
  unfold stream.copyFile_contents, os.Copy, os.Fstat, os.Chtimes, os.Now in H.
  cbn [os.with_fs os.traced os.w_fs os.w_now os.log] in H.
  unfold os.read_all in H. rewrite Hs3 in H.
  destruct (os.f_rderr f) as [k|] eqn:Hrd.
  { unfold stream.deferred_close, os.Close in H. inversion H. }
  split; [reflexivity|]. split; [reflexivity|].
  cbn [os.with_fs os.traced os.w_fs os.w_now os.log] in H.
  pose proof (write_all_file fs3 dst (os.f_data f) (os.w_now w) g0 Hne Hg0) as Hw4.
  assert (Hs4 : os.stat (os.write_all fs3 dst (os.f_data f) (os.w_now w)) src
                = os.Ok (os.info_of (os.File f))).
  { unfold os.stat. rewrite (write_all_frame _ _ _ _ _ Hdis), Hs3. reflexivity. }
  rewrite Hs4 in H. cbn [os.info_of os.fi_mtime] in H.
  assert (Hshape : match os.resolve (os.w_fs w) dst with
                   | os.Ok (os.File f0) =>
                       os.f_perm g0 = os.f_perm f0 /\ os.f_rderr g0 = os.f_rderr f0
                   | _ => os.f_perm g0 = os.mode_0666 /\ os.f_rderr g0 = None
                   end).
  { rewrite <- Hd1. unfold os.create in Ecr.
    destruct (os.resolve fs1 dst) as [[f0|m0 es0]|e0] eqn:Ed; try discriminate.
    - rewrite (Hold f0 eq_refl). split; reflexivity.
    - destruct e0; try discriminate. rewrite (Hnew eq_refl). split; reflexivity. }
  destruct (os.chtimes (os.write_all fs3 dst (os.f_data f) (os.w_now w)) dst (os.f_mtime f))
    as [fs5|e5] eqn:Ech;
    unfold stream.deferred_close, os.Close in H; inversion H; subst;
    cbn [os.with_fs os.traced os.w_fs os.w_now os.log].
  - rewrite (chtimes_file _ _ _ _ _ Hne Hw4 Ech).
    eexists. split; [reflexivity|]. cbn [os.f_data os.f_mtime os.f_perm os.f_rderr].
    split; [reflexivity|]. split; [left; reflexivity|exact Hshape].
  - rewrite Hw4.
    eexists. split; [reflexivity|]. cbn [os.f_data os.f_mtime os.f_perm os.f_rderr].
    split; [reflexivity|]. split; [right; reflexivity|exact Hshape].
Qed.

(* ================================================================= *)
(** ** The strategies on a source file *)


Lemma quiet_trans w1 w2 w3 : quiet w1 w2 -> quiet w2 w3 -> quiet w1 w3.
Proof.
  intros (Hf1 & Hn1 & new1 & Hc1 & Ht1) (Hf2 & Hn2 & new2 & Hc2 & Ht2).
  split; [congruence|]. split; [congruence|].
  exists (new2 ++ new1). split; [rewrite Hc2, Hc1; apply app_assoc|].
  unfold no_transfer in *. rewrite filter_app, Ht1, Ht2. reflexivity.
Qed.

Lemma quiet_log f w : quiet w (os.log f w).
Proof. split; [reflexivity|]. split; [reflexivity|]. exists []. split; reflexivity. Qed.

Lemma quiet_traced k w : is_transfer k = false -> quiet w (os.traced k w).
Proof.
  intro H. split; [reflexivity|]. split; [reflexivity|]. exists [k].
  split; [reflexivity|]. unfold no_transfer. simpl. rewrite H. reflexivity.
Qed.

Lemma calculateSHA256_quiet p w : quiet w (fst (stream.calculateSHA256 p w)).
Proof.
  unfold stream.calculateSHA256, os.Open, os.ReadAll, os.Close.
  destruct (os.open (os.w_fs w) p) as [[]|e]; cbn [fst].
  - destruct (os.read_all _ _) as [data [e|]]; cbn [fst];
      (eapply quiet_trans; [apply quiet_traced|apply quiet_traced]; reflexivity).
  - apply quiet_traced; reflexivity.
Qed.

(** [calculateSHA256] on a regular file. *)
Lemma calculateSHA256_file p w f :
  os.resolve (os.w_fs w) p = os.Ok (os.File f) ->
  snd (stream.calculateSHA256 p w)
  = if os.p_r (os.f_perm f)
    then match os.f_rderr f with
         | None => (digest f, None)
         | Some _ => ("", Some (PathError "read" p syscall.EIO))
         end
    else ("", Some (PathError "open" p syscall.EACCES)).
Proof.
  intro H. unfold stream.calculateSHA256, os.Open, os.ReadAll, os.Close, os.open, os.read_all.
  cbn [os.traced os.w_fs]. rewrite H.
  destruct (os.p_r (os.f_perm f)); [|reflexivity].
  destruct (os.f_rderr f); reflexivity.
Qed.

(** [calculateSHA256] succeeds on readable regular files only. *)
Lemma calculateSHA256_Ok p w h :
  snd (stream.calculateSHA256 p w) = (h, None) ->
  exists f, os.resolve (os.w_fs w) p = os.Ok (os.File f) /\ readable f /\ h = digest f.
Proof.
  unfold stream.calculateSHA256, os.Open, os.ReadAll, os.Close, os.open, os.read_all.
  cbn [os.traced os.w_fs].
  destruct (os.resolve (os.w_fs w) p) as [[f|m es]|e] eqn:Er.
  - destruct (os.p_r (os.f_perm f)) eqn:Ep; [|discriminate].
    destruct (os.f_rderr f) eqn:Erd; [discriminate|].
    cbn [snd]. intro H. inversion H. exists f. repeat split; assumption.
  - destruct (os.p_r (os.d_perm m)); discriminate.
  - discriminate.
Qed.

Lemma NeedsUpdate_quiet st src dst w : quiet w (fst (stream.NeedsUpdate st src dst w)).
Proof.
  destruct st; cbn [stream.NeedsUpdate].
  - unfold stream.ModTime_NeedsUpdate, os.Stat.
    destruct (os.stat (os.w_fs w) src) as [si|e]; cbn [fst];
      [|apply quiet_traced; reflexivity].
    cbn [os.traced os.w_fs].
    assert (Hq : quiet w (os.traced (os.CStat dst) (os.traced (os.CStat src) w)))
      by (eapply quiet_trans; apply quiet_traced; reflexivity).
    destruct (os.stat (os.w_fs w) dst) as [di|e]; cbn [fst]; [|exact Hq].
    destruct (negb _); [exact Hq|]. destruct (negb _); exact Hq.
  - unfold stream.SHA256_NeedsUpdate.
    pose proof (calculateSHA256_quiet src w) as H1.
    destruct (stream.calculateSHA256 src w) as [w1 [h1 [e1|]]]; cbn [fst] in *; [exact H1|].
    pose proof (calculateSHA256_quiet dst w1) as H2.
    destruct (stream.calculateSHA256 dst w1) as [w2 [h2 [e2|]]]; cbn [fst] in *;
      eapply quiet_trans; eauto.
Qed.

Lemma stat_resolve fs p n : os.resolve fs p = os.Ok n -> os.stat fs p = os.Ok (os.info_of n).
Proof. intro H. unfold os.stat. rewrite H. reflexivity. Qed.

(** The answer that no update is needed says that the destination is up
    to date. *)
Lemma NeedsUpdate_false st src dst w w' f :
  stream.NeedsUpdate st src dst w = (w', (false, None)) ->
  os.resolve (os.w_fs w) src = os.Ok (os.File f) ->
  exists n, os.resolve (os.w_fs w) dst = os.Ok n /\ up_to_date st f n.
Proof.
  intros H Hs. destruct st; cbn [stream.NeedsUpdate] in H.
  - unfold stream.ModTime_NeedsUpdate, os.Stat in H. cbn [os.traced os.w_fs] in H.
    rewrite (stat_resolve _ _ _ Hs) in H. unfold os.stat in H.
    destruct (os.resolve (os.w_fs w) dst) as [n|e]; [|discriminate].
    exists n. split; [reflexivity|]. cbn [up_to_date].
    destruct (Z.eqb_spec (os.fi_size (os.info_of (os.File f))) (os.fi_size (os.info_of n)))
      as [Es|Es]; cbn [negb] in H; [|discriminate].
    destruct (os.Time_Equal (os.fi_mtime (os.info_of (os.File f))) (os.fi_mtime (os.info_of n)))
      eqn:Et; cbn [negb] in H; [|discriminate].
    split; [symmetry; exact Es|exact Et].
  - unfold stream.SHA256_NeedsUpdate in H.
    pose proof (calculateSHA256_quiet src w) as (Hfs1 & _).
    pose proof (calculateSHA256_Ok src w) as H1.
    destruct (stream.calculateSHA256 src w) as [w1 [h1 [e1|]]]; [discriminate|].
    cbn [fst snd] in *.
    destruct (H1 h1 eq_refl) as (f1 & Hf1 & Hr1 & ->).
    rewrite Hs in Hf1. inversion Hf1; subst f1.
    pose proof (calculateSHA256_Ok dst w1) as H2.
    destruct (stream.calculateSHA256 dst w1) as [w2 [h2 [e2|]]]; [discriminate|].
    cbn [fst snd] in *.
    destruct (H2 h2 eq_refl) as (g & Hg & Hrg & ->).
    rewrite Hfs1 in Hg. exists (os.File g). split; [exact Hg|].
    cbn [up_to_date]. split; [exact Hr1|]. exists g. split; [reflexivity|].
    split; [exact Hrg|].
    inversion H as [[Hw Hb]]. apply negb_false_iff in Hb. apply String.eqb_eq in Hb.
    symmetry. exact Hb.
Qed.

(** On a destination that is up to date the answer is that no update is
    needed. *)
Lemma NeedsUpdate_up_to_date st src dst w f n :
  os.resolve (os.w_fs w) src = os.Ok (os.File f) ->
  os.resolve (os.w_fs w) dst = os.Ok n ->
  up_to_date st f n ->
  snd (stream.NeedsUpdate st src dst w) = (false, None).
Proof.
  intros Hs Hd Hu. destruct st; cbn [stream.NeedsUpdate up_to_date] in *.
  - destruct Hu as [Hsz Ht].
    unfold stream.ModTime_NeedsUpdate, os.Stat. cbn [os.traced os.w_fs].
    rewrite (stat_resolve _ _ _ Hs), (stat_resolve _ _ _ Hd).
    rewrite Hsz, Z.eqb_refl. cbn [negb os.info_of os.fi_mtime] in *.
    rewrite Ht. reflexivity.
  - destruct Hu as ((Hp & Hrd) & g & -> & (Hpg & Hrdg) & Hdg).
    unfold stream.SHA256_NeedsUpdate.
    pose proof (calculateSHA256_quiet src w) as (Hfs1 & _).
    pose proof (calculateSHA256_file src w f Hs) as H1. rewrite Hp, Hrd in H1.
    destruct (stream.calculateSHA256 src w) as [w1 [h1 e1]]. cbn [fst snd] in *.
    inversion H1; subst h1 e1.
    assert (Hd1 : os.resolve (os.w_fs w1) dst = os.Ok (os.File g)) by (rewrite Hfs1; exact Hd).
    pose proof (calculateSHA256_file dst w1 g Hd1) as H2. rewrite Hpg, Hrdg in H2.
    destruct (stream.calculateSHA256 dst w1) as [w2 [h2 e2]]. cbn [fst snd] in *.
    inversion H2; subst h2 e2. rewrite Hdg, String.eqb_refl. reflexivity.
Qed.

(** The sha256 strategy answers only after it has read both files. *)
Lemma SHA256_NeedsUpdate_read src dst w w' b f :
  stream.NeedsUpdate stream.SHA256Strategy src dst w = (w', (b, None)) ->
  os.resolve (os.w_fs w) src = os.Ok (os.File f) ->
  readable f /\ exists g, os.resolve (os.w_fs w) dst = os.Ok (os.File g) /\ readable g.
Proof.
  intros H Hs. cbn [stream.NeedsUpdate] in H. unfold stream.SHA256_NeedsUpdate in H.
  pose proof (calculateSHA256_quiet src w) as (Hfs1 & _).
  pose proof (calculateSHA256_Ok src w) as H1.
  destruct (stream.calculateSHA256 src w) as [w1 [h1 [e1|]]]; [discriminate|].
  cbn [fst snd] in *.
  destruct (H1 h1 eq_refl) as (f1 & Hf1 & Hr1 & ->).
  rewrite Hs in Hf1. inversion Hf1; subst f1.
  pose proof (calculateSHA256_Ok dst w1) as H2.
  destruct (stream.calculateSHA256 dst w1) as [w2 [h2 [e2|]]]; [discriminate|].
  cbn [fst snd] in *.
  destruct (H2 h2 eq_refl) as (g & Hg & Hrg & ->).
  split; [exact Hr1|]. exists g. rewrite <- Hfs1. split; assumption.
Qed.

(* ================================================================= *)
(** ** processFileWithStrategy on a file below the source root *)

Lemma disjoint_roots_nonempty src dst rel :
  filepath.disjoint src dst = true -> dst ++ rel <> [].
Proof.
  intros H E. apply app_eq_nil in E. destruct E as [-> _].
  apply disjoint_spec in H. destruct H as [_ H]. discriminate.
Qed.

Section ProcessFile.
Variables src dst : path.
Hypothesis Hsrc : filepath.clean_path src = true.
Hypothesis Hdst : filepath.clean_path dst = true.
Hypothesis Hdis : filepath.disjoint src dst = true.

Lemma processFile_frame rel d st w w' r q :
  filepath.clean_path rel = true ->
  stream.processFileWithStrategy src dst (src ++ rel) d st w = (w', r) ->
  filepath.disjoint q (dst ++ rel) = true ->
  os.resolve (os.w_fs w') q = os.resolve (os.w_fs w) q.
Proof.
  intros Hrel H Hq. unfold stream.processFileWithStrategy in H.
  rewrite (Rel_below src rel Hsrc Hrel), (Join_clean dst rel Hdst Hrel) in H.
  assert (Hcd : filepath.clean_path (dst ++ rel) = true)
    by (rewrite clean_path_app, Hdst, Hrel; reflexivity).
  unfold os.Stat in H. cbn [os.log os.traced os.w_fs] in H.
  destruct (os.stat (os.w_fs w) (dst ++ rel)) as [i|e].
  - match type of H with
    | context [stream.NeedsUpdate st ?a ?b ?w0] =>
        pose proof (NeedsUpdate_quiet st a b w0) as (Hfs & _);
        destruct (stream.NeedsUpdate st a b w0) as [w1 [b0 [e|]]]
    end; cbn [fst os.log os.traced os.w_fs] in *.
    + inversion H; subst. cbn [os.log os.w_fs]. rewrite Hfs. reflexivity.
    + destruct b0.
      * rewrite (copyFile_frame _ _ _ _ _ _ Hcd H Hq). cbn [os.log os.w_fs].
        rewrite Hfs. reflexivity.
      * inversion H; subst. cbn [os.log os.w_fs]. rewrite Hfs. reflexivity.
  - destruct (os.IsNotExist e).
    + rewrite (copyFile_frame _ _ _ _ _ _ Hcd H Hq). reflexivity.
    + inversion H; subst. reflexivity.
Qed.

(** Nothing below the source root changes. *)
Lemma processFile_source rel d st w w' r q :
  filepath.clean_path rel = true ->
  stream.processFileWithStrategy src dst (src ++ rel) d st w = (w', r) ->
  filepath.is_prefix src q = true ->
  os.resolve (os.w_fs w') q = os.resolve (os.w_fs w) q.
Proof.
  intros Hrel H Hq. eapply processFile_frame; eauto.
  apply is_prefix_spec in Hq. destruct Hq as [x ->].
  apply disjoint_below. exact Hdis.
Qed.

(** Without error: the destination holds the bytes of the source, or it
    was found up to date and nothing was changed. *)
Lemma processFile_Ok rel d st w w' f :
  filepath.clean_path rel = true ->
  stream.processFileWithStrategy src dst (src ++ rel) d st w = (w', None) ->
  os.resolve (os.w_fs w) (src ++ rel) = os.Ok (os.File f) ->
  exists n, os.resolve (os.w_fs w') (dst ++ rel) = os.Ok n
            /\ (copied st f n \/ (quiet w w' /\ up_to_date st f n)).
Proof.
  intros Hrel H Hs. unfold stream.processFileWithStrategy in H.
  rewrite (Rel_below src rel Hsrc Hrel), (Join_clean dst rel Hdst Hrel) in H.
  assert (Hcd : filepath.clean_path (dst ++ rel) = true)
    by (rewrite clean_path_app, Hdst, Hrel; reflexivity).
  pose proof (disjoint_roots_nonempty src dst rel Hdis) as Hne.
  assert (Hsd : filepath.disjoint (src ++ rel) (dst ++ rel) = true)
    by (apply disjoint_below; exact Hdis).
  unfold os.Stat in H. cbn [os.log os.traced os.w_fs] in H.
  unfold os.stat in H.
  destruct (os.resolve (os.w_fs w) (dst ++ rel)) as [n0|e] eqn:Ed.
  - match type of H with
    | context [stream.NeedsUpdate st ?a ?b ?w0] =>
        pose proof (NeedsUpdate_quiet st a b w0) as Hq;
        pose proof (NeedsUpdate_false st a b w0) as Hfalse;
        destruct (stream.NeedsUpdate st a b w0) as [w1 [b0 [e|]]] eqn:ENU
    end; cbn [fst os.log os.traced os.w_fs] in *; [discriminate|].
    destruct b0.
    + match type of H with
      | stream.copyFile _ _ ?wc = _ =>
          assert (Hsc : os.resolve (os.w_fs wc) (src ++ rel) = os.Ok (os.File f))
            by (cbn [os.log os.w_fs]; rewrite (proj1 Hq); exact Hs);
          assert (Hdc : os.resolve (os.w_fs wc) (dst ++ rel) = os.Ok n0)
            by (cbn [os.log os.w_fs]; rewrite (proj1 Hq); exact Ed);
          destruct (copyFile_Ok _ _ _ _ f Hcd Hne Hsd H Hsc)
            as (Hpr & Hrd & g & Hg & Hdata & _ & Hshape)
      end.
      exists (os.File g). split; [exact Hg|]. left.
      split; [split; assumption|]. exists g. split; [reflexivity|]. split; [exact Hdata|].
      intros ->. rewrite Hdc in Hshape.
      destruct (SHA256_NeedsUpdate_read _ _ _ _ _ f ENU Hs) as (_ & g0 & Hg0 & Hrg0 & Hrg0').
      cbn [os.log os.traced os.w_fs] in Hg0.
      rewrite Ed in Hg0. inversion Hg0; subst n0.
      destruct Hshape as [Hp Hr]. split; congruence.
    + inversion H; subst.
      destruct (Hfalse _ f eq_refl Hs) as (n & Hn & Hu).
      exists n. split; [cbn [os.log os.w_fs]; rewrite (proj1 Hq); exact Hn|].
      right. split; [|exact Hu].
      eapply quiet_trans; [|apply quiet_log].
      eapply quiet_trans; [|exact Hq].
      eapply quiet_trans; [apply quiet_log|apply quiet_traced; reflexivity].
  - destruct (os.IsNotExist e) eqn:Ene; [|discriminate].
    match type of H with
    | stream.copyFile _ _ ?wc = _ =>
        destruct (copyFile_Ok _ _ wc _ f Hcd Hne Hsd H Hs)
          as (Hpr & Hrd & g & Hg & Hdata & _ & Hshape)
    end.
    cbn [os.log os.traced os.w_fs] in Hshape. rewrite Ed in Hshape.
    exists (os.File g). split; [exact Hg|]. left.
    split; [split; assumption|]. exists g. split; [reflexivity|]. split; [exact Hdata|].
    intros _. destruct Hshape as [Hp Hr]. split; [rewrite Hp; reflexivity|exact Hr].
Qed.

(** On a destination that is up to date nothing is changed. *)
Lemma processFile_up_to_date rel d st w f n :
  filepath.clean_path rel = true ->
  os.resolve (os.w_fs w) (src ++ rel) = os.Ok (os.File f) ->
  os.resolve (os.w_fs w) (dst ++ rel) = os.Ok n ->
  up_to_date st f n ->
  exists w', stream.processFileWithStrategy src dst (src ++ rel) d st w = (w', None)
             /\ quiet w w'.
Proof.
  intros Hrel Hs Hd Hu. unfold stream.processFileWithStrategy.
  rewrite (Rel_below src rel Hsrc Hrel), (Join_clean dst rel Hdst Hrel).
  unfold os.Stat. cbn [os.log os.traced os.w_fs].
  rewrite (stat_resolve _ _ _ Hd).
  match goal with
  | |- context [stream.NeedsUpdate st ?a ?b ?w0] =>
      pose proof (NeedsUpdate_quiet st a b w0) as Hq;
      pose proof (NeedsUpdate_up_to_date st a b w0 f n Hs Hd Hu) as Hr;
      destruct (stream.NeedsUpdate st a b w0) as [w1 [b0 e]]
  end.
  cbn [fst snd] in *. inversion Hr; subst b0 e.
  eexists. split; [reflexivity|].
  eapply quiet_trans; [|apply quiet_log].
  eapply quiet_trans; [|exact Hq].
  eapply quiet_trans; [apply quiet_log|apply quiet_traced; reflexivity].
Qed.

End ProcessFile.

(* ================================================================= *)
(** ** Fuel *)

(** More fuel does not change what a walk returns. *)
Section WalkFuel.
Context {C : Type}.
Variable fn : WalkDirFunc (C := C).

Lemma walkEntries_mono
    (rec1 rec2 : path -> os.DirEntry -> C -> os.World -> option (C * os.World * option error))
    dir :
  (forall p d c w x, rec1 p d c w = Some x -> rec2 p d c w = Some x) ->
  forall dirs c w x,
    walkEntries rec1 dir dirs c w = Some x -> walkEntries rec2 dir dirs c w = Some x.
Proof.
  intros Hrec dirs. induction dirs as [|d1 dirs IH]; simpl; intros c w x H; [exact H|].
  destruct (rec1 (filepath.Join dir [os.de_name d1]) d1 c w) as [[[c1 w1] e1]|] eqn:E;
    [|discriminate].
  rewrite (Hrec _ _ _ _ _ E). destruct e1; [exact H|]. apply IH. exact H.
Qed.

Lemma walkDir_S : forall fuel p d c w x,
  walkDir fn fuel p d c w = Some x -> walkDir fn (S fuel) p d c w = Some x.
Proof.
  induction fuel as [|fuel IH]; intros p d c w x H; [discriminate|].
  cbn [walkDir] in H. cbn [walkDir].
  destruct (fn p (Some d) None c w) as [[c1 w1] e1].
  destruct e1; [exact H|].
  destruct (negb (os.de_isdir d)); [exact H|].
  destruct (os.ReadDir p w1) as [w2 r].
  destruct (match r with
            | os.Err e => fn p (Some d) (Some (PathError "open" p e)) c1 w2
            | os.Ok _ => (c1, w2, None)
            end) as [[c3 w3] e3].
  destruct e3; [exact H|].
  eapply walkEntries_mono; [|exact H]. intros; apply IH; assumption.
Qed.

Lemma walkDir_mono fuel fuel' p d c w x :
  (fuel <= fuel')%nat ->
  walkDir fn fuel p d c w = Some x -> walkDir fn fuel' p d c w = Some x.
Proof.
  intros Hle H. induction Hle; [exact H|]. apply walkDir_S. assumption.
Qed.

Lemma WalkDir_mono fuel fuel' root c w x :
  (fuel <= fuel')%nat ->
  WalkDir fn fuel root c w = Some x -> WalkDir fn fuel' root c w = Some x.
Proof.
  unfold WalkDir. intros Hle H.
  destruct (os.Lstat root w) as [w1 [i|e]]; [|exact H].
  eapply walkDir_mono; eauto.
Qed.

End WalkFuel.

(* ================================================================= *)
(** ** Heights *)

Lemma height_resolve p : forall n n',
  os.resolve n p = os.Ok n' -> (os.height n' <= os.height n)%nat.
Proof.
  induction p as [|c p IH]; intros n n' H; simpl in H.
  - inversion H; subst. apply Nat.le_refl.
  - destruct n as [f|m es]; [discriminate|].
    destruct (os.p_r (os.d_perm m)); [|discriminate].
    destruct (os.lookup_entry c es) as [ch|] eqn:El; [|discriminate].
    apply lookup_entry_In in El. pose proof (height_child m es c ch El).
    specialize (IH _ _ H). lia.
Qed.

Lemma height_Dir_le m m' es es' :
  (forall k v, In (k, v) es ->
               exists v', In (k, v') es' /\ (os.height v <= os.height v')%nat) ->
  (os.height (os.Dir m es) <= os.height (os.Dir m' es'))%nat.
Proof.
  intro H. simpl. apply le_n_S.
  induction es as [|[k v] es IH]; [apply Nat.le_0_l|].
  apply Nat.max_lub.
  - destruct (H k v (or_introl eq_refl)) as (v' & Hin & Hle).
    pose proof (height_child m' es' k v' Hin) as Hc. simpl in Hc. cbn [snd]. lia.
  - apply IH. intros k0 v0 Hin. apply H. right. exact Hin.
Qed.

Lemma In_remove_entry c es k v : In (k, v) (os.remove_entry c es) -> In (k, v) es.
Proof.
  induction es as [|[k0 v0] es IH]; simpl; [tauto|].
  destruct (String.eqb k0 c); simpl; intuition.
Qed.

Lemma In_map_entry c f es k v :
  In (k, v) (os.map_entry c f es) ->
  In (k, v) es \/ exists v0, In (k, v0) es /\ v = f v0.
Proof.
  induction es as [|[k0 v0] es IH]; simpl; [tauto|].
  destruct (String.eqb k0 c); simpl.
  - intros [H|H].
    + inversion H; subst. right. exists v0. split; [left; reflexivity|reflexivity].
    + left. right. exact H.
  - intros [H|H]; [left; left; exact H|].
    destruct (IH H) as [H'|(v1 & H1 & H2)]; [left; right; exact H'|].
    right. exists v1. split; [right; exact H1|exact H2].
Qed.

(** Removing an entry makes no node taller. *)
Lemma put_None_height p : forall n, (os.height (os.put p None n) <= os.height n)%nat.
Proof.
  induction p as [|c p IH]; intros n.
  - destruct n; apply Nat.le_refl.
  - destruct n as [f|m es]; [apply Nat.le_refl|].
    destruct p as [|c2 p].
    + rewrite put_single. cbn [os.set_entry]. apply height_Dir_le.
      intros k v Hin. exists v. split; [eapply In_remove_entry; exact Hin|apply Nat.le_refl].
    + rewrite put_cons by discriminate. apply height_Dir_le.
      intros k v Hin. destruct (In_map_entry _ _ _ _ _ Hin) as [H|(v0 & H0 & ->)].
      * exists v. split; [exact H|apply Nat.le_refl].
      * exists v0. split; [exact H0|apply IH].
Qed.

Lemma put_None_resolve p : forall n q x,
  os.resolve (os.put p None n) q = os.Ok x ->
  exists x0, os.resolve n q = os.Ok x0 /\ (os.height x <= os.height x0)%nat.
Proof.
  induction p as [|c p IH]; intros n q x H.
  - destruct n; simpl in H; exists x; (split; [exact H|apply Nat.le_refl]).
  - destruct q as [|k q].
    { cbn [os.resolve] in H.
      assert (Hx : x = os.put (c :: p) None n) by congruence. subst x. exists n.
      split; [reflexivity|apply put_None_height]. }
    destruct n as [f|m es]; [simpl in H; discriminate|].
    destruct p as [|c2 p].
    + rewrite put_single in H. cbn [os.resolve] in H. cbn [os.resolve].
      destruct (os.p_r (os.d_perm m)); [|discriminate].
      destruct (String.eqb_spec k c) as [->|Hne].
      * rewrite lookup_set_same in H. discriminate.
      * rewrite lookup_set_other in H by exact Hne.
        destruct (os.lookup_entry k es); [|discriminate].
        exists x. split; [exact H|apply Nat.le_refl].
    + rewrite put_cons in H by discriminate. cbn [os.resolve] in H. cbn [os.resolve].
      destruct (os.p_r (os.d_perm m)); [|discriminate].
      destruct (String.eqb_spec k c) as [->|Hne].
      * rewrite lookup_map_same in H.
        destruct (os.lookup_entry c es) as [ch|]; cbn [option_map] in H; [|discriminate].
        apply IH. exact H.
      * rewrite lookup_map_other in H by exact Hne.
        destruct (os.lookup_entry k es); [|discriminate].
        exists x. split; [exact H|apply Nat.le_refl].
Qed.

Lemma shrunk_refl fs : shrunk fs fs.
Proof. intros q n H. exists n. split; [exact H|apply Nat.le_refl]. Qed.

Lemma shrunk_put_None fs0 fs p : shrunk fs0 fs -> shrunk fs0 (os.put p None fs).
Proof.
  intros H q n Hq. destruct (put_None_resolve _ _ _ _ Hq) as (x0 & Hx0 & Hle).
  destruct (H _ _ Hx0) as (n0 & Hn0 & Hle0). exists n0. split; [exact Hn0|lia].
Qed.

(* ================================================================= *)
(** ** A walk over a tree that does not grow returns *)

Section WalkShrinking.
Context {C : Type}.
Variable fn : WalkDirFunc (C := C).
Variable fs0 : os.node.
Hypothesis fs0_wf : os.wf fs0 = true.
Hypothesis fn_shrinks : forall p d e c w c' w' r,
  shrunk fs0 (os.w_fs w) -> fn p d e c w = (c', w', r) -> shrunk fs0 (os.w_fs w').

Lemma In_lookup_entry k v es : In (k, v) es -> exists v', os.lookup_entry k es = Some v'.
Proof.
  induction es as [|[k0 v0] es IH]; simpl; [tauto|].
  intros [H|H].
  - inversion H; subst. rewrite String.eqb_refl. eauto.
  - destruct (String.eqb k0 k); eauto.
Qed.

Lemma walkDir_shrinking : forall fuel p d c w n0,
  os.resolve fs0 p = os.Ok n0 -> (os.height n0 < fuel)%nat ->
  shrunk fs0 (os.w_fs w) ->
  exists c' w' r, walkDir fn fuel p d c w = Some (c', w', r) /\ shrunk fs0 (os.w_fs w').
Proof.
  induction fuel as [|fuel IH]; intros p d c w n0 Hp Hh Hs; [lia|].
  cbn [walkDir].
  destruct (fn p (Some d) None c w) as [[c1 w1] e1] eqn:E1.
  pose proof (fn_shrinks _ _ _ _ _ _ _ _ Hs E1) as Hs1.
  destruct e1 as [e1|]; [eauto|].
  destruct (negb (os.de_isdir d)); [eauto|].
  unfold os.ReadDir.
  destruct (os.readdir (os.w_fs w1) p) as [l|e] eqn:ER.
  - assert (Hl : forall d1, In d1 l ->
               exists n1, os.resolve fs0 (p ++ [os.de_name d1]) = os.Ok n1
                          /\ (os.height n1 < fuel)%nat).
    { intros d1 Hin. unfold os.readdir in ER.
      destruct (os.resolve (os.w_fs w1) p) as [[f|m es]|e] eqn:Er; try discriminate.
      destruct (os.p_r (os.d_perm m)) eqn:Epr; [|discriminate].
      inversion ER; subst l. apply in_map_iff in Hin. destruct Hin as ([k v] & <- & Hin).
      cbn [os.de_name fst].
      destruct (In_lookup_entry _ _ _ Hin) as [v' Hv'].
      assert (Hr : os.resolve (os.w_fs w1) (p ++ [k]) = os.Ok v').
      { rewrite resolve_app, Er. simpl. rewrite Epr, Hv'. reflexivity. }
      destruct (Hs1 _ _ Hr) as (n1 & Hn1 & _). exists n1. split; [exact Hn1|].
      destruct (resolve_last _ _ _ _ Hn1) as (m0 & es0 & Hd0 & _ & Hl0).
      rewrite Hp in Hd0. inversion Hd0; subst n0.
      apply lookup_entry_In in Hl0. pose proof (height_child m0 es0 k n1 Hl0). lia. }
    pose proof (resolve_clean _ _ _ fs0_wf Hp) as Hcp.
    assert (Hs2 : shrunk fs0 (os.w_fs (os.traced (os.CReadDir p) w1))) by exact Hs1.
    revert Hl Hs2. generalize (os.traced (os.CReadDir p) w1). generalize c1.
    clear ER. induction l as [|d1 l IHl]; intros c0 w0 Hl Hs0; cbn [walkEntries]; [eauto|].
    destruct (Hl d1 (or_introl eq_refl)) as (n1 & Hn1 & Hh1).
    pose proof (resolve_clean _ _ _ fs0_wf Hn1) as Hc1.
    apply clean_path_app_inv in Hc1. destruct Hc1 as [_ Hc1].
    rewrite (Join_clean p [os.de_name d1] Hcp Hc1).
    destruct (IH (p ++ [os.de_name d1]) d1 c0 w0 n1 Hn1 Hh1 Hs0) as (c' & w' & r & E & Hs').
    rewrite E. destruct r as [e|]; [eauto|].
    apply IHl; [|exact Hs']. intros d2 Hin. apply Hl. right. exact Hin.
  - destruct (fn p (Some d) (Some (PathError "open" p e)) c1 (os.traced (os.CReadDir p) w1))
      as [[c3 w3] e3] eqn:E3.
    assert (Hs3 : shrunk fs0 (os.w_fs w3)).
    { eapply fn_shrinks; [|exact E3]. exact Hs1. }
    destruct e3; cbn [walkEntries]; eauto.
Qed.

Lemma WalkDir_shrinking fuel root c w :
  os.w_fs w = fs0 -> (os.height fs0 < fuel)%nat ->
  exists c' w' r, WalkDir fn fuel root c w = Some (c', w', r) /\ shrunk fs0 (os.w_fs w').
Proof.
  intros Hw Hh. unfold WalkDir, os.Lstat, os.stat.
  assert (Hs : shrunk fs0 (os.w_fs (os.traced (os.CLstat root) w)))
    by (cbn [os.traced os.w_fs]; rewrite Hw; apply shrunk_refl).
  destruct (os.resolve (os.w_fs w) root) as [n0|e] eqn:Er.
  - rewrite Hw in Er. pose proof (height_resolve _ _ _ Er).
    eapply walkDir_shrinking; [exact Er|lia|exact Hs].
  - destruct (fn root None (Some (PathError "lstat" root e)) c
                (os.traced (os.CLstat root) w)) as [[c' w'] r] eqn:E.
    exists c', w', r. split; [reflexivity|]. eapply fn_shrinks; [|exact E]. exact Hs.
Qed.

End WalkShrinking.

(* ================================================================= *)
(** ** The operations keep a tree well-formed *)

Lemma names_ok_intro l : forall seen,
  (forall c, In c l -> filepath.proper c = true /\ ~ In c seen) -> NoDup l ->
  os.names_ok seen l = true.
Proof.
  induction l as [|c l IH]; intros seen Hall Hnd; simpl; [reflexivity|].
  inversion Hnd as [|? ? Hnotin Hnd']; subst.
  destruct (Hall c (or_introl eq_refl)) as [Hp Hs].
  rewrite Hp. cbn [andb].
  destruct (existsb (String.eqb c) seen) eqn:E.
  - exfalso. apply existsb_exists in E. destruct E as (x & Hx & Ex).
    apply String.eqb_eq in Ex. subst x. exact (Hs Hx).
  - cbn [negb andb]. apply IH; [|exact Hnd'].
    intros x Hx. destruct (Hall x (or_intror Hx)) as [Hpx Hsx]. split; [exact Hpx|].
    intros [<-|Hin]; [exact (Hnotin Hx)|exact (Hsx Hin)].
Qed.

Lemma map_fst_replace_entry c x es : map fst (os.replace_entry c x es) = map fst es.
Proof.
  induction es as [|[k v] es IH]; simpl; [reflexivity|].
  destruct (String.eqb k c); simpl; [reflexivity|]. rewrite IH. reflexivity.
Qed.

Lemma forallb_wf_replace c x es :
  os.wf x = true ->
  forallb (fun kv => os.wf (snd kv)) es = true ->
  forallb (fun kv => os.wf (snd kv)) (os.replace_entry c x es) = true.
Proof.
  intro Hx. induction es as [|[k v] es IH]; simpl; [reflexivity|].
  rewrite andb_true_iff. intros [Hv Hl].
  destruct (String.eqb k c); simpl.
  - rewrite Hx. exact Hl.
  - rewrite Hv. exact (IH Hl).
Qed.

Lemma In_insert_entry c x es kv :
  In kv (os.insert_entry c x es) <-> kv = (c, x) \/ In kv es.
Proof.
  induction es as [|[k v] es IH]; simpl; [intuition congruence|].
  destruct (String.ltb c k); simpl; [intuition congruence|].
  rewrite IH. intuition congruence.
Qed.

Lemma NoDup_insert_entry c x es :
  ~ In c (map fst es) -> NoDup (map fst es) -> NoDup (map fst (os.insert_entry c x es)).
Proof.
  induction es as [|[k v] es IH]; simpl; intros Hc Hnd.
  - constructor; [intros []|constructor].
  - destruct (String.ltb c k); simpl.
    + constructor; [exact Hc|exact Hnd].
    + inversion Hnd as [|? ? Hnotin Hnd']; subst. constructor.
      * intro Hin. apply in_map_iff in Hin. destruct Hin as ([k' v'] & Hk & Hin).
        simpl in Hk. subst k'. apply In_insert_entry in Hin. destruct Hin as [Heq|Hin].
        -- inversion Heq; subst. apply Hc. left. reflexivity.
        -- apply Hnotin. change k with (fst (k, v')). apply in_map. exact Hin.
      * apply IH; [|exact Hnd']. intro Hin. apply Hc. right. exact Hin.
Qed.

Lemma lookup_entry_None c es : os.lookup_entry c es = None -> ~ In c (map fst es).
Proof.
  induction es as [|[k v] es IH]; simpl; [tauto|].
  destruct (String.eqb_spec k c) as [->|Hne]; [discriminate|].
  intros H [Hk|Hin]; [contradiction|exact (IH H Hin)].
Qed.

Lemma wf_set_entry m es c x :
  filepath.proper c = true -> os.wf x = true -> os.wf (os.Dir m es) = true ->
  os.wf (os.Dir m (os.set_entry c (Some x) es)) = true.
Proof.
  intros Hc Hx. rewrite !wf_Dir, !andb_true_iff. intros [Hn Hf].
  cbn [os.set_entry]. destruct (os.lookup_entry c es) as [v|] eqn:El.
  - rewrite map_fst_replace_entry. split; [exact Hn|].
    apply forallb_wf_replace; assumption.
  - destruct (names_ok_spec _ _ Hn) as [Hall Hnd]. split.
    + apply names_ok_intro.
      * intros k Hk. split; [|intros []].
        apply in_map_iff in Hk. destruct Hk as ([k' v'] & Hk & Hin). simpl in Hk. subst k'.
        apply In_insert_entry in Hin. destruct Hin as [Heq|Hin].
        -- inversion Heq; subst. exact Hc.
        -- apply (Hall k). change k with (fst (k, v')). apply in_map. exact Hin.
      * apply NoDup_insert_entry; [apply lookup_entry_None; exact El|exact Hnd].
    + rewrite forallb_forall in *. intros kv Hin.
      apply In_insert_entry in Hin. destruct Hin as [->|Hin]; [exact Hx|exact (Hf _ Hin)].
Qed.

(** Setting a well-formed node at a clean path keeps a tree
    well-formed. *)
Lemma wf_put_Some x p : forall n,
  filepath.clean_path p = true -> os.wf x = true -> os.wf n = true ->
  os.wf (os.put p (Some x) n) = true.
Proof.
  induction p as [|c p IH]; intros n Hp Hx Hw.
  - destruct n; exact Hw.
  - destruct n as [f|m es]; [exact Hw|].
    simpl in Hp. apply andb_true_iff in Hp. destruct Hp as [Hc Hp].
    destruct p as [|c2 p].
    + rewrite put_single. apply wf_set_entry; assumption.
    + rewrite put_cons by discriminate.
      rewrite wf_Dir, andb_true_iff in Hw. destruct Hw as [Hn Hf].
      rewrite wf_Dir, map_fst_map_entry, Hn.
      rewrite forallb_wf_map; [reflexivity| |exact Hf].
      intros v Hv. apply IH; assumption.
Qed.

Lemma wf_mkdir fs p pm now fs' :
  filepath.clean_path p = true -> os.wf fs = true ->
  os.mkdir fs p pm now = os.Ok fs' -> os.wf fs' = true.
Proof.
  intros Hp Hw H. destruct (mkdir_Ok _ _ _ _ _ H) as (_ & -> & _).
  apply wf_put_Some; [exact Hp|reflexivity|exact Hw].
Qed.

Lemma wf_mkdirall_from pm now : forall todo done fs fs' e,
  filepath.clean_path (done ++ todo) = true -> os.wf fs = true ->
  os.mkdirall_from done todo pm now fs = (fs', e) -> os.wf fs' = true.
Proof.
  induction todo as [|c todo IH]; intros done fs fs' e Hp Hw H; simpl in H.
  - inversion H; subst. exact Hw.
  - assert (Hp2 : filepath.clean_path ((done ++ [c]) ++ todo) = true)
      by (rewrite <- app_assoc; exact Hp).
    assert (Hp1 : filepath.clean_path (done ++ [c]) = true)
      by (apply clean_path_app_inv in Hp2; tauto).
    destruct (os.stat fs (done ++ [c])) as [i|e0].
    + destruct (os.fi_isdir i); [eapply IH; eauto|inversion H; subst; exact Hw].
    + destruct (os.mkdir fs (done ++ [c]) pm now) as [fs1|e1] eqn:Em.
      * eapply IH; [exact Hp2| |exact H]. eapply wf_mkdir; eauto.
      * inversion H; subst. exact Hw.
Qed.

Lemma wf_mkdirall fs p pm now fs' e :
  filepath.clean_path p = true -> os.wf fs = true ->
  os.mkdirall fs p pm now = (fs', e) -> os.wf fs' = true.
Proof. intros Hp Hw H. eapply wf_mkdirall_from with (done := []); eauto. Qed.

Lemma wf_create fs p now fs' :
  filepath.clean_path p = true -> os.wf fs = true ->
  os.create fs p now = os.Ok fs' -> os.wf fs' = true.
Proof.
  intros Hp Hw H. unfold os.create in H.
  destruct (os.resolve fs p) as [[f|m es]|e]; try discriminate.
  - destruct (os.p_w (os.f_perm f)); [|discriminate].
    inversion H; subst. apply wf_put_Some; [exact Hp|reflexivity|exact Hw].
  - destruct e; try discriminate.
    destruct (os.writable_parent fs p) as [[]|e]; [|discriminate].
    inversion H; subst. apply wf_put_Some; [exact Hp|reflexivity|exact Hw].
Qed.

Lemma wf_write_all fs p data now :
  os.wf fs = true -> os.wf (os.write_all fs p data now) = true.
Proof.
  intro Hw. unfold os.write_all.
  destruct (os.resolve fs p) as [[f|m es]|e] eqn:Er; try exact Hw.
  apply wf_put_Some; [eapply resolve_clean; eauto|reflexivity|exact Hw].
Qed.

Lemma wf_chtimes fs p t fs' :
  os.wf fs = true -> os.chtimes fs p t = os.Ok fs' -> os.wf fs' = true.
Proof.
  intros Hw H. unfold os.chtimes in H.
  destruct (os.resolve fs p) as [[f|m es]|e] eqn:Er; try discriminate.
  - destruct (os.f_own f); [|discriminate]. inversion H; subst.
    apply wf_put_Some; [eapply resolve_clean; eauto|reflexivity|exact Hw].
  - inversion H; subst.
    apply wf_put_Some; [eapply resolve_clean; eauto| |exact Hw].
    pose proof (wf_resolve _ _ _ Hw Er) as Hd. rewrite wf_Dir in *. exact Hd.
Qed.

Lemma wf_remove fs p fs' : os.wf fs = true -> os.remove fs p = os.Ok fs' -> os.wf fs' = true.
Proof.
  intros Hw H. destruct (remove_Ok _ _ _ H) as (-> & _). apply wf_put_None. exact Hw.
Qed.

Lemma clean_onto_proper acc p :
  forallb filepath.proper acc = true ->
  forallb filepath.proper (filepath.clean_onto acc p) = true.
Proof.
  revert acc. induction p as [|c p IH]; intros acc Ha; simpl; [exact Ha|].
  destruct (String.eqb c "") eqn:E1; [apply IH; exact Ha|].
  destruct (String.eqb c ".") eqn:E2; [apply IH; exact Ha|].
  cbn [orb]. destruct (String.eqb c "..") eqn:E3.
  - apply IH. destruct acc as [|a acc]; [reflexivity|].
    simpl in Ha. apply andb_true_iff in Ha. tauto.
  - apply IH. simpl. rewrite Ha. unfold filepath.proper. rewrite E1, E2, E3. reflexivity.
Qed.

(** What [Clean] returns is clean. *)
Lemma Clean_is_clean p : filepath.clean_path (filepath.Clean p) = true.
Proof.
  unfold filepath.Clean, filepath.clean_path.
  pose proof (clean_onto_proper [] p eq_refl) as H.
  rewrite forallb_forall in *. intros x Hx. apply H. apply in_rev. exact Hx.
Qed.

Lemma clean_path_removelast p :
  filepath.clean_path p = true -> filepath.clean_path (removelast p) = true.
Proof.
  intro H. destruct p as [|c p]; [reflexivity|].
  assert (Hne : c :: p <> []) by discriminate.
  destruct (path_snoc _ Hne) as (d & x & E). rewrite E in *.
  rewrite removelast_snoc. apply clean_path_app_inv in H. tauto.
Qed.

Lemma wf_copyFile_contents src dst w w' r :
  os.wf (os.w_fs w) = true ->
  stream.copyFile_contents src dst w = (w', r) -> os.wf (os.w_fs w') = true.
Proof.
  unfold stream.copyFile_contents, os.Copy, os.Fstat, os.Chtimes, os.Now. intros Hw H.
  pose proof (wf_write_all (os.w_fs w) dst) as Hwa.
  destruct (os.read_all (os.w_fs w) src) as [data [e|]].
  - inversion H; subst. cbn [os.log os.with_fs os.traced os.w_fs]. apply Hwa. exact Hw.
  - cbn [os.log os.with_fs os.traced os.w_fs os.w_now] in H.
    destruct (os.stat (os.write_all (os.w_fs w) dst data (os.w_now w)) src) as [i|e].
    + destruct (os.chtimes (os.write_all (os.w_fs w) dst data (os.w_now w)) dst (os.fi_mtime i))
        as [fs'|e] eqn:Ec; inversion H; subst; cbn [os.log os.with_fs os.traced os.w_fs].
      * eapply wf_chtimes; [|exact Ec]. apply Hwa. exact Hw.
      * apply Hwa. exact Hw.
    + inversion H; subst. cbn [os.log os.with_fs os.traced os.w_fs]. apply Hwa. exact Hw.
Qed.

Lemma wf_copyFile src dst w w' r :
  filepath.clean_path dst = true -> os.wf (os.w_fs w) = true ->
  stream.copyFile src dst w = (w', r) -> os.wf (os.w_fs w') = true.
Proof.
  intros Hc Hw H. unfold stream.copyFile, os.MkdirAll, os.Open, os.Create in H.
  rewrite (Dir_clean dst Hc) in H.
  cbn [os.log os.w_fs os.w_now] in H.
  destruct (os.mkdirall (os.w_fs w) (removelast dst) os.mode_0755 (os.w_now w))
    as [fs1 e1] eqn:Em.
  assert (H1 : os.wf fs1 = true).
  { eapply wf_mkdirall; [|exact Hw|exact Em]. apply clean_path_removelast. exact Hc. }
  destruct e1 as [e1|].
  { inversion H; subst. exact H1. }
  cbn [os.log os.with_fs os.traced os.w_fs os.w_now] in H.
  destruct (os.open fs1 src) as [[]|e2].
  2: { inversion H; subst. exact H1. }
  destruct (os.create fs1 dst (os.w_now w)) as [fs3|e3] eqn:Ecr.
  2: { inversion H; subst. exact H1. }
  match type of H with
  | context [stream.copyFile_contents src dst ?w3] =>
      destruct (stream.copyFile_contents src dst w3) as [w4 r4] eqn:Ecc
  end.
  unfold stream.deferred_close, os.Close in H. inversion H; subst.
  eapply wf_copyFile_contents; [|exact Ecc].
  cbn [os.with_fs os.traced os.w_fs]. eapply wf_create; [exact Hc|exact H1|exact Ecr].
Qed.

Lemma wf_processFile srcRoot dstRoot p d st w w' r :
  os.wf (os.w_fs w) = true ->
  stream.processFileWithStrategy srcRoot dstRoot p d st w = (w', r) ->
  os.wf (os.w_fs w') = true.
Proof.
  intros Hw H. unfold stream.processFileWithStrategy in H.
  destruct (filepath.Rel srcRoot p) as [rel|]; [|inversion H; subst; exact Hw].
  assert (Hcd : filepath.clean_path (filepath.Join dstRoot rel) = true)
    by apply Clean_is_clean.
  unfold os.Stat in H. cbn [os.log os.traced os.w_fs] in H.
  destruct (os.stat (os.w_fs w) (filepath.Join dstRoot rel)) as [i|e].
  - match type of H with
    | context [stream.NeedsUpdate st ?a ?b ?w0] =>
        pose proof (NeedsUpdate_quiet st a b w0) as (Hfs & _);
        destruct (stream.NeedsUpdate st a b w0) as [w1 [b0 [e|]]]
    end; cbn [fst os.log os.traced os.w_fs] in *.
    + inversion H; subst. cbn [os.log os.w_fs]. rewrite Hfs. exact Hw.
    + destruct b0.
      * eapply wf_copyFile; [exact Hcd| |exact H]. cbn [os.log os.w_fs]. rewrite Hfs. exact Hw.
      * inversion H; subst. cbn [os.log os.w_fs]. rewrite Hfs. exact Hw.
  - destruct (os.IsNotExist e).
    + eapply wf_copyFile; [exact Hcd| |exact H]. exact Hw.
    + inversion H; subst. exact Hw.
Qed.

Lemma wf_syncFn cfg st p d e c w c' w' r :
  os.wf (os.w_fs w) = true ->
  stream.syncFn cfg st p d e c w = (c', w', r) -> os.wf (os.w_fs w') = true.
Proof.
  intros Hw H. unfold stream.syncFn in H.
  destruct e; [inversion H; subst; exact Hw|].
  destruct (match d with Some d0 => os.de_isdir d0 | None => false end);
    [inversion H; subst; exact Hw|].
  match type of H with
  | context [stream.processFileWithStrategy ?a ?b ?p0 ?d0 ?s0 ?w0] =>
      pose proof (wf_processFile a b p0 d0 s0 w0) as HP;
      destruct (stream.processFileWithStrategy a b p0 d0 s0 w0) as [w1 [e1|]]
  end; inversion H; subst; cbn [os.log os.w_fs]; eapply HP; eauto.
Qed.

Lemma wf_Sync_walk fuel cfg w c w' e :
  os.wf (os.w_fs w) = true ->
  stream.Sync_walk fuel cfg w = Some (c, w', e) -> os.wf (os.w_fs w') = true.
Proof.
  intros Hw H. unfold stream.Sync_walk in H.
  destruct (stream.NewUpdateStrategy (config.UpdateMethod cfg)) as [st|err].
  - match type of H with
    | context [WalkDir ?f ?fu ?root ?c0 ?w0] =>
        destruct (WalkDir f fu root c0 w0) as [[[c1 w1] r1]|] eqn:EW; [|discriminate];
        apply (WalkDir_inv f (fun _ x => os.wf (os.w_fs x) = true) (fun _ => True)) in EW; auto
    end.
    + destruct EW as [HI ->]. inversion H; subst. exact HI.
    + intros. split; [eapply wf_syncFn; eauto|eapply syncFn_nil; eauto].
  - inversion H; subst. exact Hw.
Qed.

(** All [deleteFn] does to the tree is to remove the entry it is called
    on. *)
Lemma deleteFn_fs src dst p d e c w c' w' r :
  stream.deleteFn src dst p d e c w = (c', w', r) ->
  os.w_fs w' = os.w_fs w \/ os.remove (os.w_fs w) p = os.Ok (os.w_fs w').
Proof.
  intro H. unfold stream.deleteFn in H.
  destruct e; [inversion H; subst; left; reflexivity|].
  destruct (match d with Some d0 => os.de_isdir d0 | None => false end);
    [inversion H; subst; left; reflexivity|].
  destruct (filepath.Rel dst p) as [rel|]; [|inversion H; subst; left; reflexivity].
  unfold os.Stat, os.Remove in H. cbn [os.log os.traced os.w_fs] in H.
  destruct (os.stat (os.w_fs w) (filepath.Join src rel)) as [i|e];
    [inversion H; subst; left; reflexivity|].
  destruct (os.IsNotExist e); [|inversion H; subst; left; reflexivity].
  destruct (os.remove (os.w_fs w) p) as [fs'|e'] eqn:Erm; inversion H; subst.
  - right. reflexivity.
  - left. reflexivity.
Qed.

Lemma wf_deleteFn src dst p d e c w c' w' r :
  os.wf (os.w_fs w) = true ->
  stream.deleteFn src dst p d e c w = (c', w', r) -> os.wf (os.w_fs w') = true.
Proof.
  intros Hw H. destruct (deleteFn_fs _ _ _ _ _ _ _ _ _ _ H) as [E|E].
  - rewrite E. exact Hw.
  - eapply wf_remove; eauto.
Qed.

Lemma deleteFn_shrinks fs0 src dst p d e c w c' w' r :
  shrunk fs0 (os.w_fs w) ->
  stream.deleteFn src dst p d e c w = (c', w', r) -> shrunk fs0 (os.w_fs w').
Proof.
  intros Hs H. destruct (deleteFn_fs _ _ _ _ _ _ _ _ _ _ H) as [E|E].
  - rewrite E. exact Hs.
  - destruct (remove_Ok _ _ _ E) as (-> & _). apply shrunk_put_None. exact Hs.
Qed.

Lemma wf_validateDir p opts w :
  filepath.clean_path p = true -> os.wf (os.w_fs w) = true ->
  os.wf (os.w_fs (fst (dir.validateDir p opts w))) = true.
Proof.
  intros Hp Hw. unfold dir.validateDir, os.Stat, os.MkdirAll.
  cbn [os.traced os.w_fs os.w_now].
  destruct (os.stat (os.w_fs w) p) as [i|e].
  - destruct (negb (os.fi_isdir i)); exact Hw.
  - destruct (os.IsNotExist e && dir.allowCreate (dir.newConfig opts)); [|exact Hw].
    destruct (os.mkdirall (os.w_fs w) p (dir.perm (dir.newConfig opts)) (os.w_now w))
      as [fs' e'] eqn:Em.
    pose proof (wf_mkdirall _ _ _ _ _ _ Hp Hw Em) as H.
    destruct e'; exact H.
Qed.

(** The validation of the source changes nothing. *)
Lemma validateDir_plain p w : os.w_fs (fst (dir.validateDir p [] w)) = os.w_fs w.
Proof.
  unfold dir.validateDir, os.Stat. cbn [os.traced os.w_fs dir.newConfig fold_left dir.allowCreate].
  destruct (os.stat (os.w_fs w) p) as [i|e].
  - destruct (negb (os.fi_isdir i)); reflexivity.
  - rewrite andb_false_r. reflexivity.
Qed.

Lemma wf_ValidateSyncDirs src dst w :
  filepath.clean_path dst = true -> os.wf (os.w_fs w) = true ->
  os.wf (os.w_fs (fst (dir.ValidateSyncDirs src dst w))) = true.
Proof.
  intros Hd Hw. unfold dir.ValidateSyncDirs.
  pose proof (validateDir_plain src w) as H1.
  destruct (dir.validateDir src [] w) as [w1 [e1|]]; cbn [fst] in *.
  - rewrite H1. exact Hw.
  - assert (Hw1 : os.wf (os.w_fs w1) = true) by (rewrite H1; exact Hw).
    pose proof (wf_validateDir dst [dir.withAllowCreate] w1 Hd Hw1) as H2.
    destruct (dir.validateDir dst [dir.withAllowCreate] w1) as [w2 [e2|]]; exact H2.
Qed.

(* ================================================================= *)
(** ** The passes return *)

Lemma syncFn_dir cfg st p d e c w c' w' r :
  os.de_isdir d = true \/ e <> None ->
  stream.syncFn cfg st p (Some d) e c w = (c', w', r) -> os.w_fs w' = os.w_fs w.
Proof.
  intros Hd H. unfold stream.syncFn in H.
  destruct e as [e|]; [inversion H; subst; reflexivity|].
  destruct Hd as [Hd|Hd]; [|congruence].
  rewrite Hd in H. inversion H; subst; reflexivity.
Qed.

Lemma below_root (root p : path) :
  filepath.is_prefix root p = true -> filepath.clean_path p = true ->
  exists rel, p = root ++ rel /\ filepath.clean_path rel = true.
Proof.
  intros Hp Hc. apply is_prefix_spec in Hp. destruct Hp as [rel ->].
  exists rel. split; [reflexivity|]. apply clean_path_app_inv in Hc. tauto.
Qed.

(** At a file below the source root [syncFn] changes nothing below the
    source root. *)
Lemma syncFn_file cfg st p d c w c' w' r :
  filepath.clean_path (config.Source cfg) = true ->
  filepath.clean_path (config.Target cfg) = true ->
  filepath.disjoint (config.Source cfg) (config.Target cfg) = true ->
  filepath.is_prefix (config.Source cfg) p = true -> filepath.clean_path p = true ->
  stream.syncFn cfg st p d None c w = (c', w', r) ->
  forall q, filepath.is_prefix (config.Source cfg) q = true ->
            os.resolve (os.w_fs w') q = os.resolve (os.w_fs w) q.
Proof.
  intros Hs Hd Hdis Hp Hc H q Hq. unfold stream.syncFn in H.
  destruct (match d with Some d0 => os.de_isdir d0 | None => false end);
    [inversion H; subst; reflexivity|].
  destruct (below_root _ _ Hp Hc) as (rel & -> & Hrel).
  match type of H with
  | context [stream.processFileWithStrategy ?a ?b ?p0 ?d0 ?s0 ?w0] =>
      destruct (stream.processFileWithStrategy a b p0 d0 s0 w0) as [w1 e1] eqn:EP
  end.
  pose proof (processFile_source _ _ Hs Hd Hdis _ _ _ _ _ _ q Hrel EP Hq) as HP.
  cbn [os.log os.w_fs] in HP.
  destruct e1; inversion H; subst; cbn [os.log os.w_fs]; exact HP.
Qed.

(** The walk of the copy pass, over a well-formed tree and clean roots
    of which none lies in the other: the calls read off the source
    tree. *)
Lemma Sync_WalkDir_static cfg st fuel w n :
  regular cfg w = true ->
  os.resolve (os.w_fs w) (config.Source cfg) = os.Ok n ->
  (os.height n < fuel)%nat ->
  forall c,
  WalkDir (stream.syncFn cfg st) fuel (config.Source cfg) c w
  = Some (fst (run_visits (stream.syncFn cfg st)
                 (visits (config.Source cfg) (os.base (config.Source cfg)) n)
                 (c, os.traced (os.CLstat (config.Source cfg)) w)),
          snd (run_visits (stream.syncFn cfg st)
                 (visits (config.Source cfg) (os.base (config.Source cfg)) n)
                 (c, os.traced (os.CLstat (config.Source cfg)) w)),
          None).
Proof.
  unfold regular. rewrite !andb_true_iff. intros [[[Hw Hs] Hd] Hdis] Hr Hh c.
  unfold WalkDir, os.Lstat, os.stat. rewrite Hr.
  replace (os.fi_isdir (os.info_of n)) with (os.is_dir n) by (destruct n; reflexivity).
  apply (walkDir_static (stream.syncFn cfg st) (config.Source cfg)).
  - intros. eapply syncFn_nil; eauto.
  - intros p d c0 w0 c' w' r Hp Hc _ E q Hq _.
    exact (syncFn_file cfg st p (Some d) c0 w0 c' w' r Hs Hd Hdis Hp Hc E q Hq).
  - intros. eapply syncFn_dir; eauto.
  - exact Hh.
  - eapply wf_resolve; eauto.
  - apply is_prefix_refl.
  - exact Hs.
  - exact Hr.
Qed.

Lemma Sync_walk_total fuel cfg w :
  regular cfg w = true -> (os.height (os.w_fs w) < fuel)%nat ->
  exists c w' e, stream.Sync_walk fuel cfg w = Some (c, w', e).
Proof.
  intros Hreg Hh. unfold stream.Sync_walk.
  destruct (stream.NewUpdateStrategy (config.UpdateMethod cfg)) as [st|err]; [|eauto].
  match goal with
  | |- context [WalkDir ?f fuel ?root ?c0 ?w0] =>
      destruct (os.resolve (os.w_fs w0) root) as [n|e] eqn:Er
  end.
  - rewrite (Sync_WalkDir_static cfg st fuel _ n); eauto.
    cbn [os.log os.w_fs] in Er. pose proof (height_resolve _ _ _ Er). lia.
  - unfold WalkDir, os.Lstat, os.stat. rewrite Er.
    match goal with
    | |- context [stream.syncFn ?a ?b ?p ?d ?e0 ?c0 ?w0] =>
        destruct (stream.syncFn a b p d e0 c0 w0) as [[c1 w1] r1] eqn:E;
        pose proof (syncFn_nil _ _ _ _ _ _ _ _ _ _ E) as ->
    end.
    eauto.
Qed.

Lemma DeleteMissing_walk_total fuel src dst w :
  os.wf (os.w_fs w) = true -> (os.height (os.w_fs w) < fuel)%nat ->
  exists c w', stream.DeleteMissing_walk fuel src dst w = Some (c, w', None)
               /\ os.wf (os.w_fs w') = true.
Proof.
  intros Hw Hh. unfold stream.DeleteMissing_walk.
  match goal with
  | |- context [WalkDir ?f fuel ?root ?c0 ?w0] =>
      destruct (WalkDir_shrinking f (os.w_fs w) Hw
                  (fun p d e c w1 c' w' r => deleteFn_shrinks (os.w_fs w) src dst p d e c w1 c' w' r)
                  fuel root c0 w0 eq_refl Hh) as (c' & w' & r & E & _);
      pose proof E as E';
      apply (WalkDir_inv f (fun _ x => os.wf (os.w_fs x) = true) (fun _ => True)) in E'; auto
  end.
  - destruct E' as [Hw' ->]. rewrite E. exists c'. eexists. split; [reflexivity|exact Hw'].
  - intros. split; [eapply wf_deleteFn; eauto|eapply deleteFn_nil; eauto].
Qed.

(** More fuel does not change what the passes and the run return. *)
Lemma Sync_walk_mono fuel fuel' cfg w x :
  (fuel <= fuel')%nat ->
  stream.Sync_walk fuel cfg w = Some x -> stream.Sync_walk fuel' cfg w = Some x.
Proof.
  intros Hle H. unfold stream.Sync_walk in *.
  destruct (stream.NewUpdateStrategy (config.UpdateMethod cfg)) as [st|err]; [|exact H].
  match type of H with
  | context [WalkDir ?f fuel ?root ?c0 ?w0] =>
      destruct (WalkDir f fuel root c0 w0) as [y|] eqn:E; [|discriminate];
      rewrite (WalkDir_mono f fuel fuel' root c0 w0 y Hle E)
  end.
  exact H.
Qed.

Lemma Sync_mono fuel fuel' cfg w x :
  (fuel <= fuel')%nat ->
  stream.Sync fuel cfg w = Some x -> stream.Sync fuel' cfg w = Some x.
Proof.
  intros Hle H. unfold stream.Sync in *.
  destruct (stream.Sync_walk fuel cfg w) as [y|] eqn:E; [|discriminate].
  rewrite (Sync_walk_mono _ _ _ _ _ Hle E). exact H.
Qed.

Lemma DeleteMissing_walk_mono fuel fuel' src dst w x :
  (fuel <= fuel')%nat ->
  stream.DeleteMissing_walk fuel src dst w = Some x ->
  stream.DeleteMissing_walk fuel' src dst w = Some x.
Proof.
  intros Hle H. unfold stream.DeleteMissing_walk in *.
  match type of H with
  | context [WalkDir ?f fuel ?root ?c0 ?w0] =>
      destruct (WalkDir f fuel root c0 w0) as [y|] eqn:E; [|discriminate];
      rewrite (WalkDir_mono f fuel fuel' root c0 w0 y Hle E)
  end.
  exact H.
Qed.

Lemma DeleteMissing_mono fuel fuel' src dst w x :
  (fuel <= fuel')%nat ->
  stream.DeleteMissing fuel src dst w = Some x ->
  stream.DeleteMissing fuel' src dst w = Some x.
Proof.
  intros Hle H. unfold stream.DeleteMissing in *.
  destruct (stream.DeleteMissing_walk fuel src dst w) as [y|] eqn:E; [|discriminate].
  rewrite (DeleteMissing_walk_mono _ _ _ _ _ _ Hle E). exact H.
Qed.

Lemma run_mono fuel fuel' s w x :
  (fuel <= fuel')%nat ->
  synchronizer.Sync fuel s w = Some x -> synchronizer.Sync fuel' s w = Some x.
Proof.
  intros Hle H. unfold synchronizer.Sync, synchronizer.phase2, synchronizer.phase3 in *.
  destruct (synchronizer.phase1 s false _) as [w1 h1].
  match type of H with
  | context [stream.Sync fuel ?c ?w0] =>
      destruct (stream.Sync fuel c w0) as [[w2 e2]|] eqn:E2; [|discriminate];
      rewrite (Sync_mono _ _ _ _ _ Hle E2)
  end.
  destruct (config.DeleteMissing (synchronizer.cfg s)); [|exact H].
  destruct e2;
    match type of H with
    | context [stream.DeleteMissing fuel ?a ?b ?w0] =>
        destruct (stream.DeleteMissing fuel a b w0) as [[w3 e3]|] eqn:E3; [|discriminate];
        rewrite (DeleteMissing_mono _ _ _ _ _ _ Hle E3)
    end; exact H.
Qed.

Lemma wf_log f w : os.wf (os.w_fs (os.log f w)) = os.wf (os.w_fs w).
Proof. reflexivity. Qed.

Lemma height_log f w : os.height (os.w_fs (os.log f w)) = os.height (os.w_fs w).
Proof. reflexivity. Qed.

Lemma regular_wf c w : regular c w = true -> os.wf (os.w_fs w) = true.
Proof. unfold regular. rewrite !andb_true_iff. tauto. Qed.

Lemma regular_same_fs c w w' :
  os.w_fs w' = os.w_fs w -> regular c w = true -> regular c w' = true.
Proof. unfold regular. intros ->. tauto. Qed.

(** The deletion pass returns from every well-formed tree. *)
Lemma DeleteMissing_total fuel src dst w :
  os.wf (os.w_fs w) = true -> (os.height (os.w_fs w) < fuel)%nat ->
  exists w', stream.DeleteMissing fuel src dst w = Some (w', None).
Proof.
  intros Hw Hh. unfold stream.DeleteMissing.
  destruct (DeleteMissing_walk_total fuel src dst w Hw Hh) as (c & w' & E & _).
  rewrite E. eauto.
Qed.

(** The third phase returns, with enough fuel, from every well-formed
    tree. *)
Lemma phase3_total s h w :
  os.wf (os.w_fs w) = true ->
  exists fuel0 x, forall fuel, (fuel0 <= fuel)%nat -> synchronizer.phase3 fuel s h w = Some x.
Proof.
  intro Hw. unfold synchronizer.phase3.
  destruct (config.DeleteMissing (synchronizer.cfg s)); [|exists 0%nat; eauto].
  match goal with
  | |- context [stream.DeleteMissing _ ?a ?b ?w0] =>
      destruct (DeleteMissing_total (S (os.height (os.w_fs w0))) a b w0 Hw
                  (Nat.lt_succ_diag_r _)) as (w3 & E)
  end.
  exists (S (os.height (os.w_fs w))). eexists. intros fuel Hle.
  cbn [os.log os.w_fs] in E.
  rewrite (DeleteMissing_mono _ _ _ _ _ _ Hle E). reflexivity.
Qed.

(** A run returns, and what it returns does not depend on the fuel once
    there is enough of it, when its copy pass returns from every
    well-formed tree. *)
Lemma run_total_from s w :
  os.wf (os.w_fs w) = true ->
  filepath.clean_path (config.Target (synchronizer.cfg s)) = true ->
  (forall w1, os.wf (os.w_fs w1) = true ->
              exists c2 w2 e2,
                stream.Sync_walk (S (os.height (os.w_fs w1))) (synchronizer.cfg s) w1
                = Some (c2, w2, e2)) ->
  exists fuel0 w' r, forall fuel, (fuel0 <= fuel)%nat ->
                                 synchronizer.Sync fuel s w = Some (w', r).
Proof.
  intros Hw Hd Hcopy. unfold synchronizer.Sync.
  set (c := synchronizer.cfg s) in *.
  match goal with
  | |- context [synchronizer.phase1 s false ?w0] =>
      assert (Hw1 : os.wf (os.w_fs (fst (synchronizer.phase1 s false w0))) = true)
  end.
  { unfold synchronizer.phase1. fold c.
    match goal with
    | |- context [dir.ValidateSyncDirs ?a ?b ?w0] =>
        pose proof (wf_ValidateSyncDirs a b w0 Hd Hw) as Hv;
        destruct (dir.ValidateSyncDirs a b w0) as [w1 e1]
    end.
    cbn [fst os.log os.w_fs] in Hv.
    destruct e1; cbn [fst os.log os.w_fs]; exact Hv. }
  destruct (synchronizer.phase1 s false _) as [w1 h1]. cbn [fst] in Hw1.
  unfold synchronizer.phase2. fold c.
  match goal with
  | |- context [stream.Sync _ c ?w0] =>
      destruct (Hcopy w0 Hw1) as (c2 & w2 & e2 & E2);
      pose proof (wf_Sync_walk _ _ w0 _ _ _ Hw1 E2) as Hw2
  end.
  cbn [os.log os.w_fs] in E2.
  set (f2 := S (os.height (os.w_fs w1))) in *.
  set (w2' := match e2 with
              | Some e => os.log (logger.Error "SYNC" "File synchronization failed: %v"
                                    [logger.AErr e]) w2
              | None => os.log (logger.Success "SYNC" "File synchronization completed" []) w2
              end).
  set (h2 := match e2 with Some _ => true | None => h1 end).
  assert (Hw2' : os.wf (os.w_fs w2') = true) by (unfold w2'; destruct e2; exact Hw2).
  destruct (phase3_total s h2 w2' Hw2') as (f3 & [w3 h3] & E3).
  assert (Es : forall fuel, (Nat.max f2 f3 <= fuel)%nat ->
               stream.Sync fuel c
                 (os.log (logger.Info "SYNC" "Phase 2: Synchronizing files" []) w1)
               = Some (w2, e2)).
  { intros fuel Hle. unfold stream.Sync.
    rewrite (Sync_walk_mono f2 fuel _ _ _ (Nat.le_trans _ _ _ (Nat.le_max_l _ _) Hle) E2).
    reflexivity. }
  destruct h3; exists (Nat.max f2 f3); do 2 eexists; intros fuel Hle;
    rewrite (Es fuel Hle);
    (replace (match e2 with
              | Some e =>
                  Some (os.log (logger.Error "SYNC" "File synchronization failed: %v"
                                  [logger.AErr e]) w2, true)
              | None =>
                  Some (os.log (logger.Success "SYNC" "File synchronization completed" []) w2,
                        h1)
              end) with (Some (w2', h2)) by (unfold w2', h2; destruct e2; reflexivity));
    rewrite (E3 fuel (Nat.le_trans _ _ _ (Nat.le_max_r _ _) Hle));
    reflexivity.
Qed.

(** A run over a well-formed tree and clean roots of which none lies in
    the other returns. *)
Lemma run_total s w :
  regular (synchronizer.cfg s) w = true ->
  exists fuel0 w' r, forall fuel, (fuel0 <= fuel)%nat ->
                                 synchronizer.Sync fuel s w = Some (w', r).
Proof.
  intro Hreg. pose proof Hreg as Hreg'.
  unfold regular in Hreg'. rewrite !andb_true_iff in Hreg'.
  destruct Hreg' as [[[Hw Hs] Hd] Hdis].
  apply run_total_from; [exact Hw|exact Hd|].
  intros w1 Hw1. apply Sync_walk_total; [|apply Nat.lt_succ_diag_r].
  unfold regular. rewrite Hw1, Hs, Hd, Hdis. reflexivity.
Qed.

(** With a method that is not supported [Sync] returns the error at
    once, whatever the fuel. *)
Lemma Sync_walk_unsupported fuel cfg w :
  supported (config.UpdateMethod cfg) = false ->
  exists w' e, stream.Sync_walk fuel cfg w = Some (stream.zero, w', Some e) /\ same_sys w' w.
Proof.
  intro H. unfold supported in H. apply orb_false_elim in H. destruct H as [H1 H2].
  unfold stream.Sync_walk, stream.NewUpdateStrategy. rewrite H1, H2.
  do 2 eexists. split; [reflexivity|]. repeat split.
Qed.

Lemma Sync_unsupported fuel cfg w :
  supported (config.UpdateMethod cfg) = false ->
  exists w' e, stream.Sync fuel cfg w = Some (w', Some e) /\ same_sys w' w.
Proof.
  intro H. destruct (Sync_walk_unsupported fuel cfg w H) as (w' & e & E & Hs).
  unfold stream.Sync. rewrite E. eauto.
Qed.

Lemma run_total_unsupported s w :
  supported (config.UpdateMethod (synchronizer.cfg s)) = false ->
  os.wf (os.w_fs w) = true ->
  filepath.clean_path (config.Target (synchronizer.cfg s)) = true ->
  exists fuel0 w' r, forall fuel, (fuel0 <= fuel)%nat ->
                                 synchronizer.Sync fuel s w = Some (w', r).
Proof.
  intros Hu Hw Hd. apply run_total_from; [exact Hw|exact Hd|].
  intros w1 _. destruct (Sync_walk_unsupported (S (os.height (os.w_fs w1))) _ w1 Hu)
    as (w' & e & E & _).
  eauto.
Qed.

(* ================================================================= *)
(** ** The walk function of the copy pass at a regular file *)

Lemma quiet_of_log f w w' : quiet (os.log f w) w' -> quiet w w'.
Proof. intro H. eapply quiet_trans; [apply quiet_log|exact H]. Qed.

(** A file whose destination is up to date: it is counted as copied,
    and left as it is. *)
Lemma syncFn_up_to_date cfg st rel d c0 w0 f n :
  filepath.clean_path (config.Source cfg) = true ->
  filepath.clean_path (config.Target cfg) = true ->
  filepath.clean_path rel = true ->
  os.de_isdir d = false ->
  os.resolve (os.w_fs w0) (config.Source cfg ++ rel) = os.Ok (os.File f) ->
  os.resolve (os.w_fs w0) (config.Target cfg ++ rel) = os.Ok n ->
  up_to_date st f n ->
  exists w1,
    stream.syncFn cfg st (config.Source cfg ++ rel) (Some d) None c0 w0
    = (stream.mkCounters (stream.fileCount c0 + 1) (stream.copiedCount c0 + 1)
         (stream.skippedCount c0) (stream.errorCount c0), w1, None)
    /\ quiet w0 w1.
Proof.
  intros Hs Hd Hrel Hf Hsrc Hdst Hu. unfold stream.syncFn. rewrite Hf.
  match goal with
  | |- context [stream.processFileWithStrategy ?a ?b ?p0 ?d0 ?s0 ?w] =>
      destruct (processFile_up_to_date a b Hs Hd rel d0 s0 w f n Hrel Hsrc Hdst Hu)
        as (w1 & E & Hq)
  end.
  rewrite E. exists w1. split; [reflexivity|]. eapply quiet_of_log; exact Hq.
Qed.

(** Every call on a regular file below the source root counts the file,
    and with it a copy or an error. When a copy is counted the
    destination holds the bytes of the source, or it was up to date and
    nothing was changed. *)
Lemma syncFn_counts cfg st rel d c0 w0 f c1 w1 r :
  filepath.clean_path (config.Source cfg) = true ->
  filepath.clean_path (config.Target cfg) = true ->
  filepath.disjoint (config.Source cfg) (config.Target cfg) = true ->
  filepath.clean_path rel = true ->
  os.de_isdir d = false ->
  os.resolve (os.w_fs w0) (config.Source cfg ++ rel) = os.Ok (os.File f) ->
  stream.syncFn cfg st (config.Source cfg ++ rel) (Some d) None c0 w0 = (c1, w1, r) ->
  r = None
  /\ stream.fileCount c1 = (stream.fileCount c0 + 1)%Z
  /\ stream.skippedCount c1 = stream.skippedCount c0
  /\ ((stream.copiedCount c1 = (stream.copiedCount c0 + 1)%Z
       /\ stream.errorCount c1 = stream.errorCount c0
       /\ exists n, os.resolve (os.w_fs w1) (config.Target cfg ++ rel) = os.Ok n
                    /\ (copied st f n \/ (quiet w0 w1 /\ up_to_date st f n)))
      \/ (stream.copiedCount c1 = stream.copiedCount c0
          /\ stream.errorCount c1 = (stream.errorCount c0 + 1)%Z)).
Proof.
  intros Hs Hd Hdis Hrel Hf Hsrc H. unfold stream.syncFn in H. rewrite Hf in H.
  match type of H with
  | context [stream.processFileWithStrategy ?a ?b ?p0 ?d0 ?s0 ?w] =>
      destruct (stream.processFileWithStrategy a b p0 d0 s0 w) as [w2 [e2|]] eqn:EP
  end; inversion H; subst; clear H; cbn [stream.fileCount stream.copiedCount
                                          stream.skippedCount stream.errorCount].
  - repeat split. right. split; reflexivity.
  - repeat split. left. split; [reflexivity|]. split; [reflexivity|].
    destruct (processFile_Ok _ _ Hs Hd Hdis _ _ _ _ _ f Hrel EP Hsrc) as (n & Hn & Hc).
    exists n. split; [exact Hn|]. destruct Hc as [Hc|[Hq Hu]]; [left; exact Hc|].
    right. split; [eapply quiet_of_log; exact Hq|exact Hu].
Qed.

(* ================================================================= *)
(** ** The outcome of a run *)

(** C2, as it is in the code. Whenever a run returns, its result is nil
    exactly when the validation of the roots returned nil and the update
    method is one of the two supported ones; and a run over a well-formed
    tree and clean roots of which none lies in the other does return, the
    same for every fuel that is enough. The errors met at single entries
    (relative path, stat, transfer, delete) are counted and logged by the
    passes and do not reach the result: the copy pass returns nil with
    every supported method and the deletion pass returns nil, and both
    return. *)
Theorem run_outcome s w :
  (forall fuel w' r,
      synchronizer.Sync fuel s w = Some (w', r) ->
      (r = None <->
       validates (synchronizer.cfg s) w = true
       /\ supported (config.UpdateMethod (synchronizer.cfg s)) = true))
  /\ (regular (synchronizer.cfg s) w = true ->
      exists fuel0 w' r,
        (forall fuel, (fuel0 <= fuel)%nat -> synchronizer.Sync fuel s w = Some (w', r))
        /\ (r = None <->
            validates (synchronizer.cfg s) w = true
            /\ supported (config.UpdateMethod (synchronizer.cfg s)) = true))
  /\ (forall fuel cfg w0,
        regular cfg w0 = true -> (os.height (os.w_fs w0) < fuel)%nat ->
        exists w1 e, stream.Sync fuel cfg w0 = Some (w1, e)
                     /\ (e = None <-> supported (config.UpdateMethod cfg) = true))
  /\ (forall fuel src dst w0,
        os.wf (os.w_fs w0) = true -> (os.height (os.w_fs w0) < fuel)%nat ->
        exists w1, stream.DeleteMissing fuel src dst w0 = Some (w1, None)).
Proof.
  assert (Hpart : forall fuel w' r,
             synchronizer.Sync fuel s w = Some (w', r) ->
             (r = None <->
              validates (synchronizer.cfg s) w = true
              /\ supported (config.UpdateMethod (synchronizer.cfg s)) = true)).
  { intros fuel w' r H. apply Sync_phases in H.
    destruct H as (w1 & e1 & w1' & w2 & e2 & w2' & w3 & e3 & HV & _ & HS & _ & HD & _ & Hr).
    apply Sync_result in HS.
    assert (He3 : e3 = None).
    { destruct (config.DeleteMissing (synchronizer.cfg s)).
      - eapply DeleteMissing_result; eauto.
      - tauto. }
    unfold validates. rewrite HV. cbn [snd].
    rewrite Hr. subst e3. destruct e1; intuition (try discriminate; auto). }
  split; [exact Hpart|]. split; [|split].
  - intro Hreg. destruct (run_total s w Hreg) as (fuel0 & w' & r & Hrun).
    exists fuel0, w', r. split; [exact Hrun|].
    exact (Hpart fuel0 w' r (Hrun fuel0 (Nat.le_refl _))).
  - intros fuel cfg w0 Hreg Hh.
    destruct (Sync_walk_total fuel cfg w0 Hreg Hh) as (c & w1 & e & E).
    assert (Es : stream.Sync fuel cfg w0 = Some (w1, e))
      by (unfold stream.Sync; rewrite E; reflexivity).
    exists w1, e. split; [exact Es|]. eapply Sync_result; exact Es.
  - intros fuel src dst w0 Hw Hh. exact (DeleteMissing_total fuel src dst w0 Hw Hh).
Qed.

Lemma run_outcome_witness :
  regular (cfg_of false "modtime") (world_of two_files) = true
  /\ exists fuel0 w',
      forall fuel, (fuel0 <= fuel)%nat ->
        synchronizer.Sync fuel (synchronizer.mkSynchronizer (cfg_of false "modtime"))
          (world_of two_files) = Some (w', None).
Proof.
  split; [reflexivity|].
  destruct (proj1 (proj2 (run_outcome (synchronizer.mkSynchronizer (cfg_of false "modtime"))
                            (world_of two_files))) eq_refl)
    as (fuel0 & w' & r & Hrun & Hiff).
  assert (Hr : r = None) by (apply Hiff; split; reflexivity).
  subst r. exists fuel0, w'. exact Hrun.
Defined.

(** C2 as the claim has it fails: [a.txt] cannot be read, the copy pass
    counts and logs one error, and the run returns nil. *)
Lemma entry_error_reported_as_success :
  exists c w1 w',
    stream.Sync_walk 3 (cfg_of false "modtime")
      (fst (dir.ValidateSyncDirs ["s"] ["d"] (world_of one_unreadable))) = Some (c, w1, None)
    /\ stream.errorCount c = 1%Z
    /\ synchronizer.Sync 3 (synchronizer.mkSynchronizer (cfg_of false "modtime"))
         (world_of one_unreadable) = Some (w', None)
    /\ In (logger.mkLine "INFO" "STREAM"
             "Synchronization completed: %d files processed, %d copied, %d skipped, %d errors"
             [logger.AInt 2; logger.AInt 1; logger.AInt 0; logger.AInt 1])
          (logger.lines (os.w_logger w')).
Proof.
  vm_compute. do 3 eexists. repeat split; try reflexivity.
  do 2 right. left. reflexivity.
Qed.

(** C1, as it is in the code. A run goes through its phases whatever
    they return: the copy pass starts from the world the validation has
    left, failed or not, the deletion pass (when it is asked for) from the
    world the copy pass has left, and the deletion pass returns nil. With
    a method that is not supported the copy pass returns its error at
    once, leaving the world as the validation left it, and the run goes
    on to the last phase. A failed validation and an unsupported method
    each make the run return an error, and so does nothing else. A run
    over a well-formed tree and clean roots of which none lies in the
    other does return, the same for every fuel that is enough. *)
Theorem phases_run_to_the_end s w :
  (forall fuel w' r,
      synchronizer.Sync fuel s w = Some (w', r) ->
      exists w1 w2 e2 w2' w3,
        same_sys w1 (fst (dir.ValidateSyncDirs (config.Source (synchronizer.cfg s))
                            (config.Target (synchronizer.cfg s)) w))
        /\ stream.Sync fuel (synchronizer.cfg s) w1 = Some (w2, e2)
        /\ (supported (config.UpdateMethod (synchronizer.cfg s)) = false ->
            same_sys w2 w1 /\ e2 <> None)
        /\ same_sys w2' w2
        /\ (if config.DeleteMissing (synchronizer.cfg s)
            then stream.DeleteMissing fuel (config.Source (synchronizer.cfg s))
                   (config.Target (synchronizer.cfg s)) w2' = Some (w3, None)
            else w3 = w2')
        /\ same_sys w' w3
        /\ (validates (synchronizer.cfg s) w = false -> r <> None)
        /\ (supported (config.UpdateMethod (synchronizer.cfg s)) = false -> r <> None)
        /\ (r <> None ->
            validates (synchronizer.cfg s) w = false
            \/ supported (config.UpdateMethod (synchronizer.cfg s)) = false))
  /\ (regular (synchronizer.cfg s) w = true ->
      exists fuel0 w' r,
        forall fuel, (fuel0 <= fuel)%nat -> synchronizer.Sync fuel s w = Some (w', r)).
Proof.
  split; [|exact (run_total s w)].
  intros fuel w' r H. pose proof (Hph := Sync_phases _ _ _ _ _ H).
  destruct Hph
    as (w1 & e1 & w1' & w2 & e2 & w2' & w3 & e3 & HV & H1 & HS & H2 & HD & H3 & Hr).
  assert (He3 : e3 = None).
  { destruct (config.DeleteMissing (synchronizer.cfg s)).
    - eapply DeleteMissing_result; eauto.
    - tauto. }
  subst e3.
  exists w1', w2, e2, w2', w3.
  pose proof (Sync_result _ _ _ _ _ HS) as HS'.
  unfold validates. rewrite HV. cbn [fst snd].
  split; [exact H1|]. split; [exact HS|]. split; [|split; [exact H2|]].
  { intro Hu. destruct (Sync_unsupported fuel (synchronizer.cfg s) w1' Hu)
      as (wx & ex & Ex & Hx).
    rewrite Ex in HS. inversion HS; subst. split; [exact Hx|discriminate]. }
  split; [|split; [exact H3|split; [|split]]].
  - revert HD. destruct (config.DeleteMissing (synchronizer.cfg s)); tauto.
  - destruct e1; [|discriminate]. intros _ Hn. apply Hr in Hn. destruct Hn; discriminate.
  - intros Hu Hn. apply Hr in Hn. destruct Hn as (_ & Hn & _).
    apply HS' in Hn. congruence.
  - intro Hn. destruct e1; [left; reflexivity|].
    right. destruct (supported _) eqn:E; [|reflexivity].
    exfalso. apply Hn. apply Hr. repeat split. apply HS'. reflexivity.
Qed.

Lemma phases_run_to_the_end_witness :
  regular (cfg_of true "modtime") (world_of source_is_file) = true
  /\ validates (cfg_of true "modtime") (world_of source_is_file) = false
  /\ exists fuel0 w' e,
      forall fuel, (fuel0 <= fuel)%nat ->
        synchronizer.Sync fuel (synchronizer.mkSynchronizer (cfg_of true "modtime"))
          (world_of source_is_file) = Some (w', Some e).
Proof.
  split; [reflexivity|]. split; [reflexivity|].
  destruct (phases_run_to_the_end (synchronizer.mkSynchronizer (cfg_of true "modtime"))
              (world_of source_is_file)) as [Hph Htot].
  destruct (Htot eq_refl) as (fuel0 & w' & r & Hrun).
  destruct (Hph fuel0 w' r (Hrun fuel0 (Nat.le_refl _)))
    as (w1 & w2 & e2 & w2' & w3 & _ & _ & _ & _ & _ & _ & Hv & _).
  destruct r as [e|]; [|exfalso; apply Hv; reflexivity].
  exists fuel0, w', e. exact Hrun.
Defined.

(** C1 as the claim has it fails: the source path names a regular file,
    the validation fails, and the copy pass runs all the same - it copies
    the file onto the destination path - and so does the deletion pass,
    which walks the destination. *)
Lemma copy_pass_after_failed_validation :
  validates (cfg_of true "modtime") (world_of source_is_file) = false
  /\ exists w',
      synchronizer.Sync 3 (synchronizer.mkSynchronizer (cfg_of true "modtime"))
        (world_of source_is_file)
      = Some (w', Some (Errorf "sync completed with errors - check logs for details" [] []))
      /\ os.resolve (os.w_fs (world_of source_is_file)) ["d"] = os.Err syscall.ENOENT
      /\ os.resolve (os.w_fs w') ["d"]
         = os.Ok (os.File (os.mkFile "hello" (os.mkTime 10 1) os.mode_0666 true None))
      /\ rev (os.w_calls w')
         = [os.CStat ["s"];
            os.CLstat ["s"]; os.CStat ["d"]; os.CMkdirAll []; os.COpen ["s"];
            os.CCreate ["d"]; os.CRead ["s"]; os.CWrite ["d"] "hello"; os.CStat ["s"];
            os.CChtimes ["d"] (os.mkTime 10 1);
            os.CLstat ["d"]; os.CStat ["s"]].
Proof.
  split; [reflexivity|]. vm_compute. eexists. repeat split.
Qed.

(* ================================================================= *)
(** ** An update method that is not supported *)

Lemma phase1_same_sys s h w0 w :
  same_sys w0 w ->
  same_sys (fst (synchronizer.phase1 s h w0))
    (fst (dir.ValidateSyncDirs (config.Source (synchronizer.cfg s))
            (config.Target (synchronizer.cfg s)) w)).
Proof.
  intro H. unfold synchronizer.phase1.
  match goal with
  | |- context [dir.ValidateSyncDirs ?a ?b ?w1] =>
      pose proof (ValidateSyncDirs_same_sys a b w1 w
                    (same_sys_trans _ _ _ (same_sys_log _ _) H)) as [_ Hv];
      destruct (dir.ValidateSyncDirs a b w1) as [wa ea]
  end.
  cbn [fst] in Hv.
  destruct ea; cbn [fst]; (eapply same_sys_trans; [apply same_sys_log|exact Hv]).
Qed.

Lemma phase2_unsupported fuel s h w :
  supported (config.UpdateMethod (synchronizer.cfg s)) = false ->
  exists w2, synchronizer.phase2 fuel s h w = Some (w2, true) /\ same_sys w2 w.
Proof.
  intro Hu. unfold synchronizer.phase2.
  destruct (Sync_unsupported fuel (synchronizer.cfg s)
              (os.log (logger.Info "SYNC" "Phase 2: Synchronizing files" []) w) Hu)
    as (wx & ex & Ex & Hx).
  rewrite Ex. eexists. split; [reflexivity|].
  eapply same_sys_trans; [apply same_sys_log|].
  eapply same_sys_trans; [exact Hx|apply same_sys_log].
Qed.

(** The run with a method that is not supported, when the deletion pass
    is asked for: what the run returns is what the deletion pass returns
    from the world the validation has left, and the result is an error. *)
Lemma run_unsupported_deletes fuel s w :
  supported (config.UpdateMethod (synchronizer.cfg s)) = false ->
  config.DeleteMissing (synchronizer.cfg s) = true ->
  exists w1,
    same_sys w1 (fst (dir.ValidateSyncDirs (config.Source (synchronizer.cfg s))
                        (config.Target (synchronizer.cfg s)) w))
    /\ match stream.DeleteMissing fuel (config.Source (synchronizer.cfg s))
               (config.Target (synchronizer.cfg s)) w1 with
       | Some (w3, _) =>
           exists w' e, synchronizer.Sync fuel s w = Some (w', Some e) /\ same_sys w' w3
       | None => synchronizer.Sync fuel s w = None
       end.
Proof.
  intros Hu Hdm. unfold synchronizer.Sync.
  match goal with
  | |- context [synchronizer.phase1 s false ?w0] =>
      pose proof (phase1_same_sys s false w0 w
                    (same_sys_trans _ _ _ (same_sys_log _ _) (same_sys_log _ _))) as H1;
      destruct (synchronizer.phase1 s false w0) as [wa ha]
  end.
  cbn [fst] in H1.
  destruct (phase2_unsupported fuel s ha wa Hu) as (w2 & E2 & H2). rewrite E2.
  unfold synchronizer.phase3. rewrite Hdm.
  exists (os.log (logger.Info "SYNC" "Phase 3: Removing missing files" []) w2). split.
  - eapply same_sys_trans; [apply same_sys_log|].
    eapply same_sys_trans; [exact H2|exact H1].
  - destruct (stream.DeleteMissing fuel _ _ _) as [[w3 [e3|]]|]; [| |reflexivity];
      do 2 eexists; (split; [reflexivity|]);
      (eapply same_sys_trans; [apply same_sys_log|apply same_sys_log]).
Qed.

(** The run with a method that is not supported, when the deletion pass
    is not asked for. *)
Lemma run_unsupported_plain fuel s w :
  supported (config.UpdateMethod (synchronizer.cfg s)) = false ->
  config.DeleteMissing (synchronizer.cfg s) = false ->
  exists w' e,
    synchronizer.Sync fuel s w = Some (w', Some e)
    /\ same_sys w' (fst (dir.ValidateSyncDirs (config.Source (synchronizer.cfg s))
                           (config.Target (synchronizer.cfg s)) w)).
Proof.
  intros Hu Hdm. unfold synchronizer.Sync.
  match goal with
  | |- context [synchronizer.phase1 s false ?w0] =>
      pose proof (phase1_same_sys s false w0 w
                    (same_sys_trans _ _ _ (same_sys_log _ _) (same_sys_log _ _))) as H1;
      destruct (synchronizer.phase1 s false w0) as [wa ha]
  end.
  cbn [fst] in H1.
  destruct (phase2_unsupported fuel s ha wa Hu) as (w2 & E2 & H2). rewrite E2.
  unfold synchronizer.phase3. rewrite Hdm.
  do 2 eexists. split; [reflexivity|].
  eapply same_sys_trans; [apply same_sys_log|].
  eapply same_sys_trans; [apply same_sys_log|].
  eapply same_sys_trans; [exact H2|exact H1].
Qed.

(** C7, as it is in the code. The factory knows the two names and fails
    on every other string, the empty one too. With such a name [Sync]
    returns the error before it calls into [os] at all: no walk, no copy,
    whatever the fuel. The run then returns an error. When the deletion
    pass is not asked for, the run returns for every fuel and makes the
    calls of the validation and no other. When it is asked for, the
    deletion pass runs all the same, from the world the validation has
    left, and the run returns what that pass leaves; over a well-formed
    tree and a clean destination root it does return. *)
Theorem unsupported_method_stops_the_copy_pass :
  stream.NewUpdateStrategy "modtime" = inl stream.ModTimeStrategy
  /\ stream.NewUpdateStrategy "sha256" = inl stream.SHA256Strategy
  /\ (forall method, supported method = false ->
        stream.NewUpdateStrategy method
        = inr (Errorf "unsupported update method: %s (supported: modtime, sha256)" [method] []))
  /\ supported "" = false
  /\ (forall fuel cfg w, supported (config.UpdateMethod cfg) = false ->
        exists w' e, stream.Sync fuel cfg w = Some (w', Some e) /\ same_sys w' w)
  /\ (forall s w,
        supported (config.UpdateMethod (synchronizer.cfg s)) = false ->
        (forall fuel w' r, synchronizer.Sync fuel s w = Some (w', r) -> r <> None)
        /\ (config.DeleteMissing (synchronizer.cfg s) = false ->
            forall fuel, exists w' e,
              synchronizer.Sync fuel s w = Some (w', Some e)
              /\ same_sys w' (fst (dir.ValidateSyncDirs (config.Source (synchronizer.cfg s))
                                     (config.Target (synchronizer.cfg s)) w)))
        /\ (config.DeleteMissing (synchronizer.cfg s) = true ->
            forall fuel, exists w1,
              same_sys w1 (fst (dir.ValidateSyncDirs (config.Source (synchronizer.cfg s))
                                  (config.Target (synchronizer.cfg s)) w))
              /\ match stream.DeleteMissing fuel (config.Source (synchronizer.cfg s))
                         (config.Target (synchronizer.cfg s)) w1 with
                 | Some (w3, _) =>
                     exists w' e,
                       synchronizer.Sync fuel s w = Some (w', Some e) /\ same_sys w' w3
                 | None => synchronizer.Sync fuel s w = None
                 end)
        /\ (os.wf (os.w_fs w) = true ->
            filepath.clean_path (config.Target (synchronizer.cfg s)) = true ->
            exists fuel0 w' e,
              forall fuel, (fuel0 <= fuel)%nat ->
                synchronizer.Sync fuel s w = Some (w', Some e))).
Proof.
  split; [reflexivity|]. split; [reflexivity|].
  assert (HF : forall method, supported method = false ->
             stream.NewUpdateStrategy method
             = inr (Errorf "unsupported update method: %s (supported: modtime, sha256)"
                      [method] [])).
  { intros method H. unfold supported in H. apply orb_false_elim in H. destruct H as [H1 H2].
    unfold stream.NewUpdateStrategy. rewrite H1, H2. reflexivity. }
  split; [exact HF|]. split; [reflexivity|].
  split; [exact Sync_unsupported|].
  intros s w Hu.
  assert (Herr : forall fuel w' r, synchronizer.Sync fuel s w = Some (w', r) -> r <> None).
  { intros fuel w' r H.
    pose proof (Sync_phases _ _ _ _ _ H)
      as (w1 & e1 & w1' & w2 & e2 & w2' & w3 & e3 & HV & H1 & HSy & H2 & HD & H3 & Hr).
    destruct (Sync_unsupported fuel (synchronizer.cfg s) w1' Hu) as (wx & ex & Hx & Hxs).
    rewrite Hx in HSy. inversion HSy; subst wx e2.
    intro Hn. apply Hr in Hn. destruct Hn as (_ & Hn & _). discriminate. }
  split; [exact Herr|]. split; [|split].
  - intros Hdm fuel. exact (run_unsupported_plain fuel s w Hu Hdm).
  - intros Hdm fuel. exact (run_unsupported_deletes fuel s w Hu Hdm).
  - intros Hw Hd. destruct (run_total_unsupported s w Hu Hw Hd) as (fuel0 & w' & r & Hrun).
    destruct r as [e|].
    + exists fuel0, w', e. exact Hrun.
    + exfalso. exact (Herr fuel0 w' None (Hrun fuel0 (Nat.le_refl _)) eq_refl).
Qed.

Lemma unsupported_method_stops_the_copy_pass_witness :
  supported "lz4" = false
  /\ os.wf (os.w_fs (world_of with_extra)) = true
  /\ filepath.clean_path (config.Target (cfg_of true "lz4")) = true
  /\ exists fuel0 w' e,
      forall fuel, (fuel0 <= fuel)%nat ->
        synchronizer.Sync fuel (synchronizer.mkSynchronizer (cfg_of true "lz4"))
          (world_of with_extra) = Some (w', Some e).
Proof.
  split; [reflexivity|]. split; [reflexivity|]. split; [reflexivity|].
  destruct unsupported_method_stops_the_copy_pass as (_ & _ & _ & _ & _ & H).
  destruct (H (synchronizer.mkSynchronizer (cfg_of true "lz4")) (world_of with_extra) eq_refl)
    as (_ & _ & _ & Htot).
  exact (Htot eq_refl eq_refl).
Defined.

(** C7 as the claim has it fails: the method is not a supported one, the
    deletion pass is asked for, and it walks the destination and removes
    [extra.txt]. *)
Lemma deletion_pass_after_unsupported_method :
  supported "lz4" = false
  /\ os.resolve with_extra ["d"; "extra.txt"] = os.Ok (plain_file "x" (os.mkTime 30 3))
  /\ exists w',
      synchronizer.Sync 3 (synchronizer.mkSynchronizer (cfg_of true "lz4")) (world_of with_extra)
      = Some (w', Some (Errorf "sync completed with errors - check logs for details" [] []))
      /\ os.resolve (os.w_fs w') ["d"; "extra.txt"] = os.Err syscall.ENOENT
      /\ rev (os.w_calls w')
         = [os.CStat ["s"]; os.CStat ["d"];
            os.CLstat ["d"]; os.CReadDir ["d"]; os.CStat ["s"; "extra.txt"];
            os.CRemove ["d"; "extra.txt"]].
Proof.
  split; [reflexivity|]. split; [reflexivity|].
  vm_compute. eexists. repeat split.
Qed.

(* ================================================================= *)
(** ** The tally of the copy pass *)

(** C10, as it is in the code. At the end of every walk the skipped
    counter is zero, and the files seen, together with the entries the
    walk has reported as out of reach (a root or a directory that cannot
    be read: they count an error and no file), are as many as the copies
    and the errors; so files seen = copied + errors when no entry was out
    of reach. [Sync] returns the error of the walk and no counter.
    Every call of the walk function on a regular file below the source
    root counts the file and with it either a copy or an error, and
    nothing as skipped; when a copy is counted the destination holds the
    bytes of the source, or it was found up to date and nothing was
    changed. A file whose destination is up to date is always counted so:
    as copied, with no call that changes the destination. Over a
    well-formed tree and clean roots of which none lies in the other the
    walk comes to its end. *)
Theorem copy_pass_tally cfg :
  (forall fuel w c w' e,
      stream.Sync_walk fuel cfg w = Some (c, w', e) ->
      stream.skippedCount c = 0%Z
      /\ (stream.fileCount c + (access_errors w' - access_errors w)
          = stream.copiedCount c + stream.errorCount c)%Z
      /\ (stream.fileCount c <= stream.copiedCount c + stream.errorCount c)%Z
      /\ (access_errors w' = access_errors w ->
          stream.fileCount c = (stream.copiedCount c + stream.errorCount c)%Z)
      /\ stream.Sync fuel cfg w = Some (w', e))
  /\ (forall st rel d c0 w0 f c1 w1 r,
        filepath.clean_path (config.Source cfg) = true ->
        filepath.clean_path (config.Target cfg) = true ->
        filepath.disjoint (config.Source cfg) (config.Target cfg) = true ->
        filepath.clean_path rel = true ->
        os.de_isdir d = false ->
        os.resolve (os.w_fs w0) (config.Source cfg ++ rel) = os.Ok (os.File f) ->
        stream.syncFn cfg st (config.Source cfg ++ rel) (Some d) None c0 w0 = (c1, w1, r) ->
        r = None
        /\ stream.fileCount c1 = (stream.fileCount c0 + 1)%Z
        /\ stream.skippedCount c1 = stream.skippedCount c0
        /\ ((stream.copiedCount c1 = (stream.copiedCount c0 + 1)%Z
             /\ stream.errorCount c1 = stream.errorCount c0
             /\ exists n, os.resolve (os.w_fs w1) (config.Target cfg ++ rel) = os.Ok n
                          /\ (copied st f n \/ (quiet w0 w1 /\ up_to_date st f n)))
            \/ (stream.copiedCount c1 = stream.copiedCount c0
                /\ stream.errorCount c1 = (stream.errorCount c0 + 1)%Z)))
  /\ (forall st rel d c0 w0 f n,
        filepath.clean_path (config.Source cfg) = true ->
        filepath.clean_path (config.Target cfg) = true ->
        filepath.clean_path rel = true ->
        os.de_isdir d = false ->
        os.resolve (os.w_fs w0) (config.Source cfg ++ rel) = os.Ok (os.File f) ->
        os.resolve (os.w_fs w0) (config.Target cfg ++ rel) = os.Ok n ->
        up_to_date st f n ->
        exists w1,
          stream.syncFn cfg st (config.Source cfg ++ rel) (Some d) None c0 w0
          = (stream.mkCounters (stream.fileCount c0 + 1) (stream.copiedCount c0 + 1)
               (stream.skippedCount c0) (stream.errorCount c0), w1, None)
          /\ quiet w0 w1)
  /\ (forall fuel w,
        regular cfg w = true -> (os.height (os.w_fs w) < fuel)%nat ->
        exists c w' e, stream.Sync_walk fuel cfg w = Some (c, w', e)).
Proof.
  split; [|split; [|split]].
  - intros fuel w c w' e H. pose proof (Sync_walk_tally _ _ _ _ _ _ H) as (Hs & Hc & Ha).
    split; [exact Hs|]. split; [exact Hc|]. split; [lia|]. split; [lia|].
    unfold stream.Sync. rewrite H. reflexivity.
  - intros st rel d c0 w0 f c1 w1 r. apply syncFn_counts.
  - intros st rel d c0 w0 f n. apply syncFn_up_to_date.
  - intros fuel w. apply Sync_walk_total.
Qed.

Lemma copy_pass_tally_witness :
  regular (cfg_of false "modtime") (world_of two_files) = true
  /\ exists c w' e,
      stream.Sync_walk 4 (cfg_of false "modtime") (world_of two_files) = Some (c, w', e)
      /\ stream.skippedCount c = 0%Z
      /\ (stream.fileCount c <= stream.copiedCount c + stream.errorCount c)%Z.
Proof.
  split; [reflexivity|].
  destruct (copy_pass_tally (cfg_of false "modtime")) as (Hend & _ & _ & Htot).
  assert (Hh : (os.height (os.w_fs (world_of two_files)) < 4)%nat) by (vm_compute; lia).
  destruct (Htot 4%nat (world_of two_files) eq_refl Hh) as (c & w' & e & E).
  destruct (Hend _ _ _ _ _ E) as (Hs & _ & Hle & _).
  exists c, w', e. split; [exact E|]. split; [exact Hs|exact Hle].
Defined.

(** C10 as the claim has it fails: the source root is not there, the
    walk reports it, and one error is counted for no file seen. *)
Lemma missing_root_counts_an_error :
  exists w',
    stream.Sync_walk 3 (cfg_of false "modtime") (world_of (plain_dir []))
    = Some (stream.mkCounters 0 0 0 1, w', None)
    /\ stream.fileCount (stream.mkCounters 0 0 0 1)
       <> (stream.copiedCount (stream.mkCounters 0 0 0 1)
           + stream.errorCount (stream.mkCounters 0 0 0 1))%Z.
Proof.
  vm_compute. eexists. split; [reflexivity|discriminate].
Qed.

(* ================================================================= *)
(** ** The deletion pass, as a whole *)



(* ================================================================= *)
(** ** The calls read off a tree *)

Lemma visits_below_In p l x :
  In x (visits_below p l) <->
  exists k v, In (k, v) l /\ In x (visits (p ++ [k]) k v).
Proof.
  unfold visits_below. rewrite in_flat_map. split.
  - intros ([k v] & Hin & Hx). exists k, v. split; assumption.
  - intros (k & v & Hin & Hx). exists (k, v). split; assumption.
Qed.

(** Every call is on a path at or below the root of the walk. *)
Lemma visits_prefix : forall n p name x,
  In x (visits p name n) -> filepath.is_prefix p (fst x) = true.
Proof.
  induction n as [f|m es IH] using node_induction; intros p name x Hx.
  - destruct Hx as [<-|[]]. apply is_prefix_refl.
  - rewrite visits_Dir in Hx. destruct Hx as [<-|Hx]; [apply is_prefix_refl|].
    destruct (os.p_r (os.d_perm m)).
    + apply visits_below_In in Hx. destruct Hx as (k & v & Hin & Hx).
      eapply is_prefix_trans; [apply is_prefix_app|]. exact (IH k v Hin _ _ _ Hx).
    + destruct Hx as [<-|[]]. apply is_prefix_refl.
Qed.

Lemma visits_clean : forall n p name x,
  os.wf n = true -> filepath.clean_path p = true ->
  In x (visits p name n) -> filepath.clean_path (fst x) = true.
Proof.
  induction n as [f|m es IH] using node_induction; intros p name x Hw Hp Hx.
  - destruct Hx as [<-|[]]. exact Hp.
  - rewrite visits_Dir in Hx. destruct Hx as [<-|Hx]; [exact Hp|].
    destruct (os.p_r (os.d_perm m)).
    + apply visits_below_In in Hx. destruct Hx as (k & v & Hin & Hx).
      destruct (wf_child _ _ _ _ Hw Hin) as [Hwv Hk].
      apply (IH k v Hin (p ++ [k]) k x Hwv); [|exact Hx].
      rewrite clean_path_app, Hp. simpl. rewrite Hk. reflexivity.
    + destruct Hx as [<-|[]]. exact Hp.
Qed.

(** A call on an entry that is no directory is a call on a regular file
    of the tree. *)
Lemma visits_file_sound : forall n p name x,
  os.wf n = true -> In x (visits p name n) -> is_file_visit x = true ->
  exists rel f, fst x = p ++ rel /\ os.resolve n rel = os.Ok (os.File f).
Proof.
  induction n as [f|m es IH] using node_induction; intros p name x Hw Hx Hf.
  - destruct Hx as [<-|[]]. exists [], f. split; [symmetry; apply app_nil_r|reflexivity].
  - rewrite visits_Dir in Hx. destruct Hx as [<-|Hx]; [discriminate|].
    destruct (os.p_r (os.d_perm m)) eqn:Epr.
    + apply visits_below_In in Hx. destruct Hx as (k & v & Hin & Hx).
      destruct (wf_child _ _ _ _ Hw Hin) as [Hwv Hk].
      destruct (IH k v Hin (p ++ [k]) k x Hwv Hx Hf) as (rel & f & E & Hr).
      exists (k :: rel), f. split.
      * rewrite E, <- app_assoc. reflexivity.
      * simpl. rewrite Epr, (lookup_entry_wf m es k v Hw Hin). exact Hr.
    + destruct Hx as [<-|[]]. discriminate.
Qed.

(** Every regular file of the tree gets its call. *)
Lemma visits_file_complete : forall rel n p name f,
  os.resolve n rel = os.Ok (os.File f) ->
  exists d, In (p ++ rel, VEntry d) (visits p name n) /\ os.de_isdir d = false.
Proof.
  induction rel as [|k rel IH]; intros n p name f Hr.
  - simpl in Hr. inversion Hr; subst. rewrite app_nil_r.
    eexists. split; [left; reflexivity|reflexivity].
  - simpl in Hr. destruct n as [f0|m es]; [discriminate|].
    destruct (os.p_r (os.d_perm m)) eqn:Epr; [|discriminate].
    destruct (os.lookup_entry k es) as [ch|] eqn:El; [|discriminate].
    destruct (IH ch (p ++ [k]) k f Hr) as (d & Hin & Hd).
    exists d. split; [|exact Hd].
    rewrite visits_Dir, Epr. right. apply visits_below_In.
    exists k, ch. split; [apply lookup_entry_In; exact El|].
    rewrite <- app_assoc in Hin. exact Hin.
Qed.

(** Every entry of the tree that can be reached gets its call. *)
Lemma visits_entry_complete : forall rel n p name x,
  os.resolve n rel = os.Ok x ->
  exists d, In (p ++ rel, VEntry d) (visits p name n) /\ os.de_isdir d = os.is_dir x.
Proof.
  induction rel as [|k rel IH]; intros n p name x Hr.
  - simpl in Hr. inversion Hr; subst. rewrite app_nil_r.
    destruct x as [f|m es]; eexists; (split; [left; reflexivity|reflexivity]).
  - simpl in Hr. destruct n as [f0|m es]; [discriminate|].
    destruct (os.p_r (os.d_perm m)) eqn:Epr; [|discriminate].
    destruct (os.lookup_entry k es) as [ch|] eqn:El; [|discriminate].
    destruct (IH ch (p ++ [k]) k x Hr) as (d & Hin & Hd).
    exists d. split; [|exact Hd].
    rewrite visits_Dir, Epr. right. apply visits_below_In.
    exists k, ch. split; [apply lookup_entry_In; exact El|].
    rewrite <- app_assoc in Hin. exact Hin.
Qed.

Lemma is_prefix_length a b :
  filepath.is_prefix a b = true -> (List.length a <= List.length b)%nat.
Proof.
  intro H. apply is_prefix_spec in H. destruct H as [c ->]. rewrite length_app. lia.
Qed.

Lemma snoc_not_prefix (p : path) k : filepath.is_prefix (p ++ [k]) p = false.
Proof.
  destruct (filepath.is_prefix (p ++ [k]) p) eqn:E; [|reflexivity].
  apply is_prefix_length in E. rewrite length_app in E. simpl in E. lia.
Qed.

Lemma siblings_apart (p : path) k k' a b :
  k <> k' -> filepath.is_prefix (p ++ [k]) a = true ->
  filepath.is_prefix (p ++ [k']) b = true -> a <> b.
Proof.
  intros Hk Ha Hb E. subst b.
  apply is_prefix_spec in Ha, Hb. destruct Ha as [x Hx], Hb as [y Hy].
  rewrite Hx in Hy. rewrite <- !app_assoc in Hy. apply app_inv_head in Hy.
  simpl in Hy. inversion Hy. contradiction.
Qed.

(** No entry is called on twice. *)
Lemma visits_entries_NoDup : forall n p name,
  os.wf n = true -> NoDup (map fst (filter is_entry (visits p name n))).
Proof.
  induction n as [f|m es IH] using node_induction; intros p name Hw.
  - simpl. constructor; [intros []|constructor].
  - rewrite visits_Dir. cbn [filter is_entry snd map fst].
    destruct (os.p_r (os.d_perm m)); [|simpl; constructor; [intros []|constructor]].
    constructor.
    + intro Hin. apply in_map_iff in Hin. destruct Hin as (x & Ex & Hx).
      apply filter_In in Hx. destruct Hx as [Hx _].
      apply visits_below_In in Hx. destruct Hx as (k & v & _ & Hx).
      apply visits_prefix in Hx. rewrite Ex, snoc_not_prefix in Hx. discriminate.
    + assert (Hall : forall l, (forall kv, In kv l -> In kv es) -> NoDup (map fst l) ->
                 NoDup (map fst (filter is_entry (visits_below p l))));
        [|apply Hall; [auto|apply NoDup_names with (m := m); exact Hw]].
      intros l Hsub Hnd.
      induction l as [|[k v] l IHl]; [constructor|].
      unfold visits_below. cbn [flat_map fst snd]. rewrite filter_app, map_app.
      fold (visits_below p l).
      inversion Hnd as [|? ? Hnotin Hnd']; subst.
      destruct (wf_child _ _ _ _ Hw (Hsub _ (or_introl eq_refl))) as [Hwv _].
      apply NoDup_app.
      * apply (IH k v (Hsub _ (or_introl eq_refl))). exact Hwv.
      * apply IHl; [|exact Hnd']. intros kv Hkv. apply Hsub. right. exact Hkv.
      * intros a Ha Hb.
        apply in_map_iff in Ha. destruct Ha as (x & Ex & Hx).
        apply in_map_iff in Hb. destruct Hb as (y & Ey & Hy).
        apply filter_In in Hx. destruct Hx as [Hx _].
        apply filter_In in Hy. destruct Hy as [Hy _].
        apply visits_prefix in Hx.
        apply visits_below_In in Hy. destruct Hy as (k' & v' & Hin' & Hy).
        apply visits_prefix in Hy.
        assert (Hne : k <> k').
        { intro; subst k'. apply Hnotin. change k with (fst (k, v')).
          apply in_map. exact Hin'. }
        apply (siblings_apart p k k' (fst x) (fst y) Hne Hx Hy). congruence.
Qed.

Lemma filter_file_entry l :
  filter is_file_visit l = filter is_file_visit (filter is_entry l).
Proof.
  induction l as [|x l IH]; [reflexivity|].
  cbn [filter]. destruct x as [p [d|d e]]; unfold is_entry at 1; cbn [snd].
  - cbn [filter]. rewrite IH. reflexivity.
  - unfold is_file_visit at 1. cbn [snd]. exact IH.
Qed.

Lemma NoDup_map_filter {A B : Type} (f : A -> B) (g : A -> bool) l :
  NoDup (map f l) -> NoDup (map f (filter g l)).
Proof.
  induction l as [|a l IH]; simpl; intro H; [constructor|].
  inversion H as [|? ? Hnotin Hnd]; subst.
  destruct (g a); simpl; [|exact (IH Hnd)].
  constructor; [|exact (IH Hnd)].
  intro Hin. apply Hnotin. apply in_map_iff in Hin. destruct Hin as (x & Ex & Hx).
  apply filter_In in Hx. apply in_map_iff. exists x. tauto.
Qed.

Lemma visits_files_NoDup n p name :
  os.wf n = true -> NoDup (map fst (filter is_file_visit (visits p name n))).
Proof.
  intro Hw. rewrite filter_file_entry. apply NoDup_map_filter.
  apply visits_entries_NoDup. exact Hw.
Qed.

(** Two regular files of a tree are neither above nor below one
    another. *)
Lemma files_disjoint fs a b f g :
  os.resolve fs a = os.Ok (os.File f) -> os.resolve fs b = os.Ok (os.File g) ->
  a <> b -> filepath.disjoint a b = true.
Proof.
  intros Ha Hb Hne. apply disjoint_spec. split.
  - destruct (filepath.is_prefix a b) eqn:E; [|reflexivity].
    apply is_prefix_spec in E. destruct E as [x ->].
    destruct x as [|c x]; [rewrite app_nil_r in Hne; contradiction|].
    rewrite (resolve_below_file _ _ _ _ Ha) in Hb; discriminate.
  - destruct (filepath.is_prefix b a) eqn:E; [|reflexivity].
    apply is_prefix_spec in E. destruct E as [x ->].
    destruct x as [|c x]; [rewrite app_nil_r in Hne; contradiction|].
    rewrite (resolve_below_file _ _ _ _ Hb) in Ha; discriminate.
Qed.

(* ================================================================= *)
(** ** The calls of the copy pass, one after the other *)

Section CopyFold.
Variable cfg : config.Config.
Variable st : stream.UpdateStrategy.
Hypothesis Hs : filepath.clean_path (config.Source cfg) = true.
Hypothesis Hd : filepath.clean_path (config.Target cfg) = true.
Hypothesis Hdis : filepath.disjoint (config.Source cfg) (config.Target cfg) = true.
Variable fs0 : os.node.

Lemma visit_step_static s x :
  filepath.is_prefix (config.Source cfg) (fst x) = true ->
  filepath.clean_path (fst x) = true ->
  src_static (config.Source cfg) fs0 (snd s) ->
  src_static (config.Source cfg) fs0 (snd (visit_step (stream.syncFn cfg st) s x)).
Proof.
  intros Hp Hc Hst q Hq. rewrite <- (Hst q Hq). clear Hst.
  destruct x as [p v]. cbn [fst] in Hp, Hc. destruct v as [d|d e]; cbn [visit_step].
  - destruct (stream.syncFn cfg st p (Some d) None (fst s) (snd s)) as [[c' w'] r] eqn:E.
    cbn [snd].
    pose proof (syncFn_file cfg st p (Some d) (fst s) (snd s) c' w' r Hs Hd Hdis Hp Hc E q Hq)
      as H.
    destruct (os.de_isdir d); exact H.
  - destruct (stream.syncFn cfg st p (Some d) (Some (PathError "open" p e)) (fst s) (snd s))
      as [[c' w'] r] eqn:E.
    cbn [snd].
    assert (Hne : os.de_isdir d = true \/ Some (PathError "open" p e) <> None)
      by (right; discriminate).
    rewrite (syncFn_dir cfg st p d _ (fst s) (snd s) c' w' r Hne E).
    reflexivity.
Qed.

Lemma visit_step_errors s x :
  (stream.errorCount (fst s)
   <= stream.errorCount (fst (visit_step (stream.syncFn cfg st) s x)))%Z.
Proof.
  destruct x as [p [d|d e]]; cbn [visit_step]; unfold stream.syncFn.
  - destruct (os.de_isdir d); cbn [fst]; [lia|].
    destruct (stream.processFileWithStrategy _ _ _ _ _ _) as [w1 [e1|]];
      cbn [fst stream.errorCount]; lia.
  - cbn [fst stream.errorCount]. lia.
Qed.

(** A call changes nothing that is neither above nor below the
    destination of the file it is made on. *)
Lemma visit_step_frame s rel v q :
  filepath.clean_path rel = true ->
  (is_file_visit (config.Source cfg ++ rel, v) = true ->
   filepath.disjoint q (config.Target cfg ++ rel) = true) ->
  os.resolve (os.w_fs (snd (visit_step (stream.syncFn cfg st) s (config.Source cfg ++ rel, v)))) q
  = os.resolve (os.w_fs (snd s)) q.
Proof.
  intros Hrel Hq. destruct v as [d|d e]; cbn [visit_step].
  - unfold stream.syncFn. unfold is_file_visit in Hq. cbn [snd] in Hq.
    destruct (os.de_isdir d); [reflexivity|].
    match goal with
    | |- context [stream.processFileWithStrategy ?a ?b ?p0 ?d0 ?s0 ?w0] =>
        destruct (stream.processFileWithStrategy a b p0 d0 s0 w0) as [w1 e1] eqn:EP
    end.
    pose proof (processFile_frame _ _ Hs Hd _ _ _ _ _ _ q Hrel EP (Hq eq_refl)) as HP.
    destruct e1; cbn [snd os.log os.w_fs] in *; exact HP.
  - unfold stream.syncFn. reflexivity.
Qed.

(** A call on a regular file that counts no error leaves at the
    destination a node that stands for the file. *)
Lemma visit_step_done s rel d f :
  filepath.clean_path rel = true -> os.de_isdir d = false ->
  os.resolve (os.w_fs (snd s)) (config.Source cfg ++ rel) = os.Ok (os.File f) ->
  stream.errorCount (fst (visit_step (stream.syncFn cfg st) s
                            (config.Source cfg ++ rel, VEntry d)))
  = stream.errorCount (fst s) ->
  exists n,
    os.resolve (os.w_fs (snd (visit_step (stream.syncFn cfg st) s
                                (config.Source cfg ++ rel, VEntry d))))
      (config.Target cfg ++ rel) = os.Ok n
    /\ delivered st f n.
Proof.
  intros Hrel Hf Hsrc He. cbn [visit_step] in *.
  destruct (stream.syncFn cfg st (config.Source cfg ++ rel) (Some d) None (fst s) (snd s))
    as [[c1 w1] r] eqn:E.
  rewrite Hf. cbn [fst snd] in *.
  destruct (syncFn_counts cfg st rel d _ _ f _ _ _ Hs Hd Hdis Hrel Hf Hsrc E)
    as (_ & _ & _ & [(_ & _ & n & Hn & Hc)|(_ & He')]); [|lia].
  exists n. split; [exact Hn|]. unfold delivered. tauto.
Qed.

(** The calls of a list, on files of [fs0] that are all different: the
    errors counted do not go down; and when none is counted, every file
    of the list has at the end a node at the destination that stands for
    it. *)
Lemma run_visits_done : forall l s,
  (forall x, In x l -> filepath.is_prefix (config.Source cfg) (fst x) = true
                       /\ filepath.clean_path (fst x) = true) ->
  (forall x, In x l -> is_file_visit x = true ->
             exists f, os.resolve fs0 (fst x) = os.Ok (os.File f)) ->
  NoDup (map fst (filter is_file_visit l)) ->
  src_static (config.Source cfg) fs0 (snd s) ->
  src_static (config.Source cfg) fs0 (snd (run_visits (stream.syncFn cfg st) l s))
  /\ (stream.errorCount (fst s)
      <= stream.errorCount (fst (run_visits (stream.syncFn cfg st) l s)))%Z
  /\ (forall q,
         (forall rel v, In (config.Source cfg ++ rel, v) l ->
                        is_file_visit (config.Source cfg ++ rel, v) = true ->
                        filepath.disjoint q (config.Target cfg ++ rel) = true) ->
         os.resolve (os.w_fs (snd (run_visits (stream.syncFn cfg st) l s))) q
         = os.resolve (os.w_fs (snd s)) q)
  /\ (stream.errorCount (fst (run_visits (stream.syncFn cfg st) l s))
      = stream.errorCount (fst s) ->
      forall rel v f,
        In (config.Source cfg ++ rel, v) l ->
        is_file_visit (config.Source cfg ++ rel, v) = true ->
        os.resolve fs0 (config.Source cfg ++ rel) = os.Ok (os.File f) ->
        exists n,
          os.resolve (os.w_fs (snd (run_visits (stream.syncFn cfg st) l s)))
            (config.Target cfg ++ rel) = os.Ok n
          /\ delivered st f n).
Proof.
  induction l as [|x l IH]; intros s Hall Hfiles Hnd Hst.
  - cbn [run_visits fold_left]. split; [exact Hst|]. split; [lia|].
    split; [reflexivity|]. intros _ rel v f [].
  - change (run_visits (stream.syncFn cfg st) (x :: l) s)
      with (run_visits (stream.syncFn cfg st) l (visit_step (stream.syncFn cfg st) s x)).
    set (s1 := visit_step (stream.syncFn cfg st) s x).
    destruct (Hall x (or_introl eq_refl)) as [Hpx Hcx].
    destruct (below_root _ _ Hpx Hcx) as (relx & Ex & Hrelx).
    assert (Hst1 : src_static (config.Source cfg) fs0 (snd s1))
      by (apply visit_step_static; assumption).
    assert (Hnd' : NoDup (map fst (filter is_file_visit l))).
    { cbn [filter] in Hnd. destruct (is_file_visit x); [|exact Hnd].
      inversion Hnd; assumption. }
    destruct (IH s1 (fun y Hy => Hall y (or_intror Hy))
                (fun y Hy => Hfiles y (or_intror Hy)) Hnd' Hst1)
      as (Hst' & Herr & Hframe & Hdone).
    pose proof (visit_step_errors s x) as Hex. fold s1 in Hex.
    split; [exact Hst'|]. split; [lia|]. split.
    + intros q Hq. rewrite Hframe.
      * unfold s1. destruct x as [px vx]. cbn [fst] in Ex. subst px.
        apply visit_step_frame; [exact Hrelx|].
        intro Hfx. apply (Hq relx vx); [left; reflexivity|exact Hfx].
      * intros rel v Hin Hf. apply (Hq rel v); [right; exact Hin|exact Hf].
    + intros He rel v f Hin Hf Hr.
      assert (He1 : stream.errorCount (fst s1) = stream.errorCount (fst s)) by lia.
      assert (He2 : stream.errorCount (fst (run_visits (stream.syncFn cfg st) l s1))
                    = stream.errorCount (fst s1)) by lia.
      destruct Hin as [Hx|Hin]; [|exact (Hdone He2 rel v f Hin Hf Hr)].
      subst x. cbn [fst] in *.
      destruct v as [d|d e]; [|discriminate].
      assert (Hd0 : os.de_isdir d = false).
      { unfold is_file_visit in Hf. cbn [snd] in Hf. destruct (os.de_isdir d);
          [discriminate|reflexivity]. }
      assert (Hrel : filepath.clean_path rel = true)
        by (apply clean_path_app_inv in Hcx; tauto).
      assert (Hnow : os.resolve (os.w_fs (snd s)) (config.Source cfg ++ rel)
                     = os.Ok (os.File f))
        by (rewrite (Hst _ Hpx); exact Hr).
      destruct (visit_step_done s rel d f Hrel Hd0 Hnow He1) as (n & Hn & Hdel).
      exists n. split; [|exact Hdel].
      rewrite Hframe; [exact Hn|].
      intros rel' v' Hin' Hf'. rewrite disjoint_app_same.
      destruct (Hfiles _ (or_intror Hin') Hf') as (f' & Hr'). cbn [fst] in Hr'.
      rewrite <- (disjoint_app_same (config.Source cfg)).
      apply (files_disjoint fs0 _ _ f f' Hr Hr').
      intro Eq. cbn [filter] in Hnd. rewrite Hf in Hnd. cbn [map fst] in Hnd.
      inversion Hnd as [|? ? Hnotin _]; subst. apply Hnotin.
      apply in_map_iff. exists (config.Source cfg ++ rel', v').
      split; [symmetry; exact Eq|]. apply filter_In. split; assumption.
Qed.

End CopyFold.

(* ================================================================= *)
(** ** The copy pass as a whole *)

(** The copy pass over a source root that is there: the calls read off
    the source tree, one after the other. *)
Lemma Sync_walk_run cfg st fuel w n :
  regular cfg w = true ->
  stream.NewUpdateStrategy (config.UpdateMethod cfg) = inl st ->
  os.resolve (os.w_fs w) (config.Source cfg) = os.Ok n ->
  (os.height n < fuel)%nat ->
  stream.Sync_walk fuel cfg w
  = Some (let s := Sync_end (run_visits (stream.syncFn cfg st)
                               (visits (config.Source cfg) (os.base (config.Source cfg)) n)
                               (stream.zero,
                                os.traced (os.CLstat (config.Source cfg)) (Sync_start cfg w))) in
          (fst s, snd s, None)).
Proof.
  intros Hreg Hst Hr Hh. unfold stream.Sync_walk. rewrite Hst.
  fold (Sync_start cfg w).
  rewrite (Sync_WalkDir_static cfg st fuel (Sync_start cfg w) n
             (regular_same_fs cfg w _ eq_refl Hreg) Hr Hh).
  reflexivity.
Qed.

(** The copy pass over a source root that is not there. *)
Lemma Sync_walk_no_root cfg st fuel w e :
  stream.NewUpdateStrategy (config.UpdateMethod cfg) = inl st ->
  os.resolve (os.w_fs w) (config.Source cfg) = os.Err e ->
  exists w', stream.Sync_walk fuel cfg w = Some (stream.mkCounters 0 0 0 1, w', None)
             /\ os.w_fs w' = os.w_fs w.
Proof.
  intros Hst Hr. unfold stream.Sync_walk. rewrite Hst.
  unfold WalkDir, os.Lstat, os.stat. cbn [os.log os.w_fs]. rewrite Hr.
  unfold stream.syncFn. cbn [stream.zero stream.fileCount stream.copiedCount
                               stream.skippedCount stream.errorCount Z.add].
  eexists. split; [reflexivity|reflexivity].
Qed.

Lemma resolve_parent_dir fs (q x : path) n :
  os.resolve fs (q ++ x) = os.Ok n -> x <> [] ->
  exists m es, os.resolve fs q = os.Ok (os.Dir m es).
Proof.
  intros H Hx. rewrite resolve_app in H.
  destruct (os.resolve fs q) as [[f|m es]|e]; try discriminate; [|eauto].
  destruct x; [congruence|discriminate].
Qed.

(** The calls read off the source tree are calls the lemmas on lists of
    calls apply to. *)
Lemma source_visits cfg w n :
  regular cfg w = true ->
  os.resolve (os.w_fs w) (config.Source cfg) = os.Ok n ->
  (forall x, In x (visits (config.Source cfg) (os.base (config.Source cfg)) n) ->
             filepath.is_prefix (config.Source cfg) (fst x) = true
             /\ filepath.clean_path (fst x) = true)
  /\ (forall x, In x (visits (config.Source cfg) (os.base (config.Source cfg)) n) ->
                is_file_visit x = true ->
                exists f, os.resolve (os.w_fs w) (fst x) = os.Ok (os.File f))
  /\ NoDup (map fst (filter is_file_visit
                       (visits (config.Source cfg) (os.base (config.Source cfg)) n)))
  /\ (forall rel f,
         os.resolve (os.w_fs w) (config.Source cfg ++ rel) = os.Ok (os.File f) ->
         exists d, In (config.Source cfg ++ rel, VEntry d)
                     (visits (config.Source cfg) (os.base (config.Source cfg)) n)
                   /\ is_file_visit (config.Source cfg ++ rel, VEntry d) = true).
Proof.
  intros Hreg Hr. pose proof Hreg as Hreg'.
  unfold regular in Hreg'. rewrite !andb_true_iff in Hreg'.
  destruct Hreg' as [[[Hw Hs] Hd] Hdis].
  pose proof (wf_resolve _ _ _ Hw Hr) as Hwn.
  split; [|split; [|split]].
  - intros x Hx. split.
    + exact (visits_prefix _ _ _ _ Hx).
    + exact (visits_clean _ _ _ _ Hwn Hs Hx).
  - intros x Hx Hf. destruct (visits_file_sound _ _ _ _ Hwn Hx Hf) as (rel & f & E & Hf').
    exists f. rewrite E, resolve_app, Hr. exact Hf'.
  - apply visits_files_NoDup. exact Hwn.
  - intros rel f Hf. rewrite resolve_app, Hr in Hf.
    destruct (visits_file_complete rel n (config.Source cfg) (os.base (config.Source cfg)) f Hf)
      as (d & Hin & Hd0).
    exists d. split; [exact Hin|]. unfold is_file_visit. cbn [snd]. rewrite Hd0. reflexivity.
Qed.

(** C5, as it is in the code. Over a well-formed tree and clean roots of
    which none lies in the other, the copy pass comes to its end and
    returns nil. When it has counted no error, every regular file below
    the source root has an entry at its place below the destination root,
    in directories that are all there, and the entry stands for the file:
    it holds the bytes of the file, or it is what the strategy takes for
    an up-to-date copy (with modtime an entry of the same size and
    modification time, whatever its bytes; with sha256 a regular file
    with the same digest). *)
Theorem copy_pass_delivers cfg st fuel w :
  regular cfg w = true ->
  stream.NewUpdateStrategy (config.UpdateMethod cfg) = inl st ->
  (os.height (os.w_fs w) < fuel)%nat ->
  exists c w',
    stream.Sync_walk fuel cfg w = Some (c, w', None)
    /\ (stream.errorCount c = 0%Z ->
        forall rel f,
          os.resolve (os.w_fs w) (config.Source cfg ++ rel) = os.Ok (os.File f) ->
          exists n,
            os.resolve (os.w_fs w') (config.Target cfg ++ rel) = os.Ok n
            /\ delivered st f n
            /\ (forall q x, config.Target cfg ++ rel = q ++ x -> x <> [] ->
                            exists m es, os.resolve (os.w_fs w') q = os.Ok (os.Dir m es))).
Proof.
  intros Hreg Hst Hh. pose proof Hreg as Hreg'.
  unfold regular in Hreg'. rewrite !andb_true_iff in Hreg'.
  destruct Hreg' as [[[Hw Hs] Hd] Hdis].
  destruct (os.resolve (os.w_fs w) (config.Source cfg)) as [n|e] eqn:Hr.
  - pose proof (height_resolve _ _ _ Hr) as Hhn.
    rewrite (Sync_walk_run cfg st fuel w n Hreg Hst Hr) by lia.
    cbv zeta. unfold Sync_end. cbn [fst snd].
    do 2 eexists. split; [reflexivity|].
    intros He rel f Hf.
    destruct (source_visits cfg w n Hreg Hr) as (Hall & Hfiles & Hnd & Hcov).
    destruct (Hcov rel f Hf) as (d & Hin & Hfv).
    destruct (run_visits_done cfg st Hs Hd Hdis (os.w_fs w) _
                (stream.zero, os.traced (os.CLstat (config.Source cfg)) (Sync_start cfg w))
                Hall Hfiles Hnd (fun q _ => eq_refl)) as (_ & _ & _ & Hdone).
    destruct (Hdone He rel (VEntry d) f Hin Hfv Hf) as (n0 & Hn0 & Hdel).
    exists n0. split; [exact Hn0|]. split; [exact Hdel|].
    intros q x Eq Hx. rewrite Eq in Hn0. eapply resolve_parent_dir; eauto.
  - destruct (Sync_walk_no_root cfg st fuel w e Hst Hr) as (w' & E & _).
    exists (stream.mkCounters 0 0 0 1), w'. split; [exact E|].
    cbn [stream.errorCount]. discriminate.
Qed.

Lemma copy_pass_delivers_witness :
  exists c w',
    stream.Sync_walk 4 (cfg_of false "sha256") (world_of two_files) = Some (c, w', None)
    /\ (stream.errorCount c = 0%Z ->
        exists n, os.resolve (os.w_fs w') ["d"; "sub"; "b.txt"] = os.Ok n
                  /\ delivered stream.SHA256Strategy
                       (os.mkFile "world" (os.mkTime 20 2) rw true None) n).
Proof.
  assert (Hh : (os.height (os.w_fs (world_of two_files)) < 4)%nat) by (vm_compute; lia).
  destruct (copy_pass_delivers (cfg_of false "sha256") stream.SHA256Strategy 4
              (world_of two_files) eq_refl eq_refl Hh) as (c & w' & E & H).
  exists c, w'. split; [exact E|]. intro He.
  destruct (H He ["sub"; "b.txt"] (os.mkFile "world" (os.mkTime 20 2) rw true None) eq_refl)
    as (n & Hn & Hdel & _).
  exists n. split; [exact Hn|exact Hdel].
Defined.

(** C5 as the claim has it fails: the destination holds an [a.txt] of
    the size and the modification time of the one of the source, with
    other bytes; the pass with modtime counts no error and leaves it as it
    is. *)
Lemma same_stamp_is_left_alone :
  os.resolve same_stamp_other_bytes ["s"; "a.txt"]
  = os.Ok (plain_file "hello" (os.mkTime 10 1))
  /\ exists w',
      stream.Sync_walk 3 (cfg_of false "modtime") (world_of same_stamp_other_bytes)
      = Some (stream.mkCounters 1 1 0 0, w', None)
      /\ os.resolve (os.w_fs w') ["d"; "a.txt"]
         = os.Ok (plain_file "hallo" (os.mkTime 10 1)).
Proof.
  split; [reflexivity|]. vm_compute. eexists. split; reflexivity.
Qed.

(* ================================================================= *)
(** ** A second copy pass *)

Section SecondPass.
Variable cfg : config.Config.
Variable st : stream.UpdateStrategy.
Hypothesis Hs : filepath.clean_path (config.Source cfg) = true.
Hypothesis Hd : filepath.clean_path (config.Target cfg) = true.

Lemma count_cons {A : Type} (g : A -> bool) x l :
  Z.of_nat (List.length (filter g (x :: l)))
  = ((if g x then 1 else 0) + Z.of_nat (List.length (filter g l)))%Z.
Proof. cbn [filter]. destruct (g x); cbn [List.length]; lia. Qed.

(** Every call on an entry that is no directory counts a file, and no
    other call does. *)
Lemma run_visits_fileCount : forall l s,
  stream.fileCount (fst (run_visits (stream.syncFn cfg st) l s))
  = (stream.fileCount (fst s) + Z.of_nat (List.length (filter is_file_visit l)))%Z.
Proof.
  induction l as [|x l IH]; intros s; [cbn [run_visits fold_left filter List.length]; lia|].
  change (run_visits (stream.syncFn cfg st) (x :: l) s)
    with (run_visits (stream.syncFn cfg st) l (visit_step (stream.syncFn cfg st) s x)).
  rewrite IH, count_cons.
  assert (H : stream.fileCount (fst (visit_step (stream.syncFn cfg st) s x))
              = (stream.fileCount (fst s) + (if is_file_visit x then 1 else 0))%Z); [|lia].
  destruct x as [p [d|d e]]; cbn [visit_step]; unfold stream.syncFn, is_file_visit; cbn [snd].
  - destruct (os.de_isdir d); cbn [fst negb]; [lia|].
    destruct (stream.processFileWithStrategy _ _ _ _ _ _) as [w1 [e1|]];
      cbn [fst stream.fileCount]; lia.
  - cbn [fst stream.fileCount]. lia.
Qed.




End SecondPass.






(* ================================================================= *)
(** ** Setting a node in a tree *)

Lemma same_meta_refl n : same_meta n n.
Proof. destruct n; reflexivity. Qed.

Lemma put_Dir_shape p o m es : exists es', os.put p o (os.Dir m es) = os.Dir m es'.
Proof.
  destruct p as [|c [|c2 p]]; eexists; reflexivity.
Qed.

(** What is found in a tree after [put]: a node of what was put, or a
    node that was there, with the attributes it had. *)
Lemma put_Some_resolve p x : forall fs r n',
  os.resolve (os.put p (Some x) fs) r = os.Ok n' ->
  (exists y, r = p ++ y /\ p <> [] /\ os.resolve x y = os.Ok n')
  \/ (exists n0, os.resolve fs r = os.Ok n0 /\ same_meta n0 n').
Proof.
  induction p as [|c p IH]; intros fs r n' H.
  - right. exists n'. split; [|apply same_meta_refl]. destruct fs; exact H.
  - destruct fs as [f|m es].
    { right. exists n'. split; [exact H|apply same_meta_refl]. }
    destruct r as [|k r].
    { right. exists (os.Dir m es). split; [reflexivity|].
      destruct (put_Dir_shape (c :: p) (Some x) m es) as [es' E].
      cbn [os.resolve] in H. rewrite E in H. inversion H; subst. reflexivity. }
    destruct p as [|c2 p].
    + rewrite put_single in H. cbn [os.resolve] in *.
      destruct (os.p_r (os.d_perm m)); [|discriminate].
      destruct (String.eqb_spec k c) as [->|Hne].
      * rewrite lookup_set_same in H. left. exists r.
        split; [reflexivity|]. split; [discriminate|exact H].
      * rewrite lookup_set_other in H by exact Hne.
        right. exists n'. split; [exact H|apply same_meta_refl].
    + rewrite put_cons in H by discriminate. cbn [os.resolve] in *.
      destruct (os.p_r (os.d_perm m)); [|discriminate].
      destruct (String.eqb_spec k c) as [->|Hne].
      * rewrite lookup_map_same in H.
        destruct (os.lookup_entry c es) as [ch|]; cbn [option_map] in H; [|discriminate].
        destruct (IH ch r n' H) as [(y & -> & _ & Hy)|(n0 & Hn0 & Hm)].
        -- left. exists y. split; [reflexivity|]. split; [discriminate|exact Hy].
        -- right. exists n0. split; [exact Hn0|exact Hm].
      * rewrite lookup_map_other in H by exact Hne.
        right. exists n'. split; [exact H|apply same_meta_refl].
Qed.

(** What stands above the place of a [put], or off it, stays, with its
    attributes. *)
Lemma put_keeps p o : forall fs r n0,
  filepath.is_prefix p r = false ->
  os.resolve fs r = os.Ok n0 ->
  exists n', os.resolve (os.put p o fs) r = os.Ok n' /\ same_meta n0 n'.
Proof.
  induction p as [|c p IH]; intros fs r n0 Hp H; [discriminate|].
  destruct fs as [f|m es].
  { exists n0. split; [exact H|apply same_meta_refl]. }
  destruct r as [|k r].
  { cbn [os.resolve] in *. inversion H; subst.
    destruct (put_Dir_shape (c :: p) o m es) as [es' E]. rewrite E.
    eexists. split; reflexivity. }
  cbn [filepath.is_prefix] in Hp.
  destruct p as [|c2 p].
  - rewrite put_single. cbn [os.resolve] in *.
    destruct (os.p_r (os.d_perm m)); [|discriminate].
    destruct (String.eqb_spec c k) as [->|Hne]; [discriminate|].
    rewrite lookup_set_other by congruence.
    exists n0. split; [exact H|apply same_meta_refl].
  - rewrite put_cons by discriminate. cbn [os.resolve] in *.
    destruct (os.p_r (os.d_perm m)); [|discriminate].
    destruct (String.eqb_spec c k) as [->|Hne].
    + rewrite lookup_map_same.
      destruct (os.lookup_entry k es) as [ch|]; cbn [option_map]; [|discriminate].
      cbn [andb] in Hp. exact (IH ch r n0 Hp H).
    + rewrite lookup_map_other by congruence.
      exists n0. split; [exact H|apply same_meta_refl].
Qed.

Lemma app_not_prefix (a q : path) : q <> [] -> filepath.is_prefix (a ++ q) a = false.
Proof.
  intro Hq. destruct (filepath.is_prefix (a ++ q) a) eqn:E; [|reflexivity].
  apply is_prefix_length in E. rewrite length_app in E.
  destruct q; [congruence|simpl in E; lia].
Qed.

(** A new directory that may be read and written, or a regular file
    where the source has one, keeps the destination as it has to be. *)
Lemma dst_inv_put dst n fs q x :
  dst_inv dst n fs -> q <> [] ->
  ((exists m, x = os.Dir m [] /\ os.p_r (os.d_perm m) = true /\ os.p_w (os.d_perm m) = true)
   \/ (exists g f, x = os.File g /\ os.resolve n q = os.Ok (os.File f))) ->
  dst_inv dst n (os.put (dst ++ q) (Some x) fs).
Proof.
  intros (Hroot & Hdirs & Hfiles) Hq Hx. split; [|split].
  - destruct Hroot as (m & es & Hr).
    destruct (put_keeps (dst ++ q) (Some x) fs dst _ (app_not_prefix dst q Hq) Hr)
      as (n' & Hn' & Hm).
    destruct n' as [g|m' es']; [contradiction|]. eauto.
  - intros q' m es H.
    destruct (put_Some_resolve _ _ _ _ _ H) as [(y & Ey & _ & Hy)|(n0 & Hn0 & Hm)].
    + destruct Hx as [(m0 & -> & Hr0 & Hw0)|(g & f & -> & _)].
      * destruct y; [|simpl in Hy; destruct (os.p_r (os.d_perm m0)); discriminate].
        simpl in Hy. inversion Hy; subst. split; assumption.
      * destruct y; simpl in Hy; discriminate.
    + destruct n0 as [g|m0 es0]; [contradiction|]. simpl in Hm. subst m0.
      exact (Hdirs q' m es0 Hn0).
  - intros q' g H.
    destruct (put_Some_resolve _ _ _ _ _ H) as [(y & Ey & _ & Hy)|(n0 & Hn0 & Hm)].
    + destruct Hx as [(m0 & -> & _)|(g0 & f & -> & Hf)].
      * destruct y; [simpl in Hy; discriminate|].
        simpl in Hy. destruct (os.p_r (os.d_perm m0)); discriminate.
      * destruct y; [|simpl in Hy; discriminate].
        rewrite app_nil_r in Ey. apply app_inv_head in Ey. subst q'. eauto.
    + destruct n0 as [g0|m0 es0]; [|contradiction]. simpl in Hm. subst g0.
      exact (Hfiles q' g Hn0).
Qed.

(* ================================================================= *)
(** ** [MkdirAll] and [copyFile] on a destination that can be filled *)

(** The directories that are there are passed over. *)
Lemma mkdirall_from_skip pm now fs : forall a done todo,
  (exists m es, os.resolve fs (done ++ a) = os.Ok (os.Dir m es)) ->
  os.mkdirall_from done (a ++ todo) pm now fs = os.mkdirall_from (done ++ a) todo pm now fs.
Proof.
  induction a as [|c a IH]; intros done todo Hd.
  - rewrite app_nil_r. reflexivity.
  - cbn [app os.mkdirall_from].
    replace (done ++ c :: a) with ((done ++ [c]) ++ a) in *
      by (rewrite <- app_assoc; reflexivity).
    assert (Hc : exists m es, os.resolve fs (done ++ [c]) = os.Ok (os.Dir m es)).
    { destruct a as [|c2 a]; [rewrite app_nil_r in Hd; exact Hd|].
      destruct Hd as (m & es & Hd). eapply resolve_parent_dir; [exact Hd|discriminate]. }
    destruct Hc as (m & es & Hc). unfold os.stat. rewrite Hc. cbn [os.info_of os.fi_isdir].
    apply IH. exact Hd.
Qed.

Lemma writable_parent_Ok fs (p : path) m es :
  p <> [] -> os.resolve fs (removelast p) = os.Ok (os.Dir m es) ->
  os.p_r (os.d_perm m) = true -> os.p_w (os.d_perm m) = true ->
  os.writable_parent fs p = os.Ok tt.
Proof.
  intros Hp Hd Hr Hw. unfold os.writable_parent, os.parent.
  destruct p as [|c p]; [congruence|]. rewrite Hd, Hr, Hw. reflexivity.
Qed.

Section Fill.
Variable dst : path.
Variable n : os.node.
Variable now : os.Time.

(** Below a directory of the destination, along a path on which the
    source has directories: [MkdirAll] makes what is missing and does not
    fail. *)
Lemma mkdirall_from_grow : forall todo q0 fs,
  dst_inv dst n fs ->
  (exists m es, os.resolve fs (dst ++ q0) = os.Ok (os.Dir m es)) ->
  (forall t x, todo = t ++ x -> t <> [] ->
               exists m es, os.resolve n (q0 ++ t) = os.Ok (os.Dir m es)) ->
  exists fs',
    os.mkdirall_from (dst ++ q0) todo os.mode_0755 now fs = (fs', None)
    /\ dst_inv dst n fs'
    /\ exists m es, os.resolve fs' (dst ++ q0 ++ todo) = os.Ok (os.Dir m es).
Proof.
  induction todo as [|c todo IH]; intros q0 fs Hinv Hd Hsrc.
  - exists fs. split; [reflexivity|]. split; [exact Hinv|]. rewrite app_nil_r. exact Hd.
  - cbn [os.mkdirall_from].
    assert (Hsrc' : forall t x, todo = t ++ x -> t <> [] ->
                      exists m es, os.resolve n ((q0 ++ [c]) ++ t) = os.Ok (os.Dir m es)).
    { intros t x E Ht. rewrite <- app_assoc. apply (Hsrc (c :: t) x); [|discriminate].
      rewrite E. reflexivity. }
    assert (Hpath : (dst ++ q0) ++ [c] = dst ++ (q0 ++ [c])) by (rewrite app_assoc; reflexivity).
    assert (Hgoal : dst ++ (q0 ++ [c]) ++ todo = dst ++ q0 ++ c :: todo)
      by (rewrite <- app_assoc; reflexivity).
    destruct Hd as (m & es & Hd).
    destruct Hinv as (Hroot & Hdirs & Hfiles).
    destruct (Hdirs q0 m es Hd) as [Hr Hw].
    rewrite Hpath. unfold os.stat.
    destruct (os.resolve fs (dst ++ q0 ++ [c])) as [ch|e] eqn:Ec.
    + destruct ch as [g|m1 es1].
      * exfalso. destruct (Hfiles _ g Ec) as (f & Hf).
        destruct (Hsrc [c] todo eq_refl ltac:(discriminate)) as (m2 & es2 & H2).
        congruence.
      * cbn [os.info_of os.fi_isdir].
        destruct (IH (q0 ++ [c]) fs (conj Hroot (conj Hdirs Hfiles))
                    (ex_intro _ m1 (ex_intro _ es1 Ec)) Hsrc') as (fs' & E & Hinv' & Hres).
        exists fs'. split; [exact E|]. split; [exact Hinv'|].
        rewrite <- Hgoal. exact Hres.
    + assert (Ee : e = syscall.ENOENT).
      { rewrite app_assoc, resolve_app, Hd in Ec. simpl in Ec. rewrite Hr in Ec.
        destruct (os.lookup_entry c es); [discriminate|]. congruence. }
      subst e.
      assert (Em : os.mkdir fs (dst ++ q0 ++ [c]) os.mode_0755 now
                   = os.Ok (os.put (dst ++ q0 ++ [c])
                              (Some (os.Dir (os.mkDir os.mode_0755 now 4096) [])) fs)).
      { unfold os.mkdir. rewrite Ec.
        rewrite (writable_parent_Ok fs (dst ++ q0 ++ [c]) m es); [reflexivity| | |exact Hr|exact Hw].
        - destruct dst; destruct q0; discriminate.
        - rewrite app_assoc, removelast_snoc. exact Hd. }
      rewrite Em.
      set (fs1 := os.put (dst ++ q0 ++ [c])
                    (Some (os.Dir (os.mkDir os.mode_0755 now 4096) [])) fs).
      assert (Hinv1 : dst_inv dst n fs1).
      { apply dst_inv_put; [exact (conj Hroot (conj Hdirs Hfiles))| |].
        - destruct q0; discriminate.
        - left. eexists. split; [reflexivity|]. split; reflexivity. }
      assert (Hd1 : exists m es, os.resolve fs1 (dst ++ q0 ++ [c]) = os.Ok (os.Dir m es)).
      { unfold fs1. rewrite app_assoc.
        rewrite (put_same (dst ++ q0) c _ fs m es Hd Hr). eauto. }
      destruct (IH (q0 ++ [c]) fs1 Hinv1 Hd1 Hsrc') as (fs' & E & Hinv' & Hres).
      exists fs'. split; [exact E|]. split; [exact Hinv'|].
      rewrite <- Hgoal. exact Hres.
Qed.

Lemma dst_inv_write_all fs rel data f0 :
  dst_inv dst n fs -> rel <> [] -> os.resolve n rel = os.Ok (os.File f0) ->
  dst_inv dst n (os.write_all fs (dst ++ rel) data now).
Proof.
  intros Hinv Hrel Hf. unfold os.write_all.
  destruct (os.resolve fs (dst ++ rel)) as [[g|m es]|e]; try exact Hinv.
  apply dst_inv_put; [exact Hinv|exact Hrel|]. right. eauto.
Qed.

Lemma dst_inv_chtimes fs rel t g fs' f0 :
  dst_inv dst n fs -> rel <> [] -> os.resolve n rel = os.Ok (os.File f0) ->
  os.resolve fs (dst ++ rel) = os.Ok (os.File g) ->
  os.chtimes fs (dst ++ rel) t = os.Ok fs' -> dst_inv dst n fs'.
Proof.
  intros Hinv Hrel Hf Hg H. unfold os.chtimes in H. rewrite Hg in H.
  destruct (os.f_own g); [|discriminate]. inversion H; subst.
  apply dst_inv_put; [exact Hinv|exact Hrel|]. right. eauto.
Qed.

(** [copyFile] of a regular file of the source onto a place of the
    destination where nothing is yet: it returns nil exactly when the
    file can be read, and it leaves the destination as it has to be. *)
Lemma copyFile_fresh S rel w f f0 :
  filepath.clean_path dst = true -> filepath.clean_path rel = true -> rel <> [] ->
  dst_inv dst n (os.w_fs w) ->
  os.resolve (os.w_fs w) (dst ++ rel) = os.Err syscall.ENOENT ->
  os.resolve n rel = os.Ok (os.File f0) ->
  os.resolve (os.w_fs w) S = os.Ok (os.File f) ->
  filepath.disjoint S (dst ++ rel) = true ->
  os.w_now w = now ->
  exists w' r,
    stream.copyFile S (dst ++ rel) w = (w', r)
    /\ dst_inv dst n (os.w_fs w')
    /\ (r = None <-> readable_b f = true).
Proof.
  intros Hcd Hcr Hrel Hinv Hnew Hf0 Hsrc Hdis Hnow.
  assert (Hc : filepath.clean_path (dst ++ rel) = true)
    by (rewrite clean_path_app, Hcd, Hcr; reflexivity).
  unfold stream.copyFile, os.MkdirAll, os.Open, os.Create.
  rewrite (Dir_clean _ Hc). cbn [os.log os.w_fs os.w_now]. rewrite Hnow.
  rewrite (removelast_app dst Hrel).
  unfold os.mkdirall.
  assert (Hroot := proj1 Hinv).
  rewrite (mkdirall_from_skip os.mode_0755 now (os.w_fs w) dst [] (removelast rel) Hroot).
  cbn [app].
  assert (Hsrcdirs : forall t x, removelast rel = t ++ x -> t <> [] ->
                       exists m es, os.resolve n ([] ++ t) = os.Ok (os.Dir m es)).
  { intros t x E Ht. cbn [app].
    rewrite (app_removelast_last "" Hrel), E, <- app_assoc in Hf0.
    eapply resolve_parent_dir; [exact Hf0|]. destruct x; discriminate. }
  assert (Hd0 : exists m es, os.resolve (os.w_fs w) (dst ++ []) = os.Ok (os.Dir m es))
    by (rewrite app_nil_r; exact Hroot).
  pose proof (mkdirall_from_grow (removelast rel) [] (os.w_fs w) Hinv Hd0 Hsrcdirs) as Hgrow.
  rewrite app_nil_r in Hgrow. cbn [app] in Hgrow.
  destruct Hgrow as (fs1 & Em & Hinv1 & (mp & esp & Hparent)).
  rewrite Em.
  assert (Hframe1 : forall q, filepath.is_prefix q (dst ++ removelast rel) = false ->
                              os.resolve fs1 q = os.resolve (os.w_fs w) q).
  { intros q Hq. eapply (mkdirall_from_frame os.mode_0755 now (removelast rel) dst);
      [exact Em|reflexivity|exact Hq]. }
  assert (HP : dst ++ removelast rel = removelast (dst ++ rel))
    by (symmetry; apply removelast_app; exact Hrel).
  assert (Hne : dst ++ rel <> []) by (destruct dst; destruct rel; try discriminate; congruence).
  assert (Hsrc1 : os.resolve fs1 S = os.Ok (os.File f)).
  { rewrite Hframe1; [exact Hsrc|]. rewrite HP. apply disjoint_not_prefix_parent. exact Hdis. }
  assert (Hnew1 : os.resolve fs1 (dst ++ rel) = os.Err syscall.ENOENT).
  { rewrite Hframe1; [exact Hnew|]. rewrite HP. apply is_prefix_removelast_false. exact Hne. }
  cbn [os.log os.with_fs os.traced os.w_fs os.w_now]. rewrite ?Hnow.
  unfold os.open. rewrite Hsrc1.
  unfold readable_b.
  destruct (os.p_r (os.f_perm f)) eqn:Epr; cbn [andb].
  2: { do 2 eexists. split; [reflexivity|]. split; [exact Hinv1|].
       split; discriminate. }
  destruct (Hinv1) as (_ & Hdirs1 & _).
  destruct (Hdirs1 _ _ _ Hparent) as [Hpr Hpw].
  assert (Ecr : os.create fs1 (dst ++ rel) now
                = os.Ok (os.put (dst ++ rel)
                           (Some (os.File (os.mkFile "" now os.mode_0666 true None))) fs1)).
  { unfold os.create. rewrite Hnew1.
    rewrite (writable_parent_Ok fs1 (dst ++ rel) mp esp Hne); [reflexivity| |exact Hpr|exact Hpw].
    rewrite <- HP. exact Hparent. }
  cbn [os.log os.with_fs os.traced os.w_fs os.w_now]. rewrite ?Hnow.
  rewrite Ecr.
  set (fs3 := os.put (dst ++ rel)
                (Some (os.File (os.mkFile "" now os.mode_0666 true None))) fs1).
  assert (Hinv3 : dst_inv dst n fs3).
  { apply dst_inv_put; [exact Hinv1|exact Hrel|]. right. eauto. }
  assert (Hsrc3 : os.resolve fs3 S = os.Ok (os.File f)).
  { unfold fs3. rewrite put_frame; [exact Hsrc1|exact Hdis]. }
  assert (Hdst3 : os.resolve fs3 (dst ++ rel)
                  = os.Ok (os.File (os.mkFile "" now os.mode_0666 true None))).
  { unfold fs3. rewrite HP in Hparent.
    destruct (path_snoc _ Hne) as (d0 & c0 & E0). rewrite E0 in *.
    rewrite removelast_snoc in Hparent.
    exact (put_same d0 c0 _ fs1 mp esp Hparent Hpr). }
  unfold stream.copyFile_contents, os.Copy, os.Fstat, os.Chtimes, os.Now, os.read_all.
  cbn [os.log os.with_fs os.traced os.w_fs os.w_now]. rewrite ?Hnow. rewrite Hsrc3.
  unfold stream.deferred_close, os.Close.
  destruct (os.f_rderr f) as [k|] eqn:Erd.
  - do 2 eexists. split; [reflexivity|]. cbn [os.log os.with_fs os.traced os.w_fs os.w_now]. rewrite ?Hnow.
    split; [|split; discriminate].
    apply dst_inv_write_all with (f0 := f0); assumption.
  - cbn [os.log os.with_fs os.traced os.w_fs os.w_now]. rewrite ?Hnow.
    set (fs4 := os.write_all fs3 (dst ++ rel) (os.f_data f) now).
    assert (Hinv4 : dst_inv dst n fs4)
      by (apply dst_inv_write_all with (f0 := f0); assumption).
    assert (Hdst4 : os.resolve fs4 (dst ++ rel)
                    = os.Ok (os.File (os.mkFile (os.f_data f) now os.mode_0666 true None))).
    { unfold fs4. rewrite (write_all_file _ _ _ _ _ Hne Hdst3). reflexivity. }
    destruct (os.stat fs4 S) as [i|e].
    + destruct (os.chtimes fs4 (dst ++ rel) (os.fi_mtime i)) as [fs5|e5] eqn:Ech.
      * do 2 eexists. split; [reflexivity|]. cbn [os.log os.with_fs os.traced os.w_fs os.w_now]. rewrite ?Hnow.
        split; [|split; reflexivity].
        eapply dst_inv_chtimes; [exact Hinv4|exact Hrel|exact Hf0|exact Hdst4|exact Ech].
      * do 2 eexists. split; [reflexivity|]. cbn [os.log os.with_fs os.traced os.w_fs os.w_now]. rewrite ?Hnow.
        split; [exact Hinv4|split; reflexivity].
    + do 2 eexists. split; [reflexivity|]. cbn [os.log os.with_fs os.traced os.w_fs os.w_now]. rewrite ?Hnow.
      split; [exact Hinv4|split; reflexivity].
Qed.

End Fill.

(* ================================================================= *)
(** ** The copy pass into a destination that can be filled *)

Lemma count_files_Dir m es :
  count_files (os.Dir m es) = list_sum (map (fun kv => count_files (snd kv)) es).
Proof.
  simpl. induction es as [|kv es IH]; simpl; [reflexivity|]. rewrite IH. reflexivity.
Qed.

Lemma dirs_readable_Dir m es :
  dirs_readable (os.Dir m es)
  = os.p_r (os.d_perm m) && forallb (fun kv => dirs_readable (snd kv)) es.
Proof. reflexivity. Qed.

(** When every directory may be read, every call is a first call on an
    entry, and the calls on regular files are as many as the files. *)
Lemma visits_all_entries : forall n p name x,
  dirs_readable n = true -> In x (visits p name n) -> is_entry x = true.
Proof.
  induction n as [f|m es IH] using node_induction; intros p name x Hr Hx.
  - destruct Hx as [<-|[]]. reflexivity.
  - rewrite dirs_readable_Dir, andb_true_iff in Hr. destruct Hr as [Hpr Hall].
    rewrite visits_Dir, Hpr in Hx. destruct Hx as [<-|Hx]; [reflexivity|].
    apply visits_below_In in Hx. destruct Hx as (k & v & Hin & Hx).
    rewrite forallb_forall in Hall.
    exact (IH k v Hin _ _ _ (Hall _ Hin) Hx).
Qed.

Lemma visits_count_files : forall n p name,
  dirs_readable n = true ->
  List.length (filter is_file_visit (visits p name n)) = count_files n.
Proof.
  induction n as [f|m es IH] using node_induction; intros p name Hr; [reflexivity|].
  rewrite dirs_readable_Dir, andb_true_iff in Hr. destruct Hr as [Hpr Hall].
  rewrite visits_Dir, Hpr, count_files_Dir. cbn [filter is_file_visit snd os.de_isdir negb].
  rewrite forallb_forall in Hall.
  assert (H : forall l, (forall kv, In kv l -> In kv es) ->
            List.length (filter is_file_visit (visits_below p l))
            = list_sum (map (fun kv => count_files (snd kv)) l)); [|apply H; auto].
  induction l as [|[k v] l IHl]; intros Hsub; [reflexivity|].
  unfold visits_below. cbn [flat_map map list_sum fst snd].
  rewrite filter_app, length_app. fold (visits_below p l).
  rewrite (IH k v (Hsub _ (or_introl eq_refl)) _ _ (Hall _ (Hsub _ (or_introl eq_refl)))).
  rewrite IHl; [reflexivity|]. intros kv Hkv. apply Hsub. right. exact Hkv.
Qed.

Lemma filter_all {A : Type} (g : A -> bool) l :
  (forall x, In x l -> g x = true) -> filter g l = l.
Proof.
  induction l as [|a l IH]; intro H; [reflexivity|].
  cbn [filter]. rewrite (H a (or_introl eq_refl)), IH; [reflexivity|].
  intros x Hx. apply H. right. exact Hx.
Qed.

Lemma length_one {A B : Type} (g : A -> B) (l : list A) (a : B) :
  NoDup (map g l) -> (forall x, In x l -> g x = a) -> l <> [] -> List.length l = 1%nat.
Proof.
  intros Hnd Hall Hne. destruct l as [|x [|y l]]; [congruence|reflexivity|].
  exfalso. inversion Hnd as [|? ? Hnotin _]; subst. apply Hnotin. left.
  rewrite (Hall x), (Hall y); [reflexivity|right; left; reflexivity|left; reflexivity].
Qed.

Section FillFold.
Variable cfg : config.Config.
Variable st : stream.UpdateStrategy.
Hypothesis Hs : filepath.clean_path (config.Source cfg) = true.
Hypothesis Hd : filepath.clean_path (config.Target cfg) = true.
Hypothesis Hdis : filepath.disjoint (config.Source cfg) (config.Target cfg) = true.
Variable fs0 : os.node.
Variable n : os.node.
Hypothesis Hn : os.resolve fs0 (config.Source cfg) = os.Ok n.

(** The walk function on a regular file of the source whose place in
    the destination is empty: the file is copied when it can be read, and
    an error is counted when it cannot. *)
Lemma syncFn_fresh_file rel d c0 w0 f :
  filepath.clean_path rel = true -> rel <> [] -> os.de_isdir d = false ->
  os.resolve (os.w_fs w0) (config.Source cfg ++ rel) = os.Ok (os.File f) ->
  os.resolve n rel = os.Ok (os.File f) ->
  dst_inv (config.Target cfg) n (os.w_fs w0) ->
  os.resolve (os.w_fs w0) (config.Target cfg ++ rel) = os.Err syscall.ENOENT ->
  exists c1 w1,
    stream.syncFn cfg st (config.Source cfg ++ rel) (Some d) None c0 w0 = (c1, w1, None)
    /\ dst_inv (config.Target cfg) n (os.w_fs w1)
    /\ stream.copiedCount c1
       = (stream.copiedCount c0 + (if readable_b f then 1 else 0))%Z
    /\ stream.errorCount c1
       = (stream.errorCount c0 + (if readable_b f then 0 else 1))%Z
    /\ stream.skippedCount c1 = stream.skippedCount c0
    /\ (readable_b f = true ->
        exists g, os.resolve (os.w_fs w1) (config.Target cfg ++ rel) = os.Ok (os.File g)
                  /\ os.f_data g = os.f_data f).
Proof.
  intros Hrel Hne Hd0 Hsrc Hf Hinv Hnew.
  assert (Hsd : filepath.disjoint (config.Source cfg ++ rel) (config.Target cfg ++ rel) = true)
    by (apply disjoint_below; exact Hdis).
  assert (Hcd : filepath.clean_path (config.Target cfg ++ rel) = true)
    by (rewrite clean_path_app, Hd, Hrel; reflexivity).
  unfold stream.syncFn. rewrite Hd0.
  unfold stream.processFileWithStrategy.
  rewrite (Rel_below _ rel Hs Hrel), (Join_clean _ rel Hd Hrel).
  unfold os.Stat, os.stat. cbn [os.log os.traced os.w_fs]. rewrite Hnew.
  cbn [os.IsNotExist].
  match goal with
  | |- context [stream.copyFile ?a ?b ?wc] =>
      destruct (copyFile_fresh (config.Target cfg) n (os.w_now w0) a rel wc f f
                  Hd Hrel Hne Hinv Hnew Hf Hsrc Hsd eq_refl) as (w' & r & E & Hinv' & Hr);
      pose proof (fun H : r = None =>
                    copyFile_Ok a b wc w' f Hcd
                      (disjoint_roots_nonempty _ _ rel Hdis) Hsd
                      (eq_trans E (f_equal (fun x => (w', x)) H)) Hsrc) as Hok
  end.
  rewrite E. destruct r as [e|].
  - destruct (readable_b f) eqn:Erb.
    + exfalso. assert (Some e = None) by (apply Hr; reflexivity). discriminate.
    + do 2 eexists. split; [reflexivity|]. cbn [os.log os.w_fs stream.copiedCount
                                                  stream.errorCount stream.skippedCount].
      split; [exact Hinv'|]. repeat split; try lia; try discriminate.
  - destruct (readable_b f) eqn:Erb.
    + do 2 eexists. split; [reflexivity|]. cbn [os.log os.w_fs stream.copiedCount
                                                  stream.errorCount stream.skippedCount].
      split; [exact Hinv'|]. repeat split; try lia.
      intros _. destruct (Hok eq_refl) as (_ & _ & g & Hg & Hdata & _).
      exists g. split; assumption.
    + exfalso. assert (false = true) by (apply Hr; reflexivity). discriminate.
Qed.

Lemma count_cons' {A : Type} (g : A -> bool) x l :
  Z.of_nat (List.length (filter g (x :: l)))
  = ((if g x then 1 else 0) + Z.of_nat (List.length (filter g l)))%Z.
Proof. cbn [filter]. destruct (g x); cbn [List.length]; lia. Qed.

(** The calls of a list on entries of the source, the regular files of
    it all different, with the places of these files in the destination
    still empty: every file that can be read is copied, and every file
    that cannot counts an error. *)
Lemma run_visits_fill : forall l s,
  (forall x, In x l -> filepath.is_prefix (config.Source cfg) (fst x) = true
                       /\ filepath.clean_path (fst x) = true) ->
  (forall x, In x l -> is_entry x = true) ->
  (forall x, In x l -> is_file_visit x = true ->
             exists rel f, fst x = config.Source cfg ++ rel /\ rel <> []
                           /\ os.resolve n rel = os.Ok (os.File f)) ->
  NoDup (map fst (filter is_file_visit l)) ->
  src_static (config.Source cfg) fs0 (snd s) ->
  dst_inv (config.Target cfg) n (os.w_fs (snd s)) ->
  (forall rel v, In (config.Source cfg ++ rel, v) l ->
                 is_file_visit (config.Source cfg ++ rel, v) = true ->
                 os.resolve (os.w_fs (snd s)) (config.Target cfg ++ rel)
                 = os.Err syscall.ENOENT) ->
  stream.copiedCount (fst (run_visits (stream.syncFn cfg st) l s))
  = (stream.copiedCount (fst s) + Z.of_nat (List.length (filter (good_visit fs0) l)))%Z
  /\ stream.errorCount (fst (run_visits (stream.syncFn cfg st) l s))
     = (stream.errorCount (fst s) + Z.of_nat (List.length (filter (bad_visit fs0) l)))%Z
  /\ stream.skippedCount (fst (run_visits (stream.syncFn cfg st) l s))
     = stream.skippedCount (fst s)
  /\ (forall rel v f,
         In (config.Source cfg ++ rel, v) l ->
         is_file_visit (config.Source cfg ++ rel, v) = true ->
         os.resolve n rel = os.Ok (os.File f) -> readable_b f = true ->
         exists g,
           os.resolve (os.w_fs (snd (run_visits (stream.syncFn cfg st) l s)))
             (config.Target cfg ++ rel) = os.Ok (os.File g)
           /\ os.f_data g = os.f_data f).
Proof.
  assert (Hfs0 : forall rel x, os.resolve n rel = os.Ok x ->
                   os.resolve fs0 (config.Source cfg ++ rel) = os.Ok x)
    by (intros rel x H; rewrite resolve_app, Hn; exact H).
  induction l as [|x l IH]; intros s Hall Hent Hfiles Hnd Hst Hinv Hnew.
  - cbn [run_visits fold_left filter List.length].
    split; [lia|]. split; [lia|]. split; [reflexivity|]. intros rel v f [].
  - change (run_visits (stream.syncFn cfg st) (x :: l) s)
      with (run_visits (stream.syncFn cfg st) l (visit_step (stream.syncFn cfg st) s x)).
    remember (visit_step (stream.syncFn cfg st) s x) as s1 eqn:Es1.
    destruct (Hall x (or_introl eq_refl)) as [Hpx Hcx].
    assert (Hst1 : src_static (config.Source cfg) fs0 (snd s1))
      by (rewrite Es1; apply visit_step_static; assumption).
    assert (Hnd' : NoDup (map fst (filter is_file_visit l))).
    { cbn [filter] in Hnd. destruct (is_file_visit x); [|exact Hnd].
      inversion Hnd; assumption. }
    assert (Hfiles0 : forall y, In y (x :: l) -> is_file_visit y = true ->
                        exists f, os.resolve fs0 (fst y) = os.Ok (os.File f)).
    { intros y Hy Hfy. destruct (Hfiles y Hy Hfy) as (rel & f & E & _ & Hf).
      exists f. rewrite E. apply Hfs0. exact Hf. }
    (* the one call *)
    assert (Hstep :
              dst_inv (config.Target cfg) n (os.w_fs (snd s1))
              /\ stream.copiedCount (fst s1)
                 = (stream.copiedCount (fst s) + (if good_visit fs0 x then 1 else 0))%Z
              /\ stream.errorCount (fst s1)
                 = (stream.errorCount (fst s) + (if bad_visit fs0 x then 1 else 0))%Z
              /\ stream.skippedCount (fst s1) = stream.skippedCount (fst s)
              /\ (forall rel v f, x = (config.Source cfg ++ rel, v) ->
                    is_file_visit x = true ->
                    os.resolve n rel = os.Ok (os.File f) -> readable_b f = true ->
                    exists g, os.resolve (os.w_fs (snd s1)) (config.Target cfg ++ rel)
                              = os.Ok (os.File g)
                              /\ os.f_data g = os.f_data f)).
    { pose proof (Hent x (or_introl eq_refl)) as Hex.
      pose proof (Hfiles x (or_introl eq_refl)) as Hfx.
      rewrite Es1. clear Es1. destruct x as [p [d|d e]]; [|discriminate].
      unfold good_visit, bad_visit, file_at, is_file_visit in *. cbn [fst snd] in *.
      destruct (os.de_isdir d) eqn:Ed; cbn [negb] in *.
      - cbn [visit_step]. unfold stream.syncFn. rewrite Ed. cbn [fst snd os.log os.traced os.w_fs].
        split; [exact Hinv|]. repeat split; try lia; try (intros; discriminate).
      - destruct (Hfx eq_refl) as (rel & f & -> & Hne & Hf).
        rewrite (Hfs0 _ _ Hf).
        assert (Hrel : filepath.clean_path rel = true)
          by (apply clean_path_app_inv in Hcx; tauto).
        assert (Hnow : os.resolve (os.w_fs (snd s)) (config.Source cfg ++ rel)
                       = os.Ok (os.File f))
          by (rewrite (Hst _ Hpx); apply Hfs0; exact Hf).
        destruct (syncFn_fresh_file rel d (fst s) (snd s) f Hrel Hne Ed Hnow Hf Hinv
                    (Hnew rel (VEntry d) (or_introl eq_refl)
                       ltac:(unfold is_file_visit; cbn [snd]; rewrite Ed; reflexivity)))
          as (c1 & w1 & E & Hinv1 & Hc & He & Hk & Hdata).
        cbn [visit_step]. rewrite E, Ed. cbn [fst snd].
        split; [exact Hinv1|].
        split; [rewrite Hc; destruct (readable_b f); reflexivity|].
        split; [rewrite He; destruct (readable_b f); reflexivity|].
        split; [exact Hk|].
        intros rel' v' f' Ex _ Hf' Hr'. inversion Ex as [[Erel Ev]].
        apply app_inv_head in Erel. subst rel'.
        rewrite Hf in Hf'. inversion Hf'; subst f'. exact (Hdata Hr'). }
    destruct Hstep as (Hinv1 & Hc1 & He1 & Hk1 & Hdata1).
    (* what the call leaves alone *)
    assert (Hframe1 : forall rel v, In (config.Source cfg ++ rel, v) l ->
                        is_file_visit (config.Source cfg ++ rel, v) = true ->
                        os.resolve (os.w_fs (snd s1)) (config.Target cfg ++ rel)
                        = os.resolve (os.w_fs (snd s)) (config.Target cfg ++ rel)).
    { intros rel v Hin Hf. rewrite Es1. clear Es1.
      destruct (below_root _ _ Hpx Hcx) as (relx & Ex & Hrelx).
      destruct x as [px vx]. cbn [fst] in Ex. subst px.
      apply visit_step_frame; [assumption..|].
      intro Hfx. rewrite disjoint_app_same.
      destruct (Hfiles0 _ (or_introl eq_refl) Hfx) as (fx & Hrx).
      destruct (Hfiles0 _ (or_intror Hin) Hf) as (f & Hr). cbn [fst] in Hrx, Hr.
      rewrite <- (disjoint_app_same (config.Source cfg)).
      apply (files_disjoint fs0 _ _ f fx Hr Hrx).
      intro Eq. cbn [filter] in Hnd.
      match type of Hnd with
      | context [if ?b then _ else _] =>
          assert (Eb : b = true) by exact Hfx; rewrite Eb in Hnd
      end.
      cbn [map fst] in Hnd.
      inversion Hnd as [|? ? Hnotin _]; subst. apply Hnotin.
      apply in_map_iff. exists (config.Source cfg ++ rel, v).
      split; [exact Eq|]. apply filter_In. split; assumption. }
    destruct (IH s1 (fun y Hy => Hall y (or_intror Hy)) (fun y Hy => Hent y (or_intror Hy))
                (fun y Hy => Hfiles y (or_intror Hy)) Hnd' Hst1 Hinv1)
      as (Hc & He & Hk & Hdata).
    { intros rel v Hin Hf. rewrite (Hframe1 rel v Hin Hf).
      apply (Hnew rel v); [right; exact Hin|exact Hf]. }
    destruct (run_visits_done cfg st Hs Hd Hdis fs0 l s1
                (fun y Hy => Hall y (or_intror Hy))
                (fun y Hy => Hfiles0 y (or_intror Hy)) Hnd' Hst1) as (_ & _ & Hframe & _).
    rewrite !count_cons'. split; [lia|]. split; [lia|]. split; [lia|].
    intros rel v f Hin Hf Hfn Hr. destruct Hin as [Hx|Hin]; [|exact (Hdata rel v f Hin Hf Hfn Hr)].
    destruct (Hdata1 rel v f Hx ltac:(rewrite Hx; exact Hf) Hfn Hr) as (g & Hg & Hdg).
    exists g. split; [|exact Hdg]. rewrite Hframe; [exact Hg|].
    intros rel' v' Hin' Hf'. rewrite disjoint_app_same.
    destruct (Hfiles0 _ (or_intror Hin') Hf') as (f' & Hr'). cbn [fst] in Hr'.
    rewrite <- (disjoint_app_same (config.Source cfg)).
    apply (files_disjoint fs0 _ _ f f' (Hfs0 _ _ Hfn) Hr').
    intro Eq. cbn [filter] in Hnd. rewrite Hx in Hnd.
    match type of Hnd with
    | context [if ?b then _ else _] =>
        assert (Eb : b = true) by exact Hf; rewrite Eb in Hnd
    end.
    cbn [map fst] in Hnd.
    inversion Hnd as [|? ? Hnotin _]; subst. apply Hnotin.
    apply in_map_iff. exists (config.Source cfg ++ rel', v').
    split; [symmetry; exact Eq|]. apply filter_In. split; assumption.
Qed.

End FillFold.

Lemma dst_inv_empty dst n fs md :
  os.resolve fs dst = os.Ok (os.Dir md []) ->
  os.p_r (os.d_perm md) = true -> os.p_w (os.d_perm md) = true ->
  dst_inv dst n fs
  /\ forall rel, rel <> [] -> os.resolve fs (dst ++ rel) = os.Err syscall.ENOENT.
Proof.
  intros Hd Hr Hw.
  assert (Hnew : forall rel, rel <> [] -> os.resolve fs (dst ++ rel) = os.Err syscall.ENOENT).
  { intros rel Hrel. rewrite resolve_app, Hd. destruct rel; [congruence|].
    simpl. rewrite Hr. reflexivity. }
  split; [|exact Hnew]. split; [eauto|]. split.
  - intros q m es H. destruct q as [|c q].
    + rewrite app_nil_r, Hd in H. inversion H; subst. split; assumption.
    + rewrite Hnew in H by discriminate. discriminate.
  - intros q g H. destruct q as [|c q].
    + rewrite app_nil_r, Hd in H. discriminate.
    + rewrite Hnew in H by discriminate. discriminate.
Qed.

Lemma count_good_bad fs0 l :
  (forall x, In x l -> is_file_visit x = true ->
             exists f, os.resolve fs0 (fst x) = os.Ok (os.File f)) ->
  List.length (filter is_file_visit l)
  = (List.length (filter (good_visit fs0) l) + List.length (filter (bad_visit fs0) l))%nat.
Proof.
  induction l as [|x l IH]; intro H; [reflexivity|].
  cbn [filter]. unfold good_visit at 1, bad_visit at 1, file_at.
  pose proof (H x (or_introl eq_refl)) as Hx.
  destruct (is_file_visit x).
  - destruct (Hx eq_refl) as (f & ->).
    destruct (readable_b f); cbn [negb List.length];
      rewrite IH by (intros y Hy; apply H; right; exact Hy); lia.
  - apply IH. intros y Hy. apply H. right. exact Hy.
Qed.

Lemma bad_is_file fs0 x : bad_visit fs0 x = true -> is_file_visit x = true.
Proof.
  unfold bad_visit, file_at. destruct (is_file_visit x); [reflexivity|discriminate].
Qed.

Lemma filter_bad_files fs0 l :
  filter (bad_visit fs0) l = filter (bad_visit fs0) (filter is_file_visit l).
Proof.
  induction l as [|x l IH]; [reflexivity|].
  cbn [filter]. destruct (is_file_visit x) eqn:E.
  - cbn [filter]. rewrite IH. reflexivity.
  - destruct (bad_visit fs0 x) eqn:Eb; [|exact IH].
    apply bad_is_file in Eb. congruence.
Qed.

(** C9. Over a well-formed tree and clean roots of which none lies in
    the other: the source root is a directory all of whose directories
    may be read, the destination root is an empty directory that may be
    read and written, one regular file of the source cannot be read and
    all the others can. Then the copy pass comes to its end and returns
    nil. The calls of its walk function are the calls read off the source
    tree, one after the other: every one is a first call on an entry, no
    entry is called on twice, and every entry that can be reached is
    called on. The pass counts every regular file, counts all of them but
    one as copied and one error, and leaves the bytes of every file that
    can be read at its place in the destination. *)
Theorem one_unreadable_file_is_one_error cfg st fuel w m es md rel0 f0 :
  regular cfg w = true ->
  stream.NewUpdateStrategy (config.UpdateMethod cfg) = inl st ->
  (os.height (os.w_fs w) < fuel)%nat ->
  os.resolve (os.w_fs w) (config.Source cfg) = os.Ok (os.Dir m es) ->
  dirs_readable (os.Dir m es) = true ->
  os.resolve (os.w_fs w) (config.Target cfg) = os.Ok (os.Dir md []) ->
  os.p_r (os.d_perm md) = true -> os.p_w (os.d_perm md) = true ->
  os.resolve (os.Dir m es) rel0 = os.Ok (os.File f0) ->
  readable_b f0 = false ->
  (forall rel f, os.resolve (os.Dir m es) rel = os.Ok (os.File f) -> rel <> rel0 ->
                 readable_b f = true) ->
  let l := visits (config.Source cfg) (os.base (config.Source cfg)) (os.Dir m es) in
  exists c w',
    stream.Sync_walk fuel cfg w = Some (c, w', None)
    /\ (c, w') = Sync_end (run_visits (stream.syncFn cfg st) l
                             (stream.zero,
                              os.traced (os.CLstat (config.Source cfg)) (Sync_start cfg w)))
    /\ (forall x, In x l -> is_entry x = true)
    /\ NoDup (map fst l)
    /\ (forall rel x, os.resolve (os.Dir m es) rel = os.Ok x ->
                      exists d, In (config.Source cfg ++ rel, VEntry d) l)
    /\ stream.fileCount c = Z.of_nat (count_files (os.Dir m es))
    /\ stream.copiedCount c = (Z.of_nat (count_files (os.Dir m es)) - 1)%Z
    /\ stream.errorCount c = 1%Z
    /\ stream.skippedCount c = 0%Z
    /\ (forall rel f,
           os.resolve (os.Dir m es) rel = os.Ok (os.File f) -> rel <> rel0 ->
           exists g, os.resolve (os.w_fs w') (config.Target cfg ++ rel) = os.Ok (os.File g)
                     /\ os.f_data g = os.f_data f).
Proof.
  intros Hreg Hst Hh Hr Hdr Hdst Hpr Hpw Hbad Hf0 Hothers l.
  pose proof Hreg as Hreg'.
  unfold regular in Hreg'. rewrite !andb_true_iff in Hreg'.
  destruct Hreg' as [[[Hw Hs] Hd] Hdis].
  set (n := os.Dir m es) in *.
  pose proof (height_resolve _ _ _ Hr) as Hhn.
  assert (Hfuel : (os.height n < fuel)%nat) by lia.
  pose proof (Sync_walk_run cfg st fuel w n Hreg Hst Hr Hfuel) as E1.
  cbv zeta in E1. fold l in E1.
  set (s0 := (stream.zero, os.traced (os.CLstat (config.Source cfg)) (Sync_start cfg w))) in *.
  set (s1 := run_visits (stream.syncFn cfg st) l s0) in *.
  exists (fst (Sync_end s1)), (snd (Sync_end s1)).
  split; [exact E1|]. split; [reflexivity|].
  pose proof (wf_resolve _ _ _ Hw Hr) as Hwn.
  destruct (source_visits cfg w n Hreg Hr) as (Hall & Hfiles & Hnd & Hcov).
  fold l in Hall, Hfiles, Hnd, Hcov.
  assert (Hent : forall x, In x l -> is_entry x = true)
    by (intros x Hx; eapply visits_all_entries; [exact Hdr|exact Hx]).
  split; [exact Hent|]. split.
  { rewrite <- (filter_all is_entry l Hent). apply visits_entries_NoDup. exact Hwn. }
  split.
  { intros rel x Hx.
    destruct (visits_entry_complete rel n (config.Source cfg) (os.base (config.Source cfg)) x Hx)
      as (d & Hin & _).
    exists d. exact Hin. }
  assert (Hfiles' : forall x, In x l -> is_file_visit x = true ->
                      exists rel f, fst x = config.Source cfg ++ rel /\ rel <> []
                                    /\ os.resolve n rel = os.Ok (os.File f)).
  { intros x Hx Hfx. destruct (visits_file_sound _ _ _ _ Hwn Hx Hfx) as (rel & f & E & Hf).
    exists rel, f. split; [exact E|]. split; [|exact Hf].
    intro; subst rel. discriminate. }
  destruct (dst_inv_empty (config.Target cfg) n (os.w_fs w) md Hdst Hpr Hpw) as [Hinv Hnew].
  destruct (run_visits_fill cfg st Hs Hd Hdis (os.w_fs w) n Hr l s0 Hall Hent Hfiles' Hnd
              (fun q _ => eq_refl) Hinv) as (Hc & He & Hk & Hdata).
  { intros rel v Hin Hfv. apply Hnew.
    destruct (Hfiles' _ Hin Hfv) as (rel' & f & E & Hne & _). cbn [fst] in E.
    apply app_inv_head in E. congruence. }
  fold s1 in Hc, He, Hk, Hdata.
  pose proof (run_visits_fileCount cfg st l s0) as Hfc. fold s1 in Hfc.
  pose proof (count_good_bad (os.w_fs w) l Hfiles) as Hgb.
  pose proof (visits_count_files n (config.Source cfg) (os.base (config.Source cfg)) Hdr)
    as Hcf.
  fold l in Hcf. rewrite Hcf in Hfc, Hgb.
  assert (Hone : List.length (filter (bad_visit (os.w_fs w)) l) = 1%nat).
  { apply (length_one fst _ (config.Source cfg ++ rel0)).
    - rewrite filter_bad_files. apply NoDup_map_filter. exact Hnd.
    - intros x Hx. apply filter_In in Hx. destruct Hx as [Hx Hbx].
      pose proof (bad_is_file _ _ Hbx) as Hfx.
      destruct (Hfiles' x Hx Hfx) as (rel & f & E & _ & Hf).
      unfold bad_visit, file_at in Hbx. rewrite Hfx, E, resolve_app, Hr, Hf in Hbx.
      refine (eq_trans E _). f_equal.
      destruct (list_eq_dec string_dec rel rel0) as [Eq|Hne]; [exact Eq|].
      rewrite (Hothers rel f Hf Hne) in Hbx. discriminate.
    - destruct (Hcov rel0 f0) as (d & Hin & Hfv).
      { rewrite resolve_app, Hr. exact Hbad. }
      intro Hnil.
      assert (Hmem : In (config.Source cfg ++ rel0, VEntry d)
                       (filter (bad_visit (os.w_fs w)) l)).
      { apply filter_In. split; [exact Hin|].
        unfold bad_visit, file_at. rewrite Hfv. cbn [fst].
        rewrite resolve_app, Hr, Hbad, Hf0. reflexivity. }
      rewrite Hnil in Hmem. destruct Hmem. }
  unfold Sync_end. cbn [fst snd os.log os.w_fs].
  cbn [s0 fst snd stream.zero stream.fileCount stream.copiedCount stream.errorCount
         stream.skippedCount] in Hfc, Hc, He, Hk.
  split; [lia|]. split; [lia|]. split; [lia|]. split; [exact Hk|].
  intros rel f Hf Hne.
  destruct (Hcov rel f) as (d & Hin & Hfv); [rewrite resolve_app, Hr; exact Hf|].
  exact (Hdata rel (VEntry d) f Hin Hfv Hf (Hothers rel f Hf Hne)).
Qed.

Lemma one_unreadable_file_is_one_error_witness :
  exists c w',
    stream.Sync_walk 4 (cfg_of false "modtime") (world_of three_files_one_unreadable)
    = Some (c, w', None)
    /\ stream.fileCount c = 3%Z /\ stream.copiedCount c = 2%Z /\ stream.errorCount c = 1%Z
    /\ exists g, os.resolve (os.w_fs w') ["d"; "sub"; "c.txt"] = os.Ok (os.File g)
                 /\ os.f_data g = "!".
Proof.
  set (es := [("a.txt", os.File (os.mkFile "hello" (os.mkTime 10 1)
                                   (os.mkPerm false true) true None));
              ("b.txt", plain_file "world" (os.mkTime 20 2));
              ("sub", plain_dir [("c.txt", plain_file "!" (os.mkTime 30 3))])]).
  assert (Hh : (os.height (os.w_fs (world_of three_files_one_unreadable)) < 4)%nat)
    by (vm_compute; lia).
  assert (Hothers : forall rel f,
             os.resolve (os.Dir (os.mkDir rw (os.mkTime 100 0) 4096) es) rel
             = os.Ok (os.File f) ->
             rel <> ["a.txt"] -> readable_b f = true).
  { intros rel f H Hne. unfold es in H.
    unfold plain_dir, plain_file in H.
    destruct rel as [|k rel];
      cbn [os.resolve os.lookup_entry os.p_r os.d_perm rw] in H; [discriminate|].
    repeat (match type of H with
            | context [String.eqb ?a ?b] => destruct (String.eqb_spec a b); subst
            | context [os.resolve _ ?r] => is_var r; destruct r
            end; cbn [os.resolve os.lookup_entry os.p_r os.d_perm rw] in H;
            try discriminate);
      inversion H; subst; try reflexivity.
    exfalso. apply Hne. reflexivity. }
  destruct (one_unreadable_file_is_one_error (cfg_of false "modtime") stream.ModTimeStrategy 4
              (world_of three_files_one_unreadable)
              (os.mkDir rw (os.mkTime 100 0) 4096) es
              (os.mkDir rw (os.mkTime 100 0) 4096) ["a.txt"]
              (os.mkFile "hello" (os.mkTime 10 1) (os.mkPerm false true) true None)
              eq_refl eq_refl Hh eq_refl eq_refl eq_refl eq_refl eq_refl eq_refl eq_refl
              Hothers)
    as (c & w' & E & _ & _ & _ & _ & Hf & Hc & He & _ & Hdata).
  exists c, w'. split; [exact E|]. split; [exact Hf|]. split; [exact Hc|]. split; [exact He|].
  apply (Hdata ["sub"; "c.txt"] (os.mkFile "!" (os.mkTime 30 3) rw true None)).
  - reflexivity.
  - discriminate.
Defined.

